(** * AegisMedix live session client: a shallow embedding

    This development embeds the live-session page of the AegisMedix desktop
    client ([desktop/app/ai-appointment/page.tsx]) and states the properties
    of its session core over that embedding.

    - Finite Float32 samples are rationals ([Q]): the products and
      quotients of the sample conversion are exact in IEEE double
      precision. The energy of the noise gate rounds, and is computed on
      binary64 values ([spec_float] at precision 53).
    - Bytes and 16-bit integers are [Z] with the wrap-around written out.
    - The React state, the refs and the browser objects the page holds
      (sockets, audio contexts, media streams, buffer source nodes, timers,
      pending promise continuations) form one record [World]; every callback
      of the page is a computation in a state-and-exception monad over it.
    - The browser's event loop is a timed labelled transition system
      ([step], [run]) whose labels are the callbacks the page registers. *)

From Stdlib Require Import ZArith QArith Qabs Lia List String Ascii Bool.
From Stdlib Require Import Lqa Floats.SpecFloat.
From stdpp Require Import base option list.
Import ListNotations.

Set Default Proof Using "Type".
Set Warnings "-register-all".
Open Scope Z_scope.

(** ** Platform builtins used by the page *)

Module Base64.
(** [btoa] and [atob] on binary strings, with bytes as [Z] in 0..255. *)

Definition alphabet : list ascii :=
  list_ascii_of_string
    "ABCDEFGHIJKLMNOPQRSTUVWXYZabcdefghijklmnopqrstuvwxyz0123456789+/".

Definition digit (n : Z) : ascii := nth (Z.to_nat n) alphabet "="%char.

Fixpoint index_of (c : ascii) (l : list ascii) (i : Z) : option Z :=
  match l with
  | [] => None
  | x :: r => if Ascii.eqb c x then Some i else index_of c r (i + 1)
  end.

Definition value (c : ascii) : option Z := index_of c alphabet 0.

Fixpoint encode (bytes : list Z) : list ascii :=
  match bytes with
  | [] => []
  | [a] =>
      [digit (Z.shiftr a 2); digit (Z.shiftl (Z.land a 3) 4); "="; "="]%char
  | [a; b] =>
      [digit (Z.shiftr a 2);
       digit (Z.lor (Z.shiftl (Z.land a 3) 4) (Z.shiftr b 4));
       digit (Z.shiftl (Z.land b 15) 2); "="%char]
  | a :: b :: c :: rest =>
      digit (Z.shiftr a 2)
      :: digit (Z.lor (Z.shiftl (Z.land a 3) 4) (Z.shiftr b 4))
      :: digit (Z.lor (Z.shiftl (Z.land b 15) 2) (Z.shiftr c 6))
      :: digit (Z.land c 63)
      :: encode rest
  end.

Definition btoa (bytes : list Z) : string :=
  string_of_list_ascii (encode bytes).

Definition is_space (c : ascii) : bool :=
  let n := nat_of_ascii c in
  (Nat.eqb n 9 || Nat.eqb n 10 || Nat.eqb n 12 || Nat.eqb n 13
   || Nat.eqb n 32)%bool.

(** A string whose length is a multiple of four loses up to two trailing
    [=] signs before decoding. *)
Definition strip_padding (l : list ascii) : list ascii :=
  if (Z.of_nat (length l) mod 4 =? 0)
  then match rev l with
       | "="%char :: "="%char :: r => rev r
       | "="%char :: r => rev r
       | _ => l
       end
  else l.

Fixpoint values (l : list ascii) : option (list Z) :=
  match l with
  | [] => Some []
  | c :: r =>
      match value c, values r with
      | Some v, Some vs => Some (v :: vs)
      | _, _ => None
      end
  end.

Fixpoint decode (vals : list Z) : list Z :=
  match vals with
  | a :: b :: c :: d :: rest =>
      Z.lor (Z.shiftl a 2) (Z.shiftr b 4)
      :: Z.lor (Z.shiftl (Z.land b 15) 4) (Z.shiftr c 2)
      :: Z.lor (Z.shiftl (Z.land c 3) 6) d
      :: decode rest
  | [a; b; c] =>
      [Z.lor (Z.shiftl a 2) (Z.shiftr b 4);
       Z.lor (Z.shiftl (Z.land b 15) 4) (Z.shiftr c 2)]
  | [a; b] => [Z.lor (Z.shiftl a 2) (Z.shiftr b 4)]
  | _ => []
  end.

(** [atob]: [None] stands for the [InvalidCharacterError] it throws. *)
Definition atob (s : string) : option (list Z) :=
  let l := strip_padding
             (List.filter (fun c => negb (is_space c))
                          (list_ascii_of_string s)) in
  if (Z.of_nat (length l) mod 4 =? 1) then None
  else match values l with
       | Some vs => Some (decode vs)
       | None => None
       end.
End Base64.

Module TypedArray.
(** [ToInt16] of a finite number: truncate toward zero, reduce modulo
    2^16, read as two's complement. *)
Definition trunc (x : Q) : Z := Z.quot (Qnum x) (Zpos (Qden x)).

Definition ToInt16 (x : Q) : Z :=
  let m := trunc x mod 65536 in
  if 32768 <=? m then m - 65536 else m.

(** [new Uint8Array(int16Array.buffer)] on a little-endian platform. *)
Definition bytes_of_int16 (v : Z) : list Z :=
  let u := v mod 65536 in
  [Z.land u 255; Z.shiftr u 8].

Definition Uint8_view (pcm : list Z) : list Z :=
  List.concat (List.map bytes_of_int16 pcm).

(** [new Int16Array(uint8Array.buffer)]: [None] stands for the
    [RangeError] raised when the byte length is odd. *)
Fixpoint Int16_view (bytes : list Z) : option (list Z) :=
  match bytes with
  | [] => Some []
  | [_] => None
  | lo :: hi :: rest =>
      match Int16_view rest with
      | Some l =>
          let u := Z.lor lo (Z.shiftl hi 8) in
          Some ((if 32768 <=? u then u - 65536 else u) :: l)
      | None => None
      end
  end.
End TypedArray.

(** ** Noise-gated frame encoder ([processor.onaudioprocess]) *)

Module Encoder.
Import TypedArray.

Definition Qltb (x y : Q) : bool :=
  (Qnum x * Zpos (Qden y) <? Qnum y * Zpos (Qden x)).

Definition Math_min (a b : Q) : Q := if Qltb b a then b else a.
Definition Math_max (a b : Q) : Q := if Qltb a b then b else a.

(** *** Numbers

    The energy of a window is computed on JavaScript numbers, IEEE 754
    binary64 values with every operation rounded to nearest, ties to
    even. *)
Definition prec : Z := 53.
Definition emax : Z := 1024.

(** The number of an integer, as of [inputData.length]. *)
Definition of_Z (z : Z) : spec_float := binary_normalize prec emax z 0 false.

(** The number of a decimal literal or of a Float32 value: the quotient
    of numerator by denominator, rounded once (both are integers below
    2^53 there). A Float32 value is read without rounding. *)
Definition of_Q (x : Q) : spec_float :=
  SFdiv prec emax (of_Z (Qnum x)) (of_Z (Zpos (Qden x))).

(** An element of [inputData], a Float32Array: a finite value, as the
    rational it denotes, an infinity, or NaN. The sign of a zero makes no
    difference to the callback. *)
Inductive Float32 :=
| Finite (q : Q)
| Infinity (negative : bool)
| NaN.

(** The number read from [inputData[i]]. *)
Definition number (x : Float32) : spec_float :=
  match x with
  | Finite q => of_Q q
  | Infinity s => S754_infinity s
  | NaN => S754_nan
  end.

Definition NOISE_THRESHOLD : Q := 2 # 100.

(** The accumulation loop over [inputData]:
    [sumSquares += inputData[i] * inputData[i]]. *)
Fixpoint sumSquares_from (acc : spec_float) (inputData : list Float32)
  : spec_float :=
  match inputData with
  | [] => acc
  | x :: r =>
      sumSquares_from
        (SFadd prec emax acc (SFmul prec emax (number x) (number x))) r
  end.

Definition sumSquares (inputData : list Float32) : spec_float :=
  sumSquares_from (S754_zero false) inputData.

(** [Math.sqrt(sumSquares / inputData.length)]. On an empty window the
    quotient is [0 / 0], NaN. *)
Definition rms (inputData : list Float32) : spec_float :=
  SFsqrt prec emax
         (SFdiv prec emax (sumSquares inputData)
                (of_Z (Z.of_nat (length inputData)))).

(** [rms < NOISE_THRESHOLD]; false when [rms] is NaN. *)
Definition gated (inputData : list Float32) : bool :=
  SFltb (rms inputData) (of_Q NOISE_THRESHOLD).

(** The value stored at [pcmData[i]] in the conversion loop, for a finite
    sample. The clamped sample has the 24 significant bits of a Float32,
    so its product by 32768 or 32767 is exact. *)
Definition convert (x : Q) : Z :=
  let s := Math_max (-1) (Math_min 1 x) in
  ToInt16 (if Qltb s 0 then s * 32768 else s * 32767)%Q.

(** The value stored at [pcmData[i]] for any element. [Math.min(1, x)]
    and [Math.max(-1, x)] turn the infinities into 1 and -1; NaN goes
    through both, [NaN < 0] is false, [NaN * 32767] is NaN, and an
    Int16Array stores NaN as 0. *)
Definition store (x : Float32) : Z :=
  match x with
  | Finite q => convert q
  | Infinity false => convert 1
  | Infinity true => convert (-1)
  | NaN => 0
  end.

(** [for (let i = 0; i < inputData.length; i++) pcmData[i] = ...]. *)
Definition convert_loop (inputData : list Float32) (pcmData : list Z)
  : list Z :=
  fold_left
    (fun pcm i =>
       match inputData !! i with
       | Some x => <[i := store x]> pcm
       | None => pcm
       end)
    (seq 0 (length inputData)) pcmData.

(** The Int16Array [pcmData] at the end of the callback. *)
Definition pcm (inputData : list Float32) : list Z :=
  let fresh := repeat 0 (length inputData) in
  if gated inputData
  then List.map (fun _ => 0) fresh        (* pcmData.fill(0) *)
  else convert_loop inputData fresh.

(** The same for a window of finite samples, as the capture events of the
    session carry it. *)
Definition pcmData (inputData : list Q) : list Z :=
  pcm (List.map Finite inputData).

(** The [data] field of the outbound audio message. *)
Definition frame (inputData : list Q) : string :=
  Base64.btoa (Uint8_view (pcmData inputData)).

(** [float32Data[i] = int16Data[i] / 32768.0] in [processAudioQueue]. *)
Definition to_float32 (v : Z) : Q := inject_Z v / 32768.
End Encoder.

(** The encoder as the specification words it. *)
Module EncoderSpec.
Definition clamp (x : Q) : Q :=
  if Encoder.Qltb x (-1) then (-1)%Q
  else if Encoder.Qltb 1 x then 1%Q else x.

Definition scale (s : Q) : Q :=
  if Encoder.Qltb s 0 then (s * 32768)%Q else (s * 32767)%Q.

(** The integer part of the scaled sample; no wrap-around is applied. *)
Definition sample (x : Q) : Z := TypedArray.trunc (scale (clamp x)).

Definition mean_square (window : list Q) : Q :=
  (fold_right (fun x acc => x * x + acc) 0 window
   / inject_Z (Z.of_nat (length window)))%Q.

(** The root mean square of the window, a real number, is below [t]. *)
Definition rms_below (window : list Q) (t : Q) : bool :=
  Encoder.Qltb (mean_square window) (t * t)%Q.

(** The frame once the gate has decided. *)
Definition frame_of (silent : bool) (window : list Q) : list Z :=
  if silent then repeat 0 (length window) else List.map sample window.

Definition int16_frame (window : list Q) : list Z :=
  frame_of (rms_below window (2 # 100)) window.

(** Low byte first, on the two's-complement value. *)
Definition little_endian (v : Z) : list Z :=
  [v mod 256; (v / 256) mod 256].

Definition packed (frame : list Z) : list Z := flat_map little_endian frame.

(** The gate on binary64 numbers, every operation rounded to nearest: the
    energy is the sum of the squares taken in index order, the root mean
    square is the square root of the energy divided by the number of
    samples, and the gate closes when it is below the number nearest to
    the threshold. *)
Definition square64 (x : spec_float) : spec_float := SFmul 53 1024 x x.

Definition energy64 (window : list spec_float) : spec_float :=
  fold_left (SFadd 53 1024) (List.map square64 window) (S754_zero false).

Definition rms64 (window : list spec_float) : spec_float :=
  SFsqrt 53 1024
         (SFdiv 53 1024 (energy64 window)
                (binary_normalize 53 1024 (Z.of_nat (length window)) 0 false)).

Definition closes (window : list Encoder.Float32) (t : Q) : bool :=
  SFltb (rms64 (List.map Encoder.number window)) (Encoder.of_Q t).

(** A window that may hold infinities and NaN: an infinity clamps to 1 or
    -1, NaN has no value and is sent as 0. *)
Definition sample_of (x : Encoder.Float32) : Z :=
  match x with
  | Encoder.Finite q => sample q
  | Encoder.Infinity false => sample 1
  | Encoder.Infinity true => sample (-1)
  | Encoder.NaN => 0
  end.

Definition frame_of_window (silent : bool) (window : list Encoder.Float32)
  : list Z :=
  if silent then repeat 0 (length window) else List.map sample_of window.
End EncoderSpec.

(** ** JavaScript values and completions *)

(** A parsed JSON value. A number is kept as its [ToString] rendering: the
    page never computes with a number it receives. *)
Inductive JSON :=
| JNull
| JBool (b : bool)
| JNum (text : string)
| JStr (s : string)
| JArr (elements : list JSON)
| JObj (members : list (string * JSON)).

(** A JavaScript value read from a message: [None] is [undefined]. *)
Definition JSValue := option JSON.

Inductive Exn :=
| SyntaxError
| TypeError
| RangeError
| InvalidCharacterError
| InvalidStateError
| NotSupportedError
| Rejected (reason : string).

Inductive Completion (A : Type) :=
| Normal (a : A)
| Thrown (e : Exn).
Arguments Normal {A} a.
Arguments Thrown {A} e.

Module Json.
(** The last member of that name wins, as in [JSON.parse]. *)
Fixpoint member (key : string) (ms : list (string * JSON)) : JSValue :=
  match ms with
  | [] => None
  | (k, v) :: r =>
      match member key r with
      | Some v' => Some v'
      | None => if String.eqb k key then Some v else None
      end
  end.

(** [o.key] for one of the keys the page reads ([type], [status], [data],
    [content], [message]); none of them exists on a primitive or an
    array. *)
Definition prop (o : JSON) (key : string) : Completion JSValue :=
  match o with
  | JNull => Thrown TypeError
  | JObj ms => Normal (member key ms)
  | _ => Normal None
  end.

(** [v.length], read only for its exception. *)
Definition length_of (v : JSValue) : Completion unit :=
  match v with
  | None | Some JNull => Thrown TypeError
  | Some _ => Normal tt
  end.

Fixpoint ToString (v : JSON) : string :=
  match v with
  | JNull => "null"
  | JBool true => "true"
  | JBool false => "false"
  | JNum text => text
  | JStr s => s
  | JArr l =>
      (fix join (l : list JSON) : string :=
         match l with
         | [] => ""
         | [x] => match x with JNull => "" | _ => ToString x end
         | x :: r =>
             (match x with JNull => "" | _ => ToString x end)
               ++ "," ++ join r
         end) l
  | JObj _ => "[object Object]"
  end%string.

(** [v === "literal"]. *)
Definition is_str (v : JSValue) (lit : string) : bool :=
  match v with
  | Some (JStr s) => String.eqb s lit
  | _ => false
  end.

(** Truthiness, for [err.message || "..."]. *)
Definition truthy_str (s : string) : bool := negb (String.eqb s "").
End Json.

(** ** The world the page runs in *)

Inductive SessionStatus :=
| idle | connecting | connected | speaking | listening | ended | error.

Inductive ReadyState := CONNECTING | OPEN | CLOSING | CLOSED.

Inductive ContextState := suspended | running | closed.

Inductive NodeState := Unscheduled | Playing | Stopped | Finished.

(** A [WebSocket] created by [startLiveSession], with what its handlers
    closed over ([enableVideo] and [sessionStatus] of the render that
    created them) and the [_videoIntervalId] property. *)
Record WebSocket := {
  readyState : ReadyState;
  closeFired : bool;
  seenEnableVideo : bool;
  seenSessionStatus : SessionStatus;
  videoIntervalId : option nat
}.

(** An [AudioBufferSourceNode] with the samples of its buffer. *)
Record SourceNode := {
  buffer : list Q;
  nodeState : NodeState
}.

(** The outbound messages, before [JSON.stringify]. *)
Inductive OutMsg :=
| OutConfig (enable_video : bool)
| OutAudio (data : string) (sample_rate : Z)
| OutVideo (data : option string) (mime_type : string)
| OutEnd.

(** An [async] function suspended at an [await]. *)
Inductive Continuation :=
| AwaitUserMedia (seenVideo : bool) (seenStatus : SessionStatus)
| AwaitRouting (ctx : nat) (int16Data : list Z)
| AwaitResume (ctx : nat) (int16Data : list Z).

(** What an observer of the session sees, oldest first. *)
Inductive Obs :=
| SetStatus (s : SessionStatus)
| Sent (socket : nat) (m : OutMsg)
| PlaybackStart (node : nat) (samples : list Q)
| PlaybackEnded (node : nat)
| CleanupCall.

Record ReactState := {
  sessionStatus : SessionStatus;
  statusMessage : string;
  errorState : JSValue;
  sessionSummary : JSValue;
  enableVideo : bool;
  showConsentModal : bool
}.

Record Refs := {
  wsRef : option nat;
  audioContextRef : option nat;
  mediaStreamRef : option nat;
  audioQueueRef2 : list (list Z);
  isPlayingAudioRef : bool;
  activeAudioContextRef : option nat;
  activeSourceNodeRef : option nat;
  isSessionActiveRef : bool;
  videoRef : bool;
  canvasRef : bool
}.

Record Browser := {
  sockets : list WebSocket;
  contexts : list ContextState;
  streams : list bool;                    (* are the tracks still live? *)
  nodes : list SourceNode;
  timeouts : list (option Z);             (* due time of a pending timeout *)
  intervals : nat;                        (* video intervals ever set *)
  processors : nat;                       (* script processors connected *)
  continuations : list (option Continuation);
  now : Z;
  mounted : bool;
  user : option string
}.

Record World := {
  react : ReactState;
  refs : Refs;
  browser : Browser;
  log : list Obs
}.

Definition with_react (f : ReactState -> ReactState) (w : World) : World :=
  {| react := f (react w); refs := refs w; browser := browser w; log := log w |}.
Definition with_refs (f : Refs -> Refs) (w : World) : World :=
  {| react := react w; refs := f (refs w); browser := browser w; log := log w |}.
Definition with_browser (f : Browser -> Browser) (w : World) : World :=
  {| react := react w; refs := refs w; browser := f (browser w); log := log w |}.
Definition observe (o : Obs) (w : World) : World :=
  {| react := react w; refs := refs w; browser := browser w;
     log := log w ++ [o] |}.

Definition set_sessionStatus v (s : ReactState) : ReactState :=
  {| sessionStatus := v; statusMessage := statusMessage s;
     errorState := errorState s; sessionSummary := sessionSummary s;
     enableVideo := enableVideo s; showConsentModal := showConsentModal s |}.
Definition set_statusMessage v (s : ReactState) : ReactState :=
  {| sessionStatus := sessionStatus s; statusMessage := v;
     errorState := errorState s; sessionSummary := sessionSummary s;
     enableVideo := enableVideo s; showConsentModal := showConsentModal s |}.
Definition set_errorState v (s : ReactState) : ReactState :=
  {| sessionStatus := sessionStatus s; statusMessage := statusMessage s;
     errorState := v; sessionSummary := sessionSummary s;
     enableVideo := enableVideo s; showConsentModal := showConsentModal s |}.
Definition set_sessionSummary v (s : ReactState) : ReactState :=
  {| sessionStatus := sessionStatus s; statusMessage := statusMessage s;
     errorState := errorState s; sessionSummary := v;
     enableVideo := enableVideo s; showConsentModal := showConsentModal s |}.
Definition set_enableVideo v (s : ReactState) : ReactState :=
  {| sessionStatus := sessionStatus s; statusMessage := statusMessage s;
     errorState := errorState s; sessionSummary := sessionSummary s;
     enableVideo := v; showConsentModal := showConsentModal s |}.
Definition set_showConsentModal v (s : ReactState) : ReactState :=
  {| sessionStatus := sessionStatus s; statusMessage := statusMessage s;
     errorState := errorState s; sessionSummary := sessionSummary s;
     enableVideo := enableVideo s; showConsentModal := v |}.

Definition set_wsRef v (r : Refs) : Refs :=
  {| wsRef := v; audioContextRef := audioContextRef r;
     mediaStreamRef := mediaStreamRef r; audioQueueRef2 := audioQueueRef2 r;
     isPlayingAudioRef := isPlayingAudioRef r;
     activeAudioContextRef := activeAudioContextRef r;
     activeSourceNodeRef := activeSourceNodeRef r;
     isSessionActiveRef := isSessionActiveRef r;
     videoRef := videoRef r; canvasRef := canvasRef r |}.
Definition set_audioContextRef v (r : Refs) : Refs :=
  {| wsRef := wsRef r; audioContextRef := v;
     mediaStreamRef := mediaStreamRef r; audioQueueRef2 := audioQueueRef2 r;
     isPlayingAudioRef := isPlayingAudioRef r;
     activeAudioContextRef := activeAudioContextRef r;
     activeSourceNodeRef := activeSourceNodeRef r;
     isSessionActiveRef := isSessionActiveRef r;
     videoRef := videoRef r; canvasRef := canvasRef r |}.
Definition set_mediaStreamRef v (r : Refs) : Refs :=
  {| wsRef := wsRef r; audioContextRef := audioContextRef r;
     mediaStreamRef := v; audioQueueRef2 := audioQueueRef2 r;
     isPlayingAudioRef := isPlayingAudioRef r;
     activeAudioContextRef := activeAudioContextRef r;
     activeSourceNodeRef := activeSourceNodeRef r;
     isSessionActiveRef := isSessionActiveRef r;
     videoRef := videoRef r; canvasRef := canvasRef r |}.
Definition set_audioQueueRef2 v (r : Refs) : Refs :=
  {| wsRef := wsRef r; audioContextRef := audioContextRef r;
     mediaStreamRef := mediaStreamRef r; audioQueueRef2 := v;
     isPlayingAudioRef := isPlayingAudioRef r;
     activeAudioContextRef := activeAudioContextRef r;
     activeSourceNodeRef := activeSourceNodeRef r;
     isSessionActiveRef := isSessionActiveRef r;
     videoRef := videoRef r; canvasRef := canvasRef r |}.
Definition set_isPlayingAudioRef v (r : Refs) : Refs :=
  {| wsRef := wsRef r; audioContextRef := audioContextRef r;
     mediaStreamRef := mediaStreamRef r; audioQueueRef2 := audioQueueRef2 r;
     isPlayingAudioRef := v;
     activeAudioContextRef := activeAudioContextRef r;
     activeSourceNodeRef := activeSourceNodeRef r;
     isSessionActiveRef := isSessionActiveRef r;
     videoRef := videoRef r; canvasRef := canvasRef r |}.
Definition set_activeAudioContextRef v (r : Refs) : Refs :=
  {| wsRef := wsRef r; audioContextRef := audioContextRef r;
     mediaStreamRef := mediaStreamRef r; audioQueueRef2 := audioQueueRef2 r;
     isPlayingAudioRef := isPlayingAudioRef r;
     activeAudioContextRef := v;
     activeSourceNodeRef := activeSourceNodeRef r;
     isSessionActiveRef := isSessionActiveRef r;
     videoRef := videoRef r; canvasRef := canvasRef r |}.
Definition set_activeSourceNodeRef v (r : Refs) : Refs :=
  {| wsRef := wsRef r; audioContextRef := audioContextRef r;
     mediaStreamRef := mediaStreamRef r; audioQueueRef2 := audioQueueRef2 r;
     isPlayingAudioRef := isPlayingAudioRef r;
     activeAudioContextRef := activeAudioContextRef r;
     activeSourceNodeRef := v;
     isSessionActiveRef := isSessionActiveRef r;
     videoRef := videoRef r; canvasRef := canvasRef r |}.
Definition set_isSessionActiveRef v (r : Refs) : Refs :=
  {| wsRef := wsRef r; audioContextRef := audioContextRef r;
     mediaStreamRef := mediaStreamRef r; audioQueueRef2 := audioQueueRef2 r;
     isPlayingAudioRef := isPlayingAudioRef r;
     activeAudioContextRef := activeAudioContextRef r;
     activeSourceNodeRef := activeSourceNodeRef r;
     isSessionActiveRef := v;
     videoRef := videoRef r; canvasRef := canvasRef r |}.
Definition set_domRefs v c (r : Refs) : Refs :=
  {| wsRef := wsRef r; audioContextRef := audioContextRef r;
     mediaStreamRef := mediaStreamRef r; audioQueueRef2 := audioQueueRef2 r;
     isPlayingAudioRef := isPlayingAudioRef r;
     activeAudioContextRef := activeAudioContextRef r;
     activeSourceNodeRef := activeSourceNodeRef r;
     isSessionActiveRef := isSessionActiveRef r;
     videoRef := v; canvasRef := c |}.

Definition set_sockets v (b : Browser) : Browser :=
  {| sockets := v; contexts := contexts b; streams := streams b;
     nodes := nodes b; timeouts := timeouts b; intervals := intervals b;
     processors := processors b; continuations := continuations b;
     now := now b; mounted := mounted b; user := user b |}.
Definition set_contexts v (b : Browser) : Browser :=
  {| sockets := sockets b; contexts := v; streams := streams b;
     nodes := nodes b; timeouts := timeouts b; intervals := intervals b;
     processors := processors b; continuations := continuations b;
     now := now b; mounted := mounted b; user := user b |}.
Definition set_streams v (b : Browser) : Browser :=
  {| sockets := sockets b; contexts := contexts b; streams := v;
     nodes := nodes b; timeouts := timeouts b; intervals := intervals b;
     processors := processors b; continuations := continuations b;
     now := now b; mounted := mounted b; user := user b |}.
Definition set_nodes v (b : Browser) : Browser :=
  {| sockets := sockets b; contexts := contexts b; streams := streams b;
     nodes := v; timeouts := timeouts b; intervals := intervals b;
     processors := processors b; continuations := continuations b;
     now := now b; mounted := mounted b; user := user b |}.
Definition set_timeouts v (b : Browser) : Browser :=
  {| sockets := sockets b; contexts := contexts b; streams := streams b;
     nodes := nodes b; timeouts := v; intervals := intervals b;
     processors := processors b; continuations := continuations b;
     now := now b; mounted := mounted b; user := user b |}.
Definition set_intervals v (b : Browser) : Browser :=
  {| sockets := sockets b; contexts := contexts b; streams := streams b;
     nodes := nodes b; timeouts := timeouts b; intervals := v;
     processors := processors b; continuations := continuations b;
     now := now b; mounted := mounted b; user := user b |}.
Definition set_processors v (b : Browser) : Browser :=
  {| sockets := sockets b; contexts := contexts b; streams := streams b;
     nodes := nodes b; timeouts := timeouts b; intervals := intervals b;
     processors := v; continuations := continuations b;
     now := now b; mounted := mounted b; user := user b |}.
Definition set_continuations v (b : Browser) : Browser :=
  {| sockets := sockets b; contexts := contexts b; streams := streams b;
     nodes := nodes b; timeouts := timeouts b; intervals := intervals b;
     processors := processors b; continuations := v;
     now := now b; mounted := mounted b; user := user b |}.
Definition set_now v (b : Browser) : Browser :=
  {| sockets := sockets b; contexts := contexts b; streams := streams b;
     nodes := nodes b; timeouts := timeouts b; intervals := intervals b;
     processors := processors b; continuations := continuations b;
     now := v; mounted := mounted b; user := user b |}.
Definition set_mounted v (b : Browser) : Browser :=
  {| sockets := sockets b; contexts := contexts b; streams := streams b;
     nodes := nodes b; timeouts := timeouts b; intervals := intervals b;
     processors := processors b; continuations := continuations b;
     now := now b; mounted := v; user := user b |}.


(** ** Callbacks as computations over the world

    A callback mutates the world and either completes or throws; what it
    has mutated before throwing stays mutated. *)

Definition JS (A : Type) : Type := World -> Completion A * World.

#[global] Instance JS_ret : MRet JS := fun A a w => (Normal a, w).
#[global] Instance JS_bind : MBind JS := fun A B f m w =>
  match m w with
  | (Normal a, w') => f a w'
  | (Thrown e, w') => (Thrown e, w')
  end.

Definition throw {A} (e : Exn) : JS A := fun w => (Thrown e, w).
Definition lift {A} (c : Completion A) : JS A := fun w => (c, w).
Definition gets {A} (f : World -> A) : JS A := fun w => (Normal (f w), w).
Definition modify (f : World -> World) : JS unit := fun w => (Normal tt, f w).
Definition skip : JS unit := mret tt.

(** [try { m } catch (e) { h e }]. *)
Definition try_catch {A} (m : JS A) (h : Exn -> JS A) : JS A := fun w =>
  match m w with
  | (Thrown e, w') => h e w'
  | r => r
  end.

(** A call to an [async] function whose promise is dropped. *)
Definition detached (m : JS unit) : JS unit := fun w => (Normal tt, snd (m w)).

Definition exec {A} (m : JS A) (w : World) : World := snd (m w).

(** *** Browser objects *)

Definition socket_state (i : nat) (w : World) : option ReadyState :=
  readyState <$> sockets (browser w) !! i.

Definition context_state (c : nat) (w : World) : option ContextState :=
  contexts (browser w) !! c.

Definition set_readyState (v : ReadyState) (s : WebSocket) : WebSocket :=
  {| readyState := v; closeFired := closeFired s;
     seenEnableVideo := seenEnableVideo s;
     seenSessionStatus := seenSessionStatus s;
     videoIntervalId := videoIntervalId s |}.

Definition set_closeFired (v : bool) (s : WebSocket) : WebSocket :=
  {| readyState := readyState s; closeFired := v;
     seenEnableVideo := seenEnableVideo s;
     seenSessionStatus := seenSessionStatus s;
     videoIntervalId := videoIntervalId s |}.

Definition set_videoIntervalId (v : option nat) (s : WebSocket) : WebSocket :=
  {| readyState := readyState s; closeFired := closeFired s;
     seenEnableVideo := seenEnableVideo s;
     seenSessionStatus := seenSessionStatus s;
     videoIntervalId := v |}.

Definition set_nodeState (v : NodeState) (n : SourceNode) : SourceNode :=
  {| buffer := buffer n; nodeState := v |}.

Definition alter_socket (f : WebSocket -> WebSocket) (i : nat) : World -> World :=
  with_browser (fun b => set_sockets (alter f i (sockets b)) b).

Definition alter_node (f : SourceNode -> SourceNode) (n : nat) : World -> World :=
  with_browser (fun b => set_nodes (alter f n (nodes b)) b).

Definition set_context (c : nat) (st : ContextState) : World -> World :=
  with_browser (fun b => set_contexts (<[c := st]> (contexts b)) b).

(** [ws.send(msg)]: throws while connecting, is dropped once closing. *)
Definition ws_send (i : nat) (msg : OutMsg) : JS unit := fun w =>
  match socket_state i w with
  | Some OPEN => (Normal tt, observe (Sent i msg) w)
  | Some CONNECTING => (Thrown InvalidStateError, w)
  | _ => (Normal tt, w)
  end.

(** [ws.close()]. *)
Definition closing (s : WebSocket) : WebSocket :=
  match readyState s with
  | CONNECTING | OPEN => set_readyState CLOSING s
  | _ => s
  end.

Definition ws_close (i : nat) : JS unit := modify (alter_socket closing i).

(** [new WebSocket(url)] followed by the four handler assignments. *)
Definition new_WebSocket (seenVideo : bool) (seenStatus : SessionStatus)
  : JS nat := fun w =>
  (Normal (length (sockets (browser w))),
   with_browser
     (fun b => set_sockets
                 (sockets b ++
                    [{| readyState := CONNECTING; closeFired := false;
                        seenEnableVideo := seenVideo;
                        seenSessionStatus := seenStatus;
                        videoIntervalId := None |}]) b) w).

(** [new AudioContext(...)]. *)
Definition new_AudioContext : JS nat := fun w =>
  (Normal (length (contexts (browser w))),
   with_browser (fun b => set_contexts (contexts b ++ [suspended]) b) w).

(** [context.close()]; the promise it returns carries its own [.catch]. *)
Definition context_close (c : nat) : JS unit := modify (set_context c closed).

(** The stream [getUserMedia] resolved with. *)
Definition new_MediaStream : JS nat := fun w =>
  (Normal (length (streams (browser w))),
   with_browser (fun b => set_streams (streams b ++ [true]) b) w).

(** [stream.getTracks().forEach(track => track.stop())]. *)
Definition tracks_stop (m : nat) : JS unit :=
  modify (with_browser (fun b => set_streams (<[m := false]> (streams b)) b)).

(** [context.createBufferSource()] with its buffer assigned. *)
Definition new_SourceNode (samples : list Q) : JS nat := fun w =>
  (Normal (length (nodes (browser w))),
   with_browser
     (fun b => set_nodes
                 (nodes b ++ [{| buffer := samples; nodeState := Unscheduled |}])
                 b) w).

(** [sourceNode.stop()]: an error on a node that was never started; a
    playing node stops and its [ended] event is still to come. *)
Definition stop_playing (n : SourceNode) : SourceNode :=
  match nodeState n with
  | Playing => set_nodeState Stopped n
  | _ => n
  end.

Definition node_stop (n : nat) : JS unit := fun w =>
  (match nodeState <$> nodes (browser w) !! n with
   | Some Unscheduled => Thrown InvalidStateError
   | _ => Normal tt
   end,
   alter_node stop_playing n w).

(** [sourceNode.start()]. *)
Definition node_start (n : nat) : JS unit := fun w =>
  match nodes (browser w) !! n with
  | Some nd =>
      (Normal tt,
       observe (PlaybackStart n (buffer nd))
               (alter_node (set_nodeState Playing) n w))
  | None => (Normal tt, w)
  end.

(** [setTimeout(f, delay)]. *)
Definition setTimeout (delay : Z) : JS unit :=
  modify (with_browser
            (fun b => set_timeouts (timeouts b ++ [Some (now b + delay)]) b)).

(** Suspension of the running [async] function at an [await]. *)
Definition await (k : Continuation) : JS unit :=
  modify (with_browser
            (fun b => set_continuations (continuations b ++ [Some k]) b)).

(** *** State setters *)

Definition setSessionStatus (s : SessionStatus) : JS unit :=
  modify (fun w => observe (SetStatus s) (with_react (set_sessionStatus s) w)).
Definition setStatusMessage (m : string) : JS unit :=
  modify (with_react (set_statusMessage m)).
Definition setError (v : JSValue) : JS unit :=
  modify (with_react (set_errorState v)).
Definition setSessionSummary (v : JSValue) : JS unit :=
  modify (with_react (set_sessionSummary v)).
Definition setShowConsentModal (v : bool) : JS unit :=
  modify (with_react (set_showConsentModal v)).
Definition setEnableVideo (v : bool) : JS unit :=
  modify (with_react (set_enableVideo v)).

Definition set_ref (f : Refs -> Refs) : JS unit := modify (with_refs f).
Definition ref {A} (f : Refs -> A) : JS A := gets (fun w => f (refs w)).

(** ** The page's functions, in source order *)

(** [cleanup], the resource reaper. *)
Definition cleanup : JS unit :=
  modify (observe CleanupCall);;
  set_ref (set_isSessionActiveRef false);;
  (* stop playback immediately *)
  n ← ref activeSourceNodeRef;
  match n with
  | Some n =>
      try_catch (node_stop n) (fun _ => skip);;
      set_ref (set_activeSourceNodeRef None)
  | None => skip
  end;;
  c ← ref activeAudioContextRef;
  match c with
  | Some c =>
      try_catch (context_close c) (fun _ => skip);;
      set_ref (set_activeAudioContextRef None)
  | None => skip
  end;;
  (* clear audio queue *)
  set_ref (set_audioQueueRef2 []);;
  set_ref (set_isPlayingAudioRef false);;
  (* stop capture context *)
  a ← ref audioContextRef;
  match a with
  | Some a => context_close a;; set_ref (set_audioContextRef None)
  | None => skip
  end;;
  (* stop media streams *)
  m ← ref mediaStreamRef;
  match m with
  | Some m => tracks_stop m;; set_ref (set_mediaStreamRef None)
  | None => skip
  end;;
  (* close WebSocket *)
  s ← ref wsRef;
  match s with
  | Some s => ws_close s;; set_ref (set_wsRef None)
  | None => skip
  end.

Definition requestPermissions : JS unit := setShowConsentModal true.

Definition handleConsentDecline : JS unit := setShowConsentModal false.

(** [startLiveSession] up to [await getUserMedia(constraints)]. The two
    arguments are the [enableVideo] and [sessionStatus] of the render whose
    closure runs. *)
Definition startLiveSession (seenVideo : bool) (seenStatus : SessionStatus)
  : JS unit :=
  u ← gets (fun w => user (browser w));
  match u with
  | None => setError (Some (JStr "Please log in to use this feature."))
  | Some _ =>
      setSessionStatus connecting;;
      setError (Some JNull);;
      setSessionStatus connecting;;
      setError (Some JNull);;
      setStatusMessage "Connecting to Dr. Aegis...";;
      set_ref (set_isSessionActiveRef true);;
      await (AwaitUserMedia seenVideo seenStatus)
  end.

Definition handleConsentAccept : JS unit :=
  setShowConsentModal false;;
  seenVideo ← gets (fun w => enableVideo (react w));
  seenStatus ← gets (fun w => sessionStatus (react w));
  startLiveSession seenVideo seenStatus.

(** How a promise the page awaits is settled. *)
Inductive Settlement :=
| Fulfilled
| RejectedWith (message : string).

(** [startLiveSession] from the point where [getUserMedia] settles. *)
Definition startLiveSession_resume (seenVideo : bool)
  (seenStatus : SessionStatus) (r : Settlement) : JS unit :=
  match r with
  | Fulfilled =>
      stream ← new_MediaStream;
      set_ref (set_mediaStreamRef (Some stream));;
      (* the video preview, if enabled, only touches the DOM *)
      ctx ← new_AudioContext;
      set_ref (set_audioContextRef (Some ctx));;
      ws ← new_WebSocket seenVideo seenStatus;
      set_ref (set_wsRef (Some ws))
  | RejectedWith message =>
      setError (Some (JStr (if Json.truthy_str message then message
                            else "Failed to access microphone")));;
      setSessionStatus error
  end.

(** [ws.onopen]. *)
Definition ws_onopen (i : nat) : JS unit :=
  s ← gets (fun w => sockets (browser w) !! i);
  match s with
  | Some s => ws_send i (OutConfig (seenEnableVideo s))
  | None => skip
  end.

(** [ws.onerror]. *)
Definition ws_onerror : JS unit :=
  setError (Some (JStr "Connection error"));;
  setSessionStatus error.

(** [ws.onclose]; the status it compares is the one its closure saw. *)
Definition ws_onclose (i : nat) : JS unit :=
  s ← gets (fun w => sockets (browser w) !! i);
  match seenSessionStatus <$> s with
  | Some ended => skip
  | _ => setSessionStatus ended
  end.

(** [processor.onaudioprocess]. *)
Definition onaudioprocess (inputData : list Q) : JS unit :=
  s ← ref wsRef;
  match s with
  | Some i =>
      st ← gets (socket_state i);
      match st with
      | Some OPEN => ws_send i (OutAudio (Encoder.frame inputData) 16000)
      | _ => skip
      end
  | None => skip
  end.

Definition startAudioCapture : JS unit :=
  a ← ref audioContextRef;
  m ← ref mediaStreamRef;
  s ← ref wsRef;
  match a, m, s with
  | Some _, Some _, Some _ =>
      modify (with_browser (fun b => set_processors (S (processors b)) b));;
      setSessionStatus listening;;
      setStatusMessage "Listening... Speak to Dr. Aegis"
  | _, _, _ => skip
  end.

(** [dataUrl.split(',')[1]]. *)
Fixpoint until_comma (l : list ascii) : list ascii * option (list ascii) :=
  match l with
  | [] => ([], None)
  | c :: r =>
      if Ascii.eqb c ","%char then ([], Some r)
      else let '(h, t) := until_comma r in (c :: h, t)
  end.

Definition split_comma_1 (dataUrl : string) : option string :=
  match snd (until_comma (list_ascii_of_string dataUrl)) with
  | Some r => Some (string_of_list_ascii (fst (until_comma r)))
  | None => None
  end.

(** [captureFrame], the body of the one-second interval. *)
Definition captureFrame (dataUrl : string) : JS unit :=
  s ← ref wsRef;
  match s with
  | Some i =>
      st ← gets (socket_state i);
      match st with
      | Some OPEN => ws_send i (OutVideo (split_comma_1 dataUrl) "image/jpeg")
      | _ => skip
      end
  | None => skip
  end.

Definition startVideoCapture : JS unit :=
  canvas ← ref canvasRef;
  video ← ref videoRef;
  s ← ref wsRef;
  match s with
  | Some i =>
      if canvas && video then
        id ← gets (fun w => intervals (browser w));
        modify (with_browser (fun b => set_intervals (S (intervals b)) b));;
        modify (alter_socket (set_videoIntervalId (Some id)) i)
      else skip
  | None => skip
  end.

(** [processAudioQueue] from the liveness re-check after its last [await]
    to [sourceNode.start()]. *)
Definition play_unit (int16Data : list Z) : JS unit :=
  active ← ref isSessionActiveRef;
  if negb active then set_ref (set_isPlayingAudioRef false)
  else
    let float32Data := List.map Encoder.to_float32 int16Data in
    (* createBuffer(1, 0, 24000) is refused *)
    match float32Data with
    | [] => throw NotSupportedError
    | _ => skip
    end;;
    sourceNode ← new_SourceNode float32Data;
    set_ref (set_activeSourceNodeRef (Some sourceNode));;
    active ← ref isSessionActiveRef;
    if negb active then skip       (* sourceNode.disconnect(); return *)
    else node_start sourceNode.

(** ... from [if (playbackContext.state === 'suspended')]. *)
Definition ensure_running (playbackContext : nat) (int16Data : list Z)
  : JS unit :=
  st ← gets (context_state playbackContext);
  match st with
  | Some suspended => await (AwaitResume playbackContext int16Data)
  | _ => play_unit int16Data
  end.

(** The [catch] of [processAudioQueue]. *)
Definition playback_failed (e : Exn) : JS unit :=
  set_ref (set_isPlayingAudioRef false).

Definition processAudioQueue : JS unit :=
  active ← ref isSessionActiveRef;
  playing ← ref isPlayingAudioRef;
  queue ← ref audioQueueRef2;
  if negb active || playing || (length queue =? 0)%nat then skip
  else
    set_ref (set_isPlayingAudioRef true);;
    (* combine all queued audio into one buffer *)
    set_ref (set_audioQueueRef2 []);;
    let combined := List.concat queue in
    int16Data ← match TypedArray.Int16_view combined with
                | Some d => mret d
                | None => throw RangeError
                end;
    try_catch
      (playbackContext ← ref activeAudioContextRef;
       st ← gets (fun w => match playbackContext with
                           | Some c => context_state c w
                           | None => None
                           end);
       match playbackContext, st with
       | Some c, Some suspended | Some c, Some running =>
           ensure_running c int16Data
       | _, _ =>
           c ← new_AudioContext;
           set_ref (set_activeAudioContextRef (Some c));;
           (* enumerateDevices / setSinkId, in their own try/catch *)
           await (AwaitRouting c int16Data)
       end)
      playback_failed.

(** [processAudioQueue] resumed after an [await]. *)
Definition processAudioQueue_resume (k : Continuation) (r : Settlement)
  : JS unit :=
  match k with
  | AwaitRouting c int16Data =>
      try_catch (ensure_running c int16Data) playback_failed
  | AwaitResume c int16Data =>
      match r with
      | Fulfilled =>
          try_catch (modify (set_context c running);; play_unit int16Data)
                    playback_failed
      | RejectedWith _ => playback_failed (Rejected "resume")
      end
  | AwaitUserMedia _ _ => skip
  end.

(** [sourceNode.onended] of the node [sourceNode]. *)
Definition onended (sourceNode : nat) : JS unit :=
  r ← ref activeSourceNodeRef;
  (if bool_decide (r = Some sourceNode)
   then set_ref (set_activeSourceNodeRef None) else skip);;
  set_ref (set_isPlayingAudioRef false);;
  active ← ref isSessionActiveRef;
  if (active : bool) then
    queue ← ref audioQueueRef2;
    if (0 <? length queue)%nat then detached processAudioQueue
    else
      s ← ref wsRef;
      match s with
      | Some _ => setSessionStatus listening;; setStatusMessage "Listening..."
      | None => skip
      end
  else skip.

Definition playAudio (base64Audio : JSValue) : JS unit :=
  lift (Json.length_of base64Audio);;
  try_catch
    (bytes ← match base64Audio with
             | Some v =>
                 match Base64.atob (Json.ToString v) with
                 | Some b => mret b
                 | None => throw InvalidCharacterError
                 end
             | None => throw TypeError
             end;
     (* add to queue *)
     q ← ref audioQueueRef2;
     set_ref (set_audioQueueRef2 (q ++ [bytes]));;
     playing ← ref isPlayingAudioRef;
     if negb playing then setTimeout 150 else skip)
    (fun _ => skip).

Definition handleServerMessage (seenVideo : bool) (message : JSON) : JS unit :=
  type ← lift (Json.prop message "type");
  if Json.is_str type "status" then
    status ← lift (Json.prop message "status");
    if Json.is_str status "connected" then
      setSessionStatus connected;;
      setStatusMessage "Connected! Dr. Aegis is listening...";;
      startAudioCapture;;
      if seenVideo then startVideoCapture else skip
    else if Json.is_str status "ended" then
      setSessionStatus ended;;
      cleanup
    else skip
  else if Json.is_str type "audio" then
    setSessionStatus speaking;;
    data ← lift (Json.prop message "data");
    playAudio data
  else if Json.is_str type "text" then
    skip
  else if Json.is_str type "summary" then
    data ← lift (Json.prop message "data");
    setSessionSummary data
  else if Json.is_str type "error" then
    m ← lift (Json.prop message "message");
    setError m;;
    setSessionStatus error
  else skip.

(** [ws.onmessage]: [parsed] is what [JSON.parse(event.data)] returns,
    [None] when it throws. *)
Definition ws_onmessage (i : nat) (parsed : option JSON) : JS unit :=
  match parsed with
  | None => throw SyntaxError
  | Some message =>
      s ← gets (fun w => sockets (browser w) !! i);
      handleServerMessage
        (match s with Some s => seenEnableVideo s | None => false end)
        message
  end.

Definition endSession : JS unit :=
  s ← ref wsRef;
  match s with
  | Some i =>
      st ← gets (socket_state i);
      match st with
      | Some OPEN => ws_send i OutEnd
      | _ => skip
      end
  | None => skip
  end;;
  cleanup;;
  setSessionStatus ended;;
  setStatusMessage "Session ended".

(** The [onClick] of the Start New Session button. *)
Definition startNewSession : JS unit :=
  setSessionSummary (Some JNull);;
  setSessionStatus idle.

(** ** The event loop *)

#[global] Instance SessionStatus_eq_dec : EqDecision SessionStatus.
Proof. solve_decision. Defined.
#[global] Instance ReadyState_eq_dec : EqDecision ReadyState.
Proof. solve_decision. Defined.
#[global] Instance NodeState_eq_dec : EqDecision NodeState.
Proof. solve_decision. Defined.
#[global] Instance ContextState_eq_dec : EqDecision ContextState.
Proof. solve_decision. Defined.

(** The callbacks the browser may run: user actions on the rendered page,
    settlements of awaited promises, socket events, timers, audio callbacks. *)
Inductive Event :=
| RequestPermissions
| SetEnableVideo (b : bool)
| ConsentAccept
| ConsentDecline
| EndSession
| StartNewSession
| Unmount
| PromiseSettled (k : nat) (r : Settlement)
| WsOpen (i : nat)
| WsMessage (i : nat) (parsed : option JSON)
| WsError (i : nat)
| WsClose (i : nat)
| TimerFire (k : nat)
| VideoTick (dataUrl : string)
| AudioProcess (inputData : list Q)
| NodeEnded (n : nat)
| ContextStateChange (c : nat) (st : ContextState).

Definition status_is (s : SessionStatus) (w : World) : bool :=
  bool_decide (sessionStatus (react w) = s).

Definition clear_continuation (k : nat) : World -> World :=
  with_browser (fun b => set_continuations (<[k := None]> (continuations b)) b).

Definition clear_timeout (k : nat) : World -> World :=
  with_browser (fun b => set_timeouts (<[k := None]> (timeouts b)) b).

(** One callback, run to completion. [None]: the browser cannot deliver
    this event in this world (the button is not rendered, the socket is not
    open, the timer is not due, ...). An exception that escapes a callback
    is reported by the browser and the world stays as the callback left it. *)
Definition step (e : Event) (w : World) : option World :=
  let ui := mounted (browser w) in
  match e with
  | RequestPermissions =>
      if ui && status_is idle w then Some (exec requestPermissions w) else None
  | SetEnableVideo b =>
      if ui && status_is idle w then Some (exec (setEnableVideo b) w) else None
  | ConsentAccept =>
      if ui && showConsentModal (react w)
      then Some (exec handleConsentAccept w) else None
  | ConsentDecline =>
      if ui && showConsentModal (react w)
      then Some (exec handleConsentDecline w) else None
  | EndSession =>
      if ui && negb (status_is idle w) && negb (status_is ended w)
      then Some (exec endSession w) else None
  | StartNewSession =>
      if ui && status_is ended w then Some (exec startNewSession w) else None
  | Unmount =>
      if ui
      then Some (exec (cleanup;; modify (with_browser (set_mounted false))) w)
      else None
  | PromiseSettled k r =>
      match continuations (browser w) !! k with
      | Some (Some (AwaitUserMedia v s)) =>
          Some (exec (startLiveSession_resume v s r) (clear_continuation k w))
      | Some (Some (AwaitRouting c d)) =>
          Some (exec (processAudioQueue_resume (AwaitRouting c d) r)
                     (clear_continuation k w))
      | Some (Some (AwaitResume c d)) =>
          match r, context_state c w with
          | Fulfilled, Some closed => None     (* resume() rejects *)
          | _, _ =>
              Some (exec (processAudioQueue_resume (AwaitResume c d) r)
                         (clear_continuation k w))
          end
      | _ => None
      end
  | WsOpen i =>
      match socket_state i w with
      | Some CONNECTING =>
          Some (exec (ws_onopen i) (alter_socket (set_readyState OPEN) i w))
      | _ => None
      end
  | WsMessage i parsed =>
      match socket_state i w with
      | Some OPEN => Some (exec (ws_onmessage i parsed) w)
      | _ => None
      end
  | WsError i =>
      match socket_state i w with
      | Some CLOSED | None => None
      | Some _ =>
          Some (exec ws_onerror (alter_socket (set_readyState CLOSED) i w))
      end
  | WsClose i =>
      match sockets (browser w) !! i with
      | Some s =>
          if closeFired s then None
          else Some (exec (ws_onclose i)
                          (alter_socket
                             (fun s => set_closeFired true
                                         (set_readyState CLOSED s)) i w))
      | None => None
      end
  | TimerFire k =>
      match timeouts (browser w) !! k with
      | Some (Some due) =>
          if due <=? now (browser w)
          then Some (exec processAudioQueue (clear_timeout k w))
          else None
      | _ => None
      end
  | VideoTick dataUrl =>
      if (0 <? intervals (browser w))%nat
      then Some (exec (captureFrame dataUrl) w) else None
  | AudioProcess inputData =>
      if (0 <? processors (browser w))%nat
      then Some (exec (onaudioprocess inputData) w) else None
  | NodeEnded n =>
      match nodeState <$> nodes (browser w) !! n with
      | Some Playing | Some Stopped =>
          Some (exec (onended n)
                     (observe (PlaybackEnded n)
                              (alter_node (set_nodeState Finished) n w)))
      | _ => None
      end
  | ContextStateChange c st =>
      match context_state c w, st with
      | Some closed, _ | None, _ | _, closed => None
      | Some _, _ => Some (set_context c st w)
      end
  end.

(** The commit that follows a callback: the DOM refs follow what is
    rendered (the canvas always, the video preview inside the active-session
    view of a video session). The effect that polls the REST endpoint for
    the summary once the phase is [ended] is outside the model: it writes
    the status text and the summary, which no callback of the session
    reads. *)
Definition render (w : World) : World :=
  let m := mounted (browser w) in
  with_refs
    (set_domRefs
       (m && enableVideo (react w)
          && negb (status_is idle w) && negb (status_is ended w))
       m) w.

(** An event delivered at a given time; time never runs backwards. *)
Definition fire (te : Z * Event) (w : World) : option World :=
  if fst te <? now (browser w) then None
  else render <$> step (snd te) (with_browser (set_now (fst te)) w).

Fixpoint run (tr : list (Z * Event)) (w : World) : option World :=
  match tr with
  | [] => Some w
  | te :: r =>
      match fire te w with
      | Some w' => run r w'
      | None => None
      end
  end.

(** The page as first rendered for the signed-in user [u]. *)
Definition initial_world (u : option string) : World :=
  {| react := {| sessionStatus := idle; statusMessage := "";
                 errorState := Some JNull; sessionSummary := Some JNull;
                 enableVideo := false; showConsentModal := false |};
     refs := {| wsRef := None; audioContextRef := None;
                mediaStreamRef := None; audioQueueRef2 := [];
                isPlayingAudioRef := false; activeAudioContextRef := None;
                activeSourceNodeRef := None; isSessionActiveRef := false;
                videoRef := false; canvasRef := true |};
     browser := {| sockets := []; contexts := []; streams := []; nodes := [];
                   timeouts := []; intervals := 0; processors := 0;
                   continuations := []; now := 0; mounted := true;
                   user := u |};
     log := [] |}.

(** ** Observations *)

Definition statuses (l : list Obs) : list SessionStatus :=
  omap (fun o => match o with SetStatus s => Some s | _ => None end) l.

Definition starts (l : list Obs) : list (nat * list Q) :=
  omap (fun o => match o with PlaybackStart n s => Some (n, s) | _ => None end) l.

Definition cleanup_calls (l : list Obs) : nat :=
  length (List.filter (fun o => match o with CleanupCall => true | _ => false end) l).

(** What a callback added to the log. *)
Definition emitted (m : JS unit) (w : World) : list Obs :=
  drop (length (log w)) (log (exec m w)).

(** ** Peer messages, as [JSON.parse] returns them *)

Definition status_message (status : string) : JSON :=
  JObj [("type", JStr "status"); ("status", JStr status)]%string.
Definition audio_message (data : string) : JSON :=
  JObj [("type", JStr "audio"); ("data", JStr data)]%string.
Definition text_message (content : string) : JSON :=
  JObj [("type", JStr "text"); ("content", JStr content)]%string.
Definition summary_message (data : JSON) : JSON :=
  JObj [("type", JStr "summary"); ("data", data)]%string.
Definition error_message (message : string) : JSON :=
  JObj [("type", JStr "error"); ("message", JStr message)]%string.

(** ** Round trip of one sample through the wire format *)

Definition lsb : Q := 1 # 32768.

(** Encode as [onaudioprocess] does, decode as [processAudioQueue] does,
    and measure the distance to the original sample. *)
Definition round_trip_error (s : Q) : Q :=
  Qabs (Encoder.to_float32 (Encoder.convert s) - s).

(** ** A session in the [listening] phase

    The world after the user consented, the devices were granted, the
    socket opened and the peer announced [status: connected]. *)
Definition live_trace : list (Z * Event) :=
  [(0, RequestPermissions); (1, ConsentAccept);
   (2, PromiseSettled 0 Fulfilled); (3, WsOpen 0);
   (4, WsMessage 0 (Some (status_message "connected")))].

Definition live_world : World :=
  default (initial_world (Some "patient-1"%string))
          (run live_trace (initial_world (Some "patient-1"%string))).

(** ** Released resources *)

(** Every device, playback, queue and transport reference is absent. *)
Definition released (w : World) : Prop :=
  activeSourceNodeRef (refs w) = None
  /\ activeAudioContextRef (refs w) = None
  /\ audioQueueRef2 (refs w) = []
  /\ isPlayingAudioRef (refs w) = false
  /\ audioContextRef (refs w) = None
  /\ mediaStreamRef (refs w) = None
  /\ wsRef (refs w) = None
  /\ isSessionActiveRef (refs w) = false.

(** ** Reasoning about callbacks

    [wp m w Q]: running [m] in the world [w] ends in a completion and a
    world that satisfy [Q]. *)
Definition wp {A} (m : JS A) (w : World)
  (Q : Completion A -> World -> Prop) : Prop :=
  Q (m w).1 (m w).2.

(** ** The world [cleanup] leaves behind, in closed form *)

Definition on_ref {A} (r : option nat) (f : nat -> A -> A) (x : A) : A :=
  match r with
  | Some i => f i x
  | None => x
  end.

Definition reaped (w : World) : World :=
  {| react := react w;
     refs := {| wsRef := None; audioContextRef := None;
                mediaStreamRef := None; audioQueueRef2 := [];
                isPlayingAudioRef := false; activeAudioContextRef := None;
                activeSourceNodeRef := None; isSessionActiveRef := false;
                videoRef := videoRef (refs w);
                canvasRef := canvasRef (refs w) |};
     browser :=
       {| sockets := on_ref (wsRef (refs w)) (alter closing)
                            (sockets (browser w));
          contexts :=
            on_ref (audioContextRef (refs w)) (fun c => <[c := closed]>)
              (on_ref (activeAudioContextRef (refs w))
                      (fun c => <[c := closed]>) (contexts (browser w)));
          streams := on_ref (mediaStreamRef (refs w))
                            (fun m => <[m := false]>) (streams (browser w));
          nodes := on_ref (activeSourceNodeRef (refs w)) (alter stop_playing)
                          (nodes (browser w));
          timeouts := timeouts (browser w);
          intervals := intervals (browser w);
          processors := processors (browser w);
          continuations := continuations (browser w);
          now := now (browser w);
          mounted := mounted (browser w);
          user := user (browser w) |};
     log := log w ++ [CleanupCall] |}.

(** ** Inbound messages that are not protocol messages *)

(** A member of a parsed message, when it is an object and has it. *)
Definition field (m : JSON) (key : string) : JSValue :=
  match m with
  | JObj ms => Json.member key ms
  | _ => None
  end.

Definition message_type (m : JSON) : JSValue := field m "type".

Definition known_kind (m : JSON) : bool :=
  Json.is_str (message_type m) "status"
  || Json.is_str (message_type m) "audio"
  || Json.is_str (message_type m) "text"
  || Json.is_str (message_type m) "summary"
  || Json.is_str (message_type m) "error".

(** The shapes of section 6 of the specification. *)
Definition is_string (v : JSValue) : bool :=
  match v with Some (JStr _) => true | _ => false end.

Definition protocol_message (m : JSON) : bool :=
  (Json.is_str (message_type m) "status"
   && (Json.is_str (field m "status") "connected"
       || Json.is_str (field m "status") "ended"))
  || (Json.is_str (message_type m) "audio" && is_string (field m "data"))
  || (Json.is_str (message_type m) "text" && is_string (field m "content"))
  || (Json.is_str (message_type m) "summary"
      && match field m "data" with Some (JObj _) => true | _ => false end)
  || (Json.is_str (message_type m) "error" && is_string (field m "message")).

(** Malformed: [JSON.parse] fails, or what it returns is no protocol
    message (in particular when its kind is not recognized). *)
Definition malformed (parsed : option JSON) : Prop :=
  match parsed with
  | None => True
  | Some m => protocol_message m = false
  end.

(** ** The session once the reaper has run *)



(** No event of the trace starts a session. *)
Definition no_session_start (tr : list (Z * Event)) : Prop :=
  Forall (fun te => snd te <> ConsentAccept) tr.

(** A session in the [speaking] phase with one playback unit in flight:
    [live_world] after one inbound audio chunk, its timer and the two
    awaits of the first playback. *)
Definition playing_trace : list (Z * Event) :=
  live_trace
  ++ [(6, WsMessage 0 (Some (audio_message "AQID/w==")));
      (200, TimerFire 0);
      (201, PromiseSettled 1 Fulfilled);
      (202, PromiseSettled 2 Fulfilled)].

Definition playing_world : World :=
  default (initial_world (Some "patient-1"%string))
          (run playing_trace (initial_world (Some "patient-1"%string))).

(** ** The order of the phases *)

(** The phase changes the state machine of the specification allows:
    [speaking] only from [listening], [connected] only from [connecting],
    nothing out of [ended] or [error]. *)
Definition change_allowed (a b : SessionStatus) : bool :=
  match a, b with
  | ended, _ | error, _ => false
  | a, speaking => bool_decide (a = listening)
  | a, connected => bool_decide (a = connecting)
  | _, _ => true
  end.

(** Every change of phase along a history is allowed; setting the phase to
    the value it already has is no change. *)
Fixpoint phases_ordered (prev : SessionStatus) (l : list SessionStatus)
  : bool :=
  match l with
  | [] => true
  | s :: r =>
      (bool_decide (prev = s) || change_allowed prev s) && phases_ordered s r
  end.

(** The phase [s] is set while the event leading from [w] to [w'] runs. *)
Definition entered (s : SessionStatus) (w w' : World) : Prop :=
  In s (statuses (drop (length (log w)) (log w'))).

Definition shut (s : WebSocket) : Prop :=
  readyState s = CLOSED /\ closeFired s = true.

Definition no_acquisition (k : option Continuation) : Prop :=
  match k with
  | Some (AwaitUserMedia _ _) => False
  | _ => True
  end.

(** The session has ended and nothing of it is still alive: the reaper has
    marked it inactive, every socket is closed and has delivered its close
    event, no device acquisition is pending. *)
Definition quiescent (w : World) : Prop :=
  sessionStatus (react w) = ended
  /\ isSessionActiveRef (refs w) = false
  /\ Forall shut (sockets (browser w))
  /\ Forall no_acquisition (continuations (browser w)).

(** A peer that sends audio before [status: connected], a transport that
    fails, and a user who starts over. *)
Definition unruly_trace : list (Z * Event) :=
  [(0, RequestPermissions); (1, ConsentAccept);
   (2, PromiseSettled 0 Fulfilled); (3, WsOpen 0);
   (4, WsMessage 0 (Some (audio_message "AQID/w==")));
   (5, WsMessage 0 (Some (status_message "connected")));
   (6, WsError 0); (7, WsClose 0); (8, StartNewSession)].

(** A session ended by the user, its socket closed. *)
Definition ended_trace : list (Z * Event) :=
  live_trace ++ [(5, EndSession); (6, WsClose 0)].

Definition ended_world : World :=
  default (initial_world (Some "patient-1"%string))
          (run ended_trace (initial_world (Some "patient-1"%string))).

(** ** Playback units in flight *)

(** A unit is in flight from its start to its completion callback. The
    monitor reads the log and keeps the units in flight; it fails when a
    unit starts while another one is in flight. *)
Definition monitor (st : option (list nat)) (o : Obs) : option (list nat) :=
  match st with
  | None => None
  | Some flying =>
      match o with
      | PlaybackStart n _ =>
          match flying with
          | [] => Some [n]
          | _ => None
          end
      | PlaybackEnded n =>
          Some (List.filter (fun m => negb (Nat.eqb m n)) flying)
      | _ => Some flying
      end
  end.

Definition in_flight (l : list Obs) : option (list nat) :=
  fold_left monitor l (Some []).

(** No unit starts before the completion callback of every earlier unit
    has fired. *)
Definition no_overlap (l : list Obs) : Prop := is_Some (in_flight l).

(** One session: the user never starts over. *)
Definition single_session (tr : list (Z * Event)) : Prop :=
  Forall (fun te => snd te <> StartNewSession) tr.

(** A node whose [ended] event is still to come. *)
Definition airborne_state (st : NodeState) : bool :=
  match st with
  | Playing | Stopped => true
  | _ => false
  end.

Definition airborne (nd : SourceNode) : bool := airborne_state (nodeState nd).

Definition only_airborne (nds : list SourceNode) (flying : list nat) : Prop :=
  forall m nd, nds !! m = Some nd -> airborne nd = true -> flying = [m].

Definition is_paq (k : option Continuation) : bool :=
  match k with
  | Some (AwaitRouting _ _) | Some (AwaitResume _ _) => true
  | _ => false
  end.

(** The suspended runs of [processAudioQueue]. *)
Definition pending_playback (ks : list (option Continuation)) : nat :=
  length (List.filter is_paq ks).

(** The in-flight flag, the nodes and the suspended runs agree with the
    units in flight. *)
Definition coherent (w : World) : Prop :=
  exists flying,
    in_flight (log w) = Some flying
    /\ only_airborne (nodes (browser w)) flying
    /\ (isSessionActiveRef (refs w) = true ->
        (flying <> [] -> isPlayingAudioRef (refs w) = true)
        /\ (pending_playback (continuations (browser w)) <= 1)%nat
        /\ (pending_playback (continuations (browser w)) = 1%nat ->
            isPlayingAudioRef (refs w) = true /\ flying = [])).

(** Before the session: nothing was ever acquired or scheduled. *)
Definition not_started (w : World) : Prop :=
  sessionStatus (react w) = idle
  /\ isSessionActiveRef (refs w) = false
  /\ sockets (browser w) = []
  /\ contexts (browser w) = []
  /\ nodes (browser w) = []
  /\ timeouts (browser w) = []
  /\ continuations (browser w) = []
  /\ intervals (browser w) = 0%nat
  /\ processors (browser w) = 0%nat
  /\ in_flight (log w) = Some [].

(** During and after the session: the start button is not rendered and
    the consent dialog is closed. *)
Definition started (w : World) : Prop :=
  sessionStatus (react w) <> idle /\ showConsentModal (react w) = false.

Definition one_session (w : World) : Prop := not_started w \/ started w.

(** Playback has settled: every unit that started has had its completion
    callback, and no run of the queue processor is suspended. *)
Definition settled (w : World) : Prop :=
  in_flight (log w) = Some []
  /\ pending_playback (continuations (browser w)) = 0%nat.

(** The sessions of a trace follow one another in an orderly way: the user
    consents to a session only once the playback of the previous one has
    settled. *)
Fixpoint orderly (tr : list (Z * Event)) (w : World) : Prop :=
  match tr with
  | [] => True
  | te :: r =>
      match fire te w with
      | Some w' => (snd te = ConsentAccept -> settled w) /\ orderly r w'
      | None => True
      end
  end.

(** A second unit that starts from the completion callback of the first;
    then the user ends the session, starts over, and the second session
    plays a third unit. *)
Definition two_units_trace : list (Z * Event) :=
  playing_trace
  ++ [(250, WsMessage 0 (Some (audio_message "BAUGBw==")));
      (300, NodeEnded 0); (400, NodeEnded 1)].

Definition two_sessions_trace : list (Z * Event) :=
  two_units_trace
  ++ [(410, EndSession); (420, WsClose 0); (430, StartNewSession);
      (440, RequestPermissions); (450, ConsentAccept);
      (460, PromiseSettled 3 Fulfilled); (470, WsOpen 1);
      (480, WsMessage 1 (Some (status_message "connected")));
      (490, WsMessage 1 (Some (audio_message "CAkKCw==")));
      (640, TimerFire 1);
      (650, PromiseSettled 4 Fulfilled);
      (660, PromiseSettled 5 Fulfilled)].

(** ** A burst of inbound audio *)

(** The callbacks that may run between and after the chunks of a burst
    without ending the session or failing the playback: timers, fulfilled
    promises, completion callbacks, capture ticks, video ticks, context
    state changes. *)
Definition benign (e : Event) : bool :=
  match e with
  | TimerFire _ | NodeEnded _ | AudioProcess _ | VideoTick _
  | ContextStateChange _ _ | PromiseSettled _ Fulfilled => true
  | _ => false
  end.

Definition due_after (T : Z) (o : option Z) : Prop :=
  match o with
  | Some z => T <= z
  | None => True
  end.

Definition has_timer (w : World) : Prop :=
  exists k z, timeouts (browser w) !! k = Some (Some z).

Definition carries (pcm : list Z) (k : option Continuation) : Prop :=
  match k with
  | Some (AwaitRouting _ d) | Some (AwaitResume _ d) => d = pcm
  | _ => True
  end.

(** A live session with nothing queued, scheduled, suspended or playing. *)
Definition calm (w : World) : Prop :=
  isSessionActiveRef (refs w) = true
  /\ isPlayingAudioRef (refs w) = false
  /\ audioQueueRef2 (refs w) = []
  /\ Forall (fun o => o = None) (timeouts (browser w))
  /\ pending_playback (continuations (browser w)) = 0%nat
  /\ only_airborne (nodes (browser w)) [].

(** The queue holds [q]; no debounce timer is due before [T]. *)
Definition collecting (S0 : list (nat * list Q)) (T : Z) (q : list (list Z))
  (w : World) : Prop :=
  isSessionActiveRef (refs w) = true
  /\ isPlayingAudioRef (refs w) = false
  /\ audioQueueRef2 (refs w) = q
  /\ Forall (due_after T) (timeouts (browser w))
  /\ (q <> [] -> has_timer w)
  /\ pending_playback (continuations (browser w)) = 0%nat
  /\ only_airborne (nodes (browser w)) []
  /\ starts (log w) = S0.

(** The queue was taken; the queue processor is suspended at an await. *)
Definition waiting (S0 : list (nat * list Q)) (pcm : list Z) (w : World)
  : Prop :=
  isSessionActiveRef (refs w) = true
  /\ isPlayingAudioRef (refs w) = true
  /\ audioQueueRef2 (refs w) = []
  /\ pending_playback (continuations (browser w)) = 1%nat
  /\ Forall (carries pcm) (continuations (browser w))
  /\ only_airborne (nodes (browser w)) []
  /\ starts (log w) = S0.

(** The unit is playing. *)
Definition sounding (S0 : list (nat * list Q)) (samples : list Q) (w : World)
  : Prop :=
  isSessionActiveRef (refs w) = true
  /\ isPlayingAudioRef (refs w) = true
  /\ audioQueueRef2 (refs w) = []
  /\ pending_playback (continuations (browser w)) = 0%nat
  /\ exists n, only_airborne (nodes (browser w)) [n]
               /\ starts (log w) = S0 ++ [(n, samples)].

(** The unit has completed. *)
Definition finished (S0 : list (nat * list Q)) (samples : list Q) (w : World)
  : Prop :=
  isSessionActiveRef (refs w) = true
  /\ isPlayingAudioRef (refs w) = false
  /\ audioQueueRef2 (refs w) = []
  /\ pending_playback (continuations (browser w)) = 0%nat
  /\ only_airborne (nodes (browser w)) []
  /\ exists n, starts (log w) = S0 ++ [(n, samples)].

(** Every timer has fired and no run of the queue processor is suspended. *)
Definition drained (w : World) : Prop :=
  Forall (fun o => o = None) (timeouts (browser w))
  /\ pending_playback (continuations (browser w)) = 0%nat.

(** Three audio messages on socket [i], with other callbacks in between
    and after. *)
Definition burst (i : nat) (t1 t2 t3 : Z) (d1 d2 d3 : string)
  (A B C : list (Z * Event)) : list (Z * Event) :=
  (t1, WsMessage i (Some (audio_message d1))) :: A
  ++ (t2, WsMessage i (Some (audio_message d2))) :: B
  ++ (t3, WsMessage i (Some (audio_message d3))) :: C.

(** The burst of three chunks 40 ms apart, on the listening session. *)
Definition burst_example : list (Z * Event) :=
  burst 0 10 50 90 "AQID/w==" "BAUGBw==" "CAkKCw=="
        [(20, AudioProcess [1 # 2]%Q)] []
        [(160, TimerFire 0); (161, PromiseSettled 1 Fulfilled);
         (200, TimerFire 1); (240, TimerFire 2);
         (250, PromiseSettled 2 Fulfilled); (900, NodeEnded 0)].
(** A burst whose payloads decode to nine bytes in all, and a burst of
    three empty payloads; every timer fires afterwards. *)
Definition odd_burst : list (Z * Event) :=
  burst 0 10 50 90 "AQID" "BAUG" "BwgJ" [] []
        [(160, TimerFire 0); (200, TimerFire 1); (240, TimerFire 2)].

Definition empty_burst : list (Z * Event) :=
  burst 0 10 50 90 "" "" "" [] []
        [(160, TimerFire 0); (161, PromiseSettled 1 Fulfilled);
         (162, PromiseSettled 2 Fulfilled);
         (200, TimerFire 1); (240, TimerFire 2)].

(** The user ends the session while a unit plays and starts over at once;
    the second session receives audio and starts a unit; only then does the
    browser deliver the [ended] event of the node the reaper stopped. *)
Definition stale_trace : list (Z * Event) :=
  playing_trace
  ++ [(210, EndSession); (220, WsClose 0); (230, StartNewSession);
      (240, RequestPermissions); (250, ConsentAccept);
      (260, PromiseSettled 3 Fulfilled); (270, WsOpen 1);
      (280, WsMessage 1 (Some (status_message "connected")));
      (290, WsMessage 1 (Some (audio_message "BAUGBw==")));
      (440, TimerFire 1);
      (441, PromiseSettled 4 Fulfilled);
      (442, PromiseSettled 5 Fulfilled);
      (450, NodeEnded 0)].

(** One more chunk arrives while the unit of the second session plays. *)
Definition overlap_trace : list (Z * Event) :=
  [(460, WsMessage 1 (Some (audio_message "CAkKCw==")));
   (610, TimerFire 2)].


(** A window of four Float32 values whose root mean square is below 0.02
    by less than one part in 10^20: the Float32 nearest to 0.04 and two
    small samples that bring the energy up to the threshold. *)
Definition threshold_window : list Q :=
  [5368709 # 134217728; 2324719 # 274877906944;
   8448035 # 2251799813685248; 0]%Q.

(** The user ends the session and starts over; the close event of the
    old socket arrives while the consent dialog of the next session is
    open, and sets the phase to [ended]. *)
Definition dialog_open_trace : list (Z * Event) :=
  live_trace
  ++ [(5, EndSession); (6, StartNewSession); (7, RequestPermissions);
      (8, WsClose 0)].

Definition dialog_open_world : World :=
  default (initial_world (Some "patient-1"%string))
          (run dialog_open_trace (initial_world (Some "patient-1"%string))).

(** ** The noise gate on numbers *)

(** The energy is NaN or positive infinity. *)
Definition blown (x : spec_float) : Prop :=
  x = S754_nan \/ x = S754_infinity false.

Definition finite_sample (x : Encoder.Float32) : bool :=
  match x with
  | Encoder.Finite _ => true
  | _ => false
  end.

(** A finite Float32 value below 2^24 in absolute value, as a fraction
    whose denominator is a power of two. *)
Definition is_float32 (x : Q) : bool :=
  (Z.abs (Qnum x) <? 2 ^ 24)
  && (Z.pos (Qden x) =? 2 ^ Z.log2 (Z.pos (Qden x)))
  && (Z.log2 (Z.pos (Qden x)) <=? 149).

(** The rational a finite number denotes. *)
Definition value_of (x : spec_float) : option Q :=
  match x with
  | S754_zero _ => Some 0%Q
  | S754_finite s m e => Some (inject_Z (cond_Zopp s (Z.pos m)) * 2 ^ e)%Q
  | _ => None
  end.

(** The number read from the sample is the sample itself. *)
Definition read_exactly (x : Q) : bool :=
  match value_of (Encoder.of_Q x) with
  | Some v => Qeq_bool v x
  | None => false
  end.

(** ** Bytes and samples on the wire *)

Definition is_byte (b : Z) : Prop := 0 <= b < 256.

Definition is_int16 (v : Z) : Prop := -32768 <= v <= 32767.

(** The base64 digits of a byte sequence, without the padding. *)
Fixpoint sextets (bytes : list Z) : list Z :=
  match bytes with
  | [] => []
  | [a] => [Z.shiftr a 2; Z.shiftl (Z.land a 3) 4]
  | [a; b] =>
      [Z.shiftr a 2;
       Z.lor (Z.shiftl (Z.land a 3) 4) (Z.shiftr b 4);
       Z.shiftl (Z.land b 15) 2]
  | a :: b :: c :: rest =>
      Z.shiftr a 2
      :: Z.lor (Z.shiftl (Z.land a 3) 4) (Z.shiftr b 4)
      :: Z.lor (Z.shiftl (Z.land b 15) 2) (Z.shiftr c 6)
      :: Z.land c 63
      :: sextets rest
  end.

(** The number of [=] signs that end the encoding of [n] bytes. *)
Definition padding (n : nat) : nat :=
  match (n mod 3)%nat with
  | 1%nat => 2%nat
  | 2%nat => 1%nat
  | _ => 0%nat
  end.

(** ** The WAV container ([createWavFromPcm]) *)

Module Wav.
(** Bytes written into a buffer from an offset on, in index order. *)
Fixpoint copy_from (offset : nat) (source : list Z) (buffer : list Z)
  : list Z :=
  match source with
  | [] => buffer
  | x :: r => copy_from (S offset) r (<[offset := x]> buffer)
  end.

(** The little-endian bytes of a number as unsigned 16 and 32 bit. *)
Definition le16 (value : Z) : list Z :=
  let u := value mod 65536 in
  [u mod 256; u / 256].

Definition le32 (value : Z) : list Z :=
  let u := value mod 4294967296 in
  [u mod 256; (u / 256) mod 256; (u / 65536) mod 256; u / 16777216].

(** A [DataView] over an [ArrayBuffer], the buffer as its list of bytes.
    [None] stands for the [RangeError] of a write past the end. *)
Definition setUint8 (byteOffset : nat) (value : Z) (view : list Z)
  : option (list Z) :=
  if (byteOffset + 1 <=? length view)%nat
  then Some (<[byteOffset := value mod 256]> view)
  else None.

(** [view.setUint16(byteOffset, value, true)]. *)
Definition setUint16 (byteOffset : nat) (value : Z) (view : list Z)
  : option (list Z) :=
  if (byteOffset + 2 <=? length view)%nat
  then Some (copy_from byteOffset (le16 value) view)
  else None.

(** [view.setUint32(byteOffset, value, true)]. *)
Definition setUint32 (byteOffset : nat) (value : Z) (view : list Z)
  : option (list Z) :=
  if (byteOffset + 4 <=? length view)%nat
  then Some (copy_from byteOffset (le32 value) view)
  else None.

(** [view.getUint16(byteOffset, true)] and [view.getUint32(byteOffset, true)],
    [None] past the end. *)
Definition getUint16 (byteOffset : nat) (view : list Z) : option Z :=
  match view !! byteOffset, view !! S byteOffset with
  | Some b0, Some b1 => Some (b0 + 256 * b1)
  | _, _ => None
  end.

Definition getUint32 (byteOffset : nat) (view : list Z) : option Z :=
  match view !! byteOffset, view !! S byteOffset,
        view !! S (S byteOffset), view !! S (S (S byteOffset)) with
  | Some b0, Some b1, Some b2, Some b3 =>
      Some (b0 + 256 * b1 + 65536 * b2 + 16777216 * b3)
  | _, _, _, _ => None
  end.

(** [str.charCodeAt(i)] of an ASCII string. *)
Definition charCode (c : ascii) : Z := Z.of_nat (nat_of_ascii c).

(** The helper [writeString]: one [setUint8] per character. *)
Fixpoint writeString_from (offset : nat) (str : list ascii) (view : list Z)
  : option (list Z) :=
  match str with
  | [] => Some view
  | c :: r => setUint8 offset (charCode c) view ≫= writeString_from (S offset) r
  end.

Definition writeString (offset : nat) (str : string) (view : list Z)
  : option (list Z) :=
  writeString_from offset (list_ascii_of_string str) view.

(** [new Uint8Array(buffer, byteOffset).set(source)]: a [RangeError] when
    the source does not fit. *)
Definition set_from (byteOffset : nat) (source : list Z) (buffer : list Z)
  : option (list Z) :=
  if (byteOffset + length source <=? length buffer)%nat
  then Some (copy_from byteOffset source buffer)
  else None.

(** The bytes of the [Blob] that [createWavFromPcm] returns. *)
Definition createWavFromPcm (pcmData : list Z) (sampleRate : Z)
  : option (list Z) :=
  let numChannels := 1 in
  let bitsPerSample := 16 in
  let byteRate := sampleRate * numChannels * (bitsPerSample / 8) in
  let blockAlign := numChannels * (bitsPerSample / 8) in
  let dataSize := Z.of_nat (length pcmData) * (bitsPerSample / 8) in
  let headerSize := 44 in
  let totalSize := headerSize + dataSize in
  let buffer := repeat 0 (Z.to_nat totalSize) in
  (* WAV header *)
  view ← writeString 0 "RIFF" buffer;
  view ← setUint32 4 (totalSize - 8) view;
  view ← writeString 8 "WAVE" view;
  view ← writeString 12 "fmt " view;
  view ← setUint32 16 16 view;               (* fmt chunk size *)
  view ← setUint16 20 1 view;                (* audio format (PCM) *)
  view ← setUint16 22 numChannels view;
  view ← setUint32 24 sampleRate view;
  view ← setUint32 28 byteRate view;
  view ← setUint16 32 blockAlign view;
  view ← setUint16 34 bitsPerSample view;
  view ← writeString 36 "data" view;
  view ← setUint32 40 dataSize view;
  (* copy PCM data *)
  set_from 44 (TypedArray.Uint8_view pcmData) view.

Definition codes (s : string) : list Z :=
  List.map charCode (list_ascii_of_string s).
End Wav.

(** ** Strings *)

Module Str.
(** What follows [pattern] when [s] starts with it. *)
Fixpoint after_prefix (pattern s : string) : option string :=
  match pattern, s with
  | EmptyString, _ => Some s
  | String p pattern', String c s' =>
      if Ascii.eqb p c then after_prefix pattern' s' else None
  | String _ _, EmptyString => None
  end.

(** [s.includes(pattern)]. *)
Fixpoint includes (pattern s : string) : bool :=
  match after_prefix pattern s with
  | Some _ => true
  | None =>
      match s with
      | EmptyString => false
      | String _ s' => includes pattern s'
      end
  end.

(** [s.replace(pattern, replacement)] with a string pattern and a
    replacement without [$]: the first occurrence is replaced. *)
Fixpoint replace (pattern replacement s : string) : string :=
  match after_prefix pattern s with
  | Some rest => (replacement ++ rest)%string
  | None =>
      match s with
      | EmptyString => EmptyString
      | String c s' => String c (replace pattern replacement s')
      end
  end.
End Str.

(** [process.env.NEXT_PUBLIC_WS_URL || "ws://localhost:8000"]. *)
Definition WS_URL (env : option string) : string :=
  match env with
  | Some s => if Json.truthy_str s then s else "ws://localhost:8000"
  | None => "ws://localhost:8000"
  end.

(** The address [fetchSummary] requests. *)
Definition summary_endpoint (ws_url user_id : string) : string :=
  (Str.replace "wss://" "https://" (Str.replace "ws://" "http://" ws_url)
   ++ "/api/patients/" ++ user_id ++ "/sessions/latest")%string.

(** ** The views *)

(** The view the page renders below the header: the start view, the
    summary view, or the active-session view. *)
Inductive View := StartView | SummaryView | ActiveView.

Definition view_of (sessionStatus : SessionStatus) : View :=
  match sessionStatus with
  | idle => StartView
  | ended => SummaryView
  | _ => ActiveView
  end.

(** ** Outbound media *)

Definition is_media (o : Obs) : bool :=
  match o with
  | Sent _ (OutAudio _ _) | Sent _ (OutVideo _ _) => true
  | _ => false
  end.

(** The audio and video frames of a log. *)
Definition media_sent (l : list Obs) : list Obs := List.filter is_media l.

(** ** The page without a signed-in user *)

(** Nothing was acquired, requested or scheduled, and no phase was set. *)
Definition signed_out (w : World) : Prop :=
  user (browser w) = None
  /\ sessionStatus (react w) = idle
  /\ refs w = refs (reaped w)
  /\ sockets (browser w) = []
  /\ contexts (browser w) = []
  /\ streams (browser w) = []
  /\ nodes (browser w) = []
  /\ timeouts (browser w) = []
  /\ continuations (browser w) = []
  /\ intervals (browser w) = 0%nat
  /\ processors (browser w) = 0%nat
  /\ statuses (log w) = []
  /\ media_sent (log w) = [].

(** ** Playback blocked by its in-flight flag *)

(** The in-flight flag is set although no unit is in flight and no run of
    the queue processor is suspended. *)
Definition wedged (w : World) : Prop :=
  isPlayingAudioRef (refs w) = true
  /\ Forall (fun nd => airborne nd = false) (nodes (browser w))
  /\ pending_playback (continuations (browser w)) = 0%nat.

(** ** Starting a session *)

(** Consent, the devices granted, the socket open, the peer connected. *)
Definition handshake (t1 t2 t3 t4 : Z) (k i : nat) : list (Z * Event) :=
  [(t1, ConsentAccept); (t2, PromiseSettled k Fulfilled); (t3, WsOpen i);
   (t4, WsMessage i (Some (status_message "connected")))].

(** A session that receives three bytes of audio, an odd count. *)
Definition odd_chunk_world : World :=
  default live_world
          (run [(6, WsMessage 0 (Some (audio_message "AQID")))] live_world).

(** The consent given and the device request pending. *)
Definition acquiring_world : World :=
  default (initial_world (Some "patient-1"%string))
          (run [(0, RequestPermissions); (1, ConsentAccept)]
               (initial_world (Some "patient-1"%string))).

(** ** What goes out on a socket *)

(** Before the peer has reported [connected]: no capture is running and
    no frame was sent. *)
Definition before_connected (w : World) : Prop :=
  processors (browser w) = 0%nat
  /\ intervals (browser w) = 0%nat
  /\ media_sent (log w) = [].

(** The messages sent on the socket [i], oldest first. *)
Definition sent_on (i : nat) (l : list Obs) : list OutMsg :=
  omap (fun o => match o with
                 | Sent j m => if Nat.eqb j i then Some m else None
                 | _ => None
                 end) l.

Definition is_frame (m : OutMsg) : bool :=
  match m with
  | OutAudio _ _ | OutVideo _ _ => true
  | _ => false
  end.

(** Frames, then at most one [end] message. *)
Fixpoint frames_then_end (l : list OutMsg) : bool :=
  match l with
  | [] => true
  | [OutEnd] => true
  | m :: r => is_frame m && frames_then_end r
  end.

(** One configuration message, frames, at most one [end] message; or
    nothing at all. *)
Definition conversation (l : list OutMsg) : bool :=
  match l with
  | [] => true
  | OutConfig _ :: r => frames_then_end r
  | _ => false
  end.

(** One configuration message, then frames. *)
Definition opened (l : list OutMsg) : bool :=
  match l with
  | OutConfig _ :: r => forallb is_frame r
  | _ => false
  end.

(** What a socket in a given state may have carried so far. *)
Definition carried (st : option ReadyState) (l : list OutMsg) : Prop :=
  match st with
  | None | Some CONNECTING => l = []
  | Some OPEN => opened l = true
  | Some CLOSING | Some CLOSED => conversation l = true
  end.

Definition wire_ok (w : World) : Prop :=
  forall i, carried (socket_state i w) (sent_on i (log w)).

(** ** Samples handed to the audio buffer *)

Definition in_unit_range (s : Q) : Prop := (-1 <= s)%Q /\ (s < 1)%Q.


(** * Properties *)

(** ** The frame encoder *)

Section EncoderFacts.
Import TypedArray Encoder.

Lemma Qltb_lt x y : Qltb x y = true <-> (x < y)%Q.
Proof. unfold Qltb, Qlt. apply Z.ltb_lt. Qed.

Lemma Qltb_ge x y : Qltb x y = false <-> (y <= x)%Q.
Proof. unfold Qltb, Qle. rewrite Z.ltb_ge. reflexivity. Qed.

Lemma Qltb_compat x x' y y' :
  (x == x')%Q -> (y == y')%Q -> Qltb x y = Qltb x' y'.
Proof.
  intros Hx Hy.
  destruct (Qltb x y) eqn:E; symmetry.
  - apply Qltb_lt. rewrite <- Hx, <- Hy. now apply Qltb_lt.
  - apply Qltb_ge. rewrite <- Hx, <- Hy. now apply Qltb_ge.
Qed.

(** Floor division is invariant under cross-multiplication. *)
Lemma div_cross n1 d1 n2 d2 :
  0 < d1 -> 0 < d2 -> n1 * d2 = n2 * d1 -> n1 / d1 = n2 / d2.
Proof.
  intros H1 H2 E.
  rewrite <- (Z.div_mul_cancel_r n1 d1 d2) by lia.
  rewrite <- (Z.div_mul_cancel_r n2 d2 d1) by lia.
  rewrite E. f_equal. lia.
Qed.

Lemma quot_cross n1 d1 n2 d2 :
  0 < d1 -> 0 < d2 -> n1 * d2 = n2 * d1 -> n1 ÷ d1 = n2 ÷ d2.
Proof.
  intros H1 H2 E.
  destruct (Z.le_gt_cases 0 n1) as [Hn|Hn].
  - assert (0 <= n2).
    { destruct (Z.le_gt_cases 0 n2) as [|Hneg]; [done|].
      pose proof (Z.mul_neg_pos n2 d1 Hneg H1).
      pose proof (Z.mul_nonneg_nonneg n1 d2 Hn). lia. }
    rewrite !Z.quot_div_nonneg by lia. now apply div_cross.
  - assert (n2 < 0).
    { destruct (Z.le_gt_cases 0 n2) as [Hpos|]; [|done].
      pose proof (Z.mul_neg_pos n1 d2 Hn H2).
      pose proof (Z.mul_nonneg_nonneg n2 d1 Hpos). lia. }
    rewrite <- (Z.opp_involutive n1), <- (Z.opp_involutive n2).
    rewrite (Z.quot_opp_l (- n1) d1), (Z.quot_opp_l (- n2) d2) by lia.
    rewrite (Z.quot_div_nonneg (- n1)), (Z.quot_div_nonneg (- n2)) by lia.
    f_equal. apply div_cross; lia.
Qed.

Lemma trunc_compat x y : (x == y)%Q -> trunc x = trunc y.
Proof.
  unfold Qeq, trunc. intros E. apply quot_cross; lia.
Qed.

Lemma ToInt16_compat x y : (x == y)%Q -> ToInt16 x = ToInt16 y.
Proof. intros E. unfold ToInt16. now rewrite (trunc_compat x y E). Qed.

(** The clamp written with [Math.max]/[Math.min] is the clamp. *)
Lemma clamp_eq x : (Math_max (-1) (Math_min 1 x) == EncoderSpec.clamp x)%Q.
Proof.
  unfold Math_max, Math_min, EncoderSpec.clamp.
  destruct (Qltb x (-1)) eqn:E1, (Qltb 1 x) eqn:E2, (Qltb x 1) eqn:E3;
    try rewrite E1; try rewrite E2;
    repeat match goal with
      | H : Qltb _ _ = true |- _ => apply Qltb_lt in H
      | H : Qltb _ _ = false |- _ => apply Qltb_ge in H
      end;
    repeat match goal with
      | |- context [Qltb ?a ?b] => destruct (Qltb a b) eqn:?
      end;
    repeat match goal with
      | H : Qltb _ _ = true |- _ => apply Qltb_lt in H
      | H : Qltb _ _ = false |- _ => apply Qltb_ge in H
      end;
    try reflexivity;
    unfold Qlt, Qle, Qeq in *; simpl in *; lia.
Qed.

Lemma clamp_range x : (-1 <= EncoderSpec.clamp x <= 1)%Q.
Proof.
  unfold EncoderSpec.clamp.
  destruct (Qltb x (-1)) eqn:E1; [split; discriminate|].
  destruct (Qltb 1 x) eqn:E2; [split; discriminate|].
  apply Qltb_ge in E1, E2. now split.
Qed.

Lemma scale_compat s s' :
  (s == s')%Q -> (EncoderSpec.scale s == EncoderSpec.scale s')%Q.
Proof.
  intros E. unfold EncoderSpec.scale.
  rewrite (Qltb_compat s s' 0 0 E (Qeq_refl 0)).
  destruct (Qltb s' 0); now rewrite E.
Qed.

(** A clamped sample scales into the int16 range. *)
Lemma scaled_range s :
  (-1 <= s <= 1)%Q -> -32768 <= trunc (EncoderSpec.scale s) <= 32767.
Proof.
  intros [Hlo Hhi]. unfold EncoderSpec.scale, trunc.
  destruct s as [n d]. unfold Qle in *. simpl in *.
  destruct (Qltb (n # d) 0) eqn:E.
  - apply Qltb_lt in E. unfold Qlt in E. simpl in *.
    rewrite Pos.mul_1_r.
    assert (Hq : (n * 32768) ÷ Z.pos d = - ((- n * 32768) / Z.pos d)).
    { rewrite <- (Z.opp_involutive (n * 32768)) at 1.
      rewrite (Z.quot_opp_l (- (n * 32768))) by lia.
      rewrite (Z.quot_div_nonneg (- (n * 32768))) by lia.
      f_equal. f_equal. lia. }
    rewrite Hq.
    assert (0 <= (- n * 32768) / Z.pos d) by (apply Z.div_pos; lia).
    assert ((- n * 32768) / Z.pos d <= 32768).
    { apply Z.div_le_upper_bound; lia. }
    lia.
  - apply Qltb_ge in E. unfold Qle in E. simpl in *.
    rewrite Pos.mul_1_r.
    rewrite Z.quot_div_nonneg by lia.
    assert (0 <= (n * 32767) / Z.pos d) by (apply Z.div_pos; lia).
    assert ((n * 32767) / Z.pos d <= 32767).
    { apply Z.div_le_upper_bound; lia. }
    lia.
Qed.

Lemma ToInt16_in_range x :
  -32768 <= trunc x <= 32767 -> ToInt16 x = trunc x.
Proof.
  intros H. unfold ToInt16.
  destruct (Z.le_gt_cases 0 (trunc x)).
  - rewrite Z.mod_small by lia.
    destruct (32768 <=? trunc x) eqn:E; [apply Z.leb_le in E; lia | done].
  - replace (trunc x mod 65536) with (trunc x + 65536).
    + destruct (32768 <=? trunc x + 65536) eqn:E;
        [lia | apply Z.leb_gt in E; lia].
    + apply Z.mod_unique with (q := -1); lia.
Qed.

Lemma convert_sample x : convert x = EncoderSpec.sample x.
Proof.
  unfold convert, EncoderSpec.sample.
  change (ToInt16 (EncoderSpec.scale (Math_max (-1) (Math_min 1 x)))
          = trunc (EncoderSpec.scale (EncoderSpec.clamp x))).
  rewrite (ToInt16_compat _ _ (scale_compat _ _ (clamp_eq x))).
  apply ToInt16_in_range, scaled_range, clamp_range.
Qed.
End EncoderFacts.

Section EncoderRefinement.
Import TypedArray Encoder.

Lemma store_sample_of x : store x = EncoderSpec.sample_of x.
Proof.
  destruct x as [q|[|]|]; cbn [store EncoderSpec.sample_of];
    [apply convert_sample | apply convert_sample | apply convert_sample
     | reflexivity].
Qed.

(** The index loop writes [store] of every sample, in place. *)
Lemma convert_loop_from (suf pre : list Float32) (done rest : list Z) :
  length done = length pre -> length rest = length suf ->
  fold_left
    (fun pcm i =>
       match (pre ++ suf) !! i with
       | Some x => <[i := store x]> pcm
       | None => pcm
       end)
    (seq (length pre) (length suf)) (done ++ rest)
  = done ++ List.map store suf.
Proof.
  revert pre done rest.
  induction suf as [|x suf IH]; intros pre done rest Hd Hr.
  - destruct rest; [reflexivity | discriminate].
  - destruct rest as [|r0 rest]; [discriminate|].
    cbn [length seq fold_left List.map].
    rewrite list_lookup_middle by reflexivity.
    rewrite insert_app_r_alt by lia.
    replace (length pre - length done)%nat with 0%nat by lia.
    cbn [insert list_insert].
    specialize (IH (pre ++ [x]) (done ++ [store x]) rest).
    rewrite !length_app in IH. cbn [length] in IH.
    rewrite <- !app_assoc in IH. cbn [app] in IH.
    replace (length pre + 1)%nat with (S (length pre)) in IH by lia.
    apply IH; [lia | now injection Hr].
Qed.

Lemma convert_loop_map inputData :
  convert_loop inputData (repeat 0 (length inputData))
  = List.map store inputData.
Proof.
  apply (convert_loop_from inputData [] [] (repeat 0 (length inputData)));
    [reflexivity | apply repeat_length].
Qed.

Lemma fill_zero n : List.map (fun _ : Z => 0) (repeat 0 n) = repeat 0 n.
Proof. induction n; simpl; congruence. Qed.

Lemma pcm_frame_of_window window :
  pcm window = EncoderSpec.frame_of_window (gated window) window.
Proof.
  unfold pcm, EncoderSpec.frame_of_window.
  destruct (gated window).
  - apply fill_zero.
  - rewrite convert_loop_map.
    apply map_ext. intros. apply store_sample_of.
Qed.

Lemma frame_of_window_finite silent inputData :
  EncoderSpec.frame_of_window silent (List.map Finite inputData)
  = EncoderSpec.frame_of silent inputData.
Proof.
  unfold EncoderSpec.frame_of_window, EncoderSpec.frame_of.
  rewrite length_map, map_map. reflexivity.
Qed.

Lemma pcmData_frame_of inputData :
  pcmData inputData
  = EncoderSpec.frame_of (gated (List.map Finite inputData)) inputData.
Proof.
  unfold pcmData. rewrite pcm_frame_of_window.
  apply frame_of_window_finite.
Qed.

Lemma frame_of_window_length silent window :
  length (EncoderSpec.frame_of_window silent window) = length window.
Proof.
  unfold EncoderSpec.frame_of_window.
  destruct silent; [apply repeat_length | apply length_map].
Qed.

Lemma pcm_length window : length (pcm window) = length window.
Proof. rewrite pcm_frame_of_window. apply frame_of_window_length. Qed.

Lemma pcmData_length inputData :
  length (pcmData inputData) = length inputData.
Proof. unfold pcmData. rewrite pcm_length. apply length_map. Qed.

Lemma bytes_little_endian v :
  bytes_of_int16 v = EncoderSpec.little_endian v.
Proof.
  unfold bytes_of_int16, EncoderSpec.little_endian.
  change 255 with (Z.ones 8).
  rewrite Z.land_ones, Z.shiftr_div_pow2 by lia.
  change (2 ^ 8) with 256.
  change 65536 with (256 * 256).
  rewrite Z.rem_mul_r by lia.
  pose proof (Z.mod_pos_bound v 256 ltac:(lia)).
  pose proof (Z.mod_pos_bound (v / 256) 256 ltac:(lia)).
  set (a := v mod 256) in *. set (b := (v / 256) mod 256) in *.
  f_equal; [|f_equal].
  - symmetry. apply Z.mod_unique with (q := b); lia.
  - symmetry. apply Z.div_unique with (r := a); lia.
Qed.

Lemma Uint8_view_packed frame :
  Uint8_view frame = EncoderSpec.packed frame.
Proof.
  unfold Uint8_view, EncoderSpec.packed.
  rewrite flat_map_concat_map.
  f_equal. apply map_ext. intros. apply bytes_little_endian.
Qed.
End EncoderRefinement.

(** ** The noise gate on numbers *)

Section GateFacts.
Import Encoder.

Lemma blown_absorbs acc y : blown acc -> blown (SFadd prec emax acc y).
Proof.
  intros [->| ->]; [now left|].
  destruct y as [s|[|]| |s m e]; cbn; unfold blown; auto.
Qed.

Lemma square_blown x :
  finite_sample x = false ->
  blown (SFmul prec emax (number x) (number x)).
Proof.
  destruct x as [q|[|]|]; [discriminate| | |]; intros _; cbn;
    unfold blown; auto.
Qed.

Lemma add_blown acc y : blown y -> blown (SFadd prec emax acc y).
Proof.
  intros [->| ->]; destruct acc as [s|[|]| |s m e]; cbn; unfold blown; auto.
Qed.

Lemma sumSquares_from_blown acc l :
  blown acc -> blown (sumSquares_from acc l).
Proof.
  revert acc. induction l as [|x l IH]; intros acc H; cbn; [exact H|].
  apply IH, blown_absorbs, H.
Qed.

Lemma sumSquares_from_not_finite acc l :
  Exists (fun x => finite_sample x = false) l ->
  blown (sumSquares_from acc l).
Proof.
  intros H. revert acc. induction H as [x l Hx|x l _ IH]; intros acc; cbn.
  - apply sumSquares_from_blown, add_blown, square_blown, Hx.
  - apply IH.
Qed.

Lemma blown_not_below x y t :
  blown x -> SFltb (SFsqrt prec emax (SFdiv prec emax x y)) t = false.
Proof.
  intros [->| ->]; [reflexivity|].
  destruct y as [[|]|[|]| |[|] m e]; try reflexivity;
    destruct t as [s'|[|]| |s' m' e']; reflexivity.
Qed.

(** A window that holds NaN or an infinity is never gated. *)
Lemma not_finite_not_gated window :
  Exists (fun x => finite_sample x = false) window -> gated window = false.
Proof.
  intros H. unfold gated, rms.
  apply blown_not_below, sumSquares_from_not_finite, H.
Qed.

(** The accumulation loop computes the energy. *)
Lemma sumSquares_from_energy acc window :
  sumSquares_from acc window
  = fold_left (SFadd 53 1024)
              (List.map EncoderSpec.square64 (List.map number window)) acc.
Proof.
  revert acc. induction window as [|x l IH]; intros acc; [reflexivity|].
  cbn [sumSquares_from List.map fold_left]. apply IH.
Qed.

Lemma gated_closes window :
  gated window = EncoderSpec.closes window (2 # 100).
Proof.
  unfold gated, EncoderSpec.closes, rms, EncoderSpec.rms64,
    EncoderSpec.energy64, sumSquares.
  rewrite sumSquares_from_energy, length_map. reflexivity.
Qed.
End GateFacts.

(** C3, as amended. On every window of finite samples the capture callback
    sends exactly the frame of the reference encoder, low byte first, in
    which the gate is decided on binary64 numbers, as the page computes it:
    the squares are summed in index order, the sum is divided by the number
    of samples, and the rounded square root is compared with the number
    nearest to 0.02. The frame is all zeros, as many as the window has
    samples, when the gate closes; otherwise each sample is clamped to
    [-1,1] and scaled by 32768 if negative and by 32767 otherwise, so that
    1.0 becomes 32767. The same holds of a window that holds NaN or an
    infinity: it is never gated, an infinity is sent as 32767 or -32768
    and NaN as 0. An empty window is not gated; a buffer of 2048 zeros,
    the size the page asks for, is. Nothing but the window enters the
    frame and nothing but the sent frame is left behind. *)
Theorem encoder_emits_reference_frame
  (inputData : list Q) (w : World) (i : nat) :
  wsRef (refs w) = Some i ->
  socket_state i w = Some OPEN ->
  onaudioprocess inputData w
  = (Normal tt,
     observe
       (Sent i
          (OutAudio
             (Base64.btoa
                (EncoderSpec.packed
                   (EncoderSpec.frame_of
                      (EncoderSpec.closes
                         (List.map Encoder.Finite inputData) (2 # 100))
                      inputData)))
             16000)) w)
  /\ (forall window,
        Encoder.pcm window
        = EncoderSpec.frame_of_window
            (EncoderSpec.closes window (2 # 100)) window
        /\ length (Encoder.pcm window) = length window)
  /\ (forall window,
        Exists (fun x => finite_sample x = false) window ->
        EncoderSpec.closes window (2 # 100) = false)
  /\ EncoderSpec.closes [] (2 # 100) = false
  /\ EncoderSpec.closes (repeat (Encoder.Finite 0) 2048) (2 # 100) = true
  /\ EncoderSpec.sample 1 = 32767.
Proof.
  intros Hws Hopen. split_and!.
  - unfold onaudioprocess, ref, gets, mbind, JS_bind.
    rewrite Hws, Hopen. unfold ws_send. rewrite Hopen.
    unfold Encoder.frame.
    now rewrite Uint8_view_packed, pcmData_frame_of, gated_closes.
  - intros window. rewrite <- gated_closes.
    split; [apply pcm_frame_of_window | apply pcm_length].
  - intros window H. rewrite <- gated_closes.
    now apply not_finite_not_gated.
  - reflexivity.
  - vm_compute. reflexivity.
  - reflexivity.
Qed.

Lemma encoder_emits_reference_frame_witness :
  onaudioprocess [1 # 2; -1 # 2; 1]%Q live_world
  = (Normal tt,
     observe
       (Sent 0%nat
          (OutAudio
             (Base64.btoa
                (EncoderSpec.packed
                   (EncoderSpec.frame_of
                      (EncoderSpec.closes
                         (List.map Encoder.Finite [1 # 2; -1 # 2; 1]%Q)
                         (2 # 100))
                      [1 # 2; -1 # 2; 1]%Q)))
             16000)) live_world)
  /\ Encoder.pcm [Encoder.NaN; Encoder.Infinity false;
                  Encoder.Infinity true; Encoder.Finite (1 # 2)]
     = [0; 32767; -32768; 16383].
Proof.
  destruct (encoder_emits_reference_frame
              [1 # 2; -1 # 2; 1]%Q live_world 0%nat)
    as (H1 & H2 & H3 & _); [reflexivity | reflexivity |].
  split; [exact H1|].
  destruct (H2 [Encoder.NaN; Encoder.Infinity false;
                Encoder.Infinity true; Encoder.Finite (1 # 2)]) as [-> _].
  rewrite H3 by (constructor; reflexivity).
  reflexivity.
Defined.

(** C3, as stated, fails. On [threshold_window], four Float32 values that
    the page reads without rounding, the root mean square is below 0.02,
    so the reference frame is all zeros; the page computes a root mean
    square that rounds to the number nearest to 0.02, does not gate, and
    sends the converted samples. *)
Lemma gate_rounds_at_threshold :
  forallb is_float32 threshold_window = true
  /\ forallb read_exactly threshold_window = true
  /\ EncoderSpec.rms_below threshold_window (2 # 100) = true
  /\ EncoderSpec.int16_frame threshold_window = [0; 0; 0; 0]
  /\ Encoder.rms (List.map Encoder.Finite threshold_window)
     = Encoder.of_Q Encoder.NOISE_THRESHOLD
  /\ Encoder.gated (List.map Encoder.Finite threshold_window) = false
  /\ EncoderSpec.closes (List.map Encoder.Finite threshold_window) (2 # 100)
     = false
  /\ Encoder.pcmData threshold_window = [1310; 0; 0; 0].
Proof. vm_compute. split_and!; reflexivity. Qed.

Section RoundTrip.
Import TypedArray Encoder.

Lemma clamp_id s : (-1 <= s <= 1)%Q -> EncoderSpec.clamp s = s.
Proof.
  intros [Hlo Hhi]. unfold EncoderSpec.clamp.
  destruct (Qltb s (-1)) eqn:E1.
  { apply Qltb_lt in E1. exfalso. apply (Qlt_not_le _ _ E1 Hlo). }
  destruct (Qltb 1 s) eqn:E2.
  { apply Qltb_lt in E2. exfalso. apply (Qlt_not_le _ _ E2 Hhi). }
  reflexivity.
Qed.

Lemma round_trip_bounds s :
  (-1 <= s <= 1)%Q ->
  let v := convert s in
  (Qltb s 0 = true -> 
     Qnum s * 32768 <= v * Zpos (Qden s) < Qnum s * 32768 + Zpos (Qden s))
  /\ (Qltb s 0 = false ->
     Qnum s * 32767 - Zpos (Qden s) < v * Zpos (Qden s) <= Qnum s * 32767).
Proof.
  intros Hs v. subst v. rewrite convert_sample.
  unfold EncoderSpec.sample. rewrite (clamp_id s Hs).
  unfold EncoderSpec.scale, trunc.
  destruct s as [n d]. destruct Hs as [Hlo Hhi].
  unfold Qle in *. simpl in *.
  split; intros E; rewrite E; simpl; rewrite Pos.mul_1_r.
  - apply Qltb_lt in E. unfold Qlt in E. simpl in E.
    rewrite <- (Z.opp_involutive (n * 32768)) at 2 3.
    rewrite (Z.quot_opp_l (- (n * 32768))) by lia.
    rewrite (Z.quot_div_nonneg (- (n * 32768))) by lia.
    pose proof (Z.mul_div_le (- (n * 32768)) (Z.pos d) ltac:(lia)).
    pose proof (Z.mul_succ_div_gt (- (n * 32768)) (Z.pos d) ltac:(lia)).
    lia.
  - apply Qltb_ge in E. unfold Qle in E. simpl in E.
    rewrite Z.quot_div_nonneg by lia.
    pose proof (Z.mul_div_le (n * 32767) (Z.pos d) ltac:(lia)).
    pose proof (Z.mul_succ_div_gt (n * 32767) (Z.pos d) ltac:(lia)).
    lia.
Qed.
End RoundTrip.

(** C4, as amended. A sample in [-1,1] that is encoded to int16 and decoded
    by dividing by 32768 comes back less than two least-significant bits
    (2/32768) away; a sample that is not positive comes back less than one
    away. *)
Theorem round_trip_within_two_lsb (s : Q) :
  (-1 <= s <= 1)%Q ->
  (round_trip_error s < 2 * lsb)%Q
  /\ ((s <= 0)%Q -> (round_trip_error s < lsb)%Q).
Proof.
  intros Hs.
  pose proof (round_trip_bounds s Hs) as [Hneg Hpos]. cbv zeta in *.
  unfold round_trip_error, Encoder.to_float32, lsb.
  set (v := Encoder.convert s) in *.
  destruct s as [n d]. destruct Hs as [Hlo Hhi].
  unfold Qle in Hlo, Hhi. simpl in *.
  clearbody v.
  destruct (Encoder.Qltb (n # d) 0) eqn:E.
  - specialize (Hneg eq_refl). clear Hpos.
    apply Qltb_lt in E. unfold Qlt in E. simpl in E.
    split; [|intros _]; unfold Qlt; simpl;
      rewrite ?Pos2Z.inj_mul; lia.
  - specialize (Hpos eq_refl). clear Hneg.
    apply Qltb_ge in E. unfold Qle in E. simpl in E.
    split; [|intros H0; unfold Qle in H0; simpl in H0];
      unfold Qlt; simpl; rewrite ?Pos2Z.inj_mul; lia.
Qed.

Lemma round_trip_within_two_lsb_witness :
  (round_trip_error (3 # 4) < 2 * lsb)%Q.
Proof.
  apply (round_trip_within_two_lsb (3 # 4)). split; discriminate.
Defined.

(** C4, as stated, fails: 1 - 2^-16 is a Float32 value; it encodes to 32766
    and decodes to 32766/32768, one and a half least-significant bits
    below. *)
Lemma round_trip_exceeds_one_lsb :
  (-1 <= 65535 # 65536 <= 1)%Q
  /\ ~ (round_trip_error (65535 # 65536) <= lsb)%Q.
Proof.
  split; [split; discriminate|].
  intros H. vm_compute in H. apply H. reflexivity.
Qed.


(** ** A weakest-precondition calculus for the callbacks *)

Section WpRules.
Context {A B : Type}.

Lemma wp_ret (a : A) w Q : Q (Normal a) w -> wp (mret a) w Q.
Proof. done. Qed.

Lemma wp_bind (m : JS A) (f : A -> JS B) w Q :
  wp m w (fun c w' =>
            match c with
            | Normal a => wp (f a) w' Q
            | Thrown e => Q (Thrown e) w'
            end) ->
  wp (m ≫= f) w Q.
Proof.
  unfold wp, mbind, JS_bind. destruct (m w) as [[a|e] w']; done.
Qed.

Lemma wp_gets (f : World -> A) w Q : Q (Normal (f w)) w -> wp (gets f) w Q.
Proof. done. Qed.

Lemma wp_throw e w (Q : Completion A -> World -> Prop) :
  Q (Thrown e) w -> wp (throw e) w Q.
Proof. done. Qed.

Lemma wp_lift (c : Completion A) w Q : Q c w -> wp (lift c) w Q.
Proof. done. Qed.

Lemma wp_try_catch (m : JS A) h w Q :
  wp m w (fun c w' =>
            match c with
            | Normal a => Q (Normal a) w'
            | Thrown e => wp (h e) w' Q
            end) ->
  wp (try_catch m h) w Q.
Proof.
  unfold wp, try_catch. destruct (m w) as [[a|e] w']; done.
Qed.

Lemma wp_run (m : JS A) w Q : wp m w Q -> Q (m w).1 (m w).2.
Proof. done. Qed.

Lemma wp_eq (m : JS A) w r :
  wp m w (fun c w' => (c, w') = r) -> m w = r.
Proof. unfold wp. now destruct (m w). Qed.

End WpRules.

Lemma wp_modify f w Q : Q (Normal tt) (f w) -> wp (modify f) w Q.
Proof. done. Qed.

Lemma wp_detached m w Q :
  wp m w (fun _ w' => Q (Normal tt) w') -> wp (detached m) w Q.
Proof. done. Qed.

Lemma wp_exec {A} (m : JS A) w (P : World -> Prop) :
  wp m w (fun _ w' => P w') -> P (exec m w).
Proof. done. Qed.

(** Normal form of a world: a record of its fields. *)
Ltac world_nf :=
  cbv beta iota zeta delta
    [react refs browser log
     sessionStatus statusMessage errorState sessionSummary enableVideo
     showConsentModal
     wsRef audioContextRef mediaStreamRef audioQueueRef2 isPlayingAudioRef
     activeAudioContextRef activeSourceNodeRef isSessionActiveRef videoRef
     canvasRef
     sockets contexts streams nodes timeouts intervals processors
     continuations now mounted user
     with_react with_refs with_browser observe
     set_sessionStatus set_statusMessage set_errorState set_sessionSummary
     set_enableVideo set_showConsentModal
     set_wsRef set_audioContextRef set_mediaStreamRef set_audioQueueRef2
     set_isPlayingAudioRef set_activeAudioContextRef set_activeSourceNodeRef
     set_isSessionActiveRef set_domRefs
     set_sockets set_contexts set_streams set_nodes set_timeouts set_intervals
     set_processors set_continuations set_now set_mounted
     socket_state context_state alter_socket alter_node set_context
     clear_continuation clear_timeout reaped on_ref render status_is].

Ltac world_nf_in H :=
  cbv beta iota zeta delta
    [react refs browser log
     sessionStatus statusMessage errorState sessionSummary enableVideo
     showConsentModal
     wsRef audioContextRef mediaStreamRef audioQueueRef2 isPlayingAudioRef
     activeAudioContextRef activeSourceNodeRef isSessionActiveRef videoRef
     canvasRef
     sockets contexts streams nodes timeouts intervals processors
     continuations now mounted user
     with_react with_refs with_browser observe
     set_sessionStatus set_statusMessage set_errorState set_sessionSummary
     set_enableVideo set_showConsentModal
     set_wsRef set_audioContextRef set_mediaStreamRef set_audioQueueRef2
     set_isPlayingAudioRef set_activeAudioContextRef set_activeSourceNodeRef
     set_isSessionActiveRef set_domRefs
     set_sockets set_contexts set_streams set_nodes set_timeouts set_intervals
     set_processors set_continuations set_now set_mounted
     socket_state context_state alter_socket alter_node set_context
     clear_continuation clear_timeout reaped on_ref render status_is] in H.

(** Browser objects. *)
Lemma wp_ws_send i msg w Q :
  match socket_state i w with
  | Some OPEN => Q (Normal tt) (observe (Sent i msg) w)
  | Some CONNECTING => Q (Thrown InvalidStateError) w
  | _ => Q (Normal tt) w
  end ->
  wp (ws_send i msg) w Q.
Proof. unfold wp, ws_send. destruct (socket_state i w) as [[]|]; done. Qed.

Lemma wp_node_stop n w Q :
  Q (match nodeState <$> nodes (browser w) !! n with
     | Some Unscheduled => Thrown InvalidStateError
     | _ => Normal tt
     end) (alter_node stop_playing n w) ->
  wp (node_stop n) w Q.
Proof. done. Qed.

Lemma wp_node_start n w Q :
  match nodes (browser w) !! n with
  | Some nd =>
      Q (Normal tt) (observe (PlaybackStart n (buffer nd))
                             (alter_node (set_nodeState Playing) n w))
  | None => Q (Normal tt) w
  end ->
  wp (node_start n) w Q.
Proof. unfold wp, node_start. destruct (nodes (browser w) !! n); done. Qed.

Lemma wp_new_WebSocket v st w Q :
  Q (Normal (length (sockets (browser w))))
    (new_WebSocket v st w).2 ->
  wp (new_WebSocket v st) w Q.
Proof. done. Qed.

Lemma wp_new_AudioContext w Q :
  Q (Normal (length (contexts (browser w)))) (new_AudioContext w).2 ->
  wp new_AudioContext w Q.
Proof. done. Qed.

Lemma wp_new_MediaStream w Q :
  Q (Normal (length (streams (browser w)))) (new_MediaStream w).2 ->
  wp new_MediaStream w Q.
Proof. done. Qed.

Lemma wp_new_SourceNode samples w Q :
  Q (Normal (length (nodes (browser w)))) (new_SourceNode samples w).2 ->
  wp (new_SourceNode samples) w Q.
Proof. done. Qed.

Ltac wp_prim0 :=
  lazymatch goal with
  | |- wp (mbind _ _) _ _ => apply wp_bind
  | |- wp (mret _) _ _ => apply wp_ret
  | |- wp skip _ _ => apply wp_ret
  | |- wp (gets _) _ _ => apply wp_gets
  | |- wp (ref _) _ _ => apply wp_gets
  | |- wp (modify _) _ _ => apply wp_modify
  | |- wp (set_ref _) _ _ => apply wp_modify
  | |- wp (throw _) _ _ => apply wp_throw
  | |- wp (lift _) _ _ => apply wp_lift
  | |- wp (try_catch _ _) _ _ => apply wp_try_catch
  | |- wp (detached _) _ _ => apply wp_detached
  | |- wp (ws_send _ _) _ _ => apply wp_ws_send
  | |- wp (node_stop _) _ _ => apply wp_node_stop
  | |- wp (node_start _) _ _ => apply wp_node_start
  | |- wp (ws_close _) _ _ => apply wp_modify
  | |- wp (context_close _) _ _ => apply wp_modify
  | |- wp (tracks_stop _) _ _ => apply wp_modify
  | |- wp (setTimeout _) _ _ => apply wp_modify
  | |- wp (await _) _ _ => apply wp_modify
  | |- wp (setSessionStatus _) _ _ => apply wp_modify
  | |- wp (setStatusMessage _) _ _ => apply wp_modify
  | |- wp (setError _) _ _ => apply wp_modify
  | |- wp (setSessionSummary _) _ _ => apply wp_modify
  | |- wp (setShowConsentModal _) _ _ => apply wp_modify
  | |- wp (setEnableVideo _) _ _ => apply wp_modify
  | |- wp (playback_failed _) _ _ => apply wp_modify
  end.

(** The scrutinee of the [match] at the head of a program. *)
Ltac scrutinee t :=
  lazymatch t with
  | match ?x with _ => _ end => x
  | ?f _ => scrutinee f
  end.

Ltac case_on x :=
  first [ match goal with H : x = _ |- _ => rewrite H end
        | destruct x eqn:? ].

Ltac wp_case :=
  lazymatch goal with
  | |- wp ?m _ _ => let x := scrutinee m in case_on x
  | |- match ?x with _ => _ end => case_on x
  end.

Ltac json_nf :=
  cbn [Json.is_str Json.prop Json.member Json.length_of Json.ToString
       String.eqb Ascii.eqb Bool.eqb negb orb andb].

Ltac wp_go0 := repeat (first [wp_prim0 | wp_case]; world_nf).

Ltac destruct_world w :=
  let rs := fresh "status" in let sm := fresh "msg" in
  let er := fresh "err" in let su := fresh "summary" in
  let ev := fresh "video" in let cm := fresh "modal" in
  let ws := fresh "ws" in let ac := fresh "capture" in
  let ms := fresh "stream" in let q := fresh "queue" in
  let p := fresh "playing" in let pc := fresh "playback" in
  let sn := fresh "source" in let a := fresh "active" in
  let vr := fresh "vref" in let cr := fresh "cref" in
  let sk := fresh "sks" in let cx := fresh "ctxs" in
  let st := fresh "strs" in let nd := fresh "nds" in
  let tm := fresh "tmo" in let iv := fresh "ivs" in
  let pr := fresh "procs" in let ks := fresh "conts" in
  let t := fresh "time" in let mt := fresh "mnt" in
  let u := fresh "usr" in let l := fresh "obs" in
  destruct w as [[rs sm er su ev cm] [ws ac ms q p pc sn a vr cr]
                   [sk cx st nd tm iv pr ks t mt u] l].

Lemma cleanup_reaped w : cleanup w = (Normal tt, reaped w).
Proof.
  apply wp_eq. destruct_world w. unfold cleanup. wp_go0; reflexivity.
Qed.

Lemma wp_cleanup w Q : Q (Normal tt) (reaped w) -> wp cleanup w Q.
Proof. unfold wp. now rewrite cleanup_reaped. Qed.

Ltac head_of t :=
  lazymatch t with
  | ?f _ => head_of f
  | _ => t
  end.

Ltac wp_prim :=
  lazymatch goal with
  | |- wp cleanup _ _ => apply wp_cleanup
  | |- wp (new_WebSocket _ _) _ _ =>
      apply wp_new_WebSocket; unfold new_WebSocket; cbn [fst snd]
  | |- wp new_AudioContext _ _ =>
      apply wp_new_AudioContext; unfold new_AudioContext; cbn [fst snd]
  | |- wp new_MediaStream _ _ =>
      apply wp_new_MediaStream; unfold new_MediaStream; cbn [fst snd]
  | |- wp (new_SourceNode _) _ _ =>
      apply wp_new_SourceNode; unfold new_SourceNode; cbn [fst snd]
  | |- _ => wp_prim0
  end.

(** Unfold the function at the head of the program. *)
Ltac wp_unfold :=
  lazymatch goal with
  | |- wp ?m _ _ => let h := head_of m in unfold h
  end.

Lemma lookup_snoc {A} (l : list A) (x : A) : (l ++ [x]) !! length l = Some x.
Proof. now apply list_lookup_middle. Qed.

Ltac wp_go :=
  repeat (first [wp_prim | wp_case | wp_unfold];
          world_nf; json_nf; rewrite ?lookup_snoc).

(** C7. Whatever was acquired, [cleanup] completes without an error and
    leaves every device, playback, queue and transport reference absent;
    a second [cleanup] right after completes as well and changes nothing
    (the log alone records that it was called). *)
Theorem cleanup_idempotent (w : World) :
  fst (cleanup w) = Normal tt
  /\ released (exec cleanup w)
  /\ cleanup (exec cleanup w)
     = (Normal tt, observe CleanupCall (exec cleanup w)).
Proof.
  unfold exec. rewrite !cleanup_reaped. cbn [fst snd].
  split; [reflexivity|]. split; [repeat split|].
  now destruct_world w.
Qed.

(** ** Inbound messages *)

Lemma prop_field m key : m <> JNull -> Json.prop m key = Normal (field m key).
Proof. now destruct m. Qed.

Lemma prop_normal m key v : Json.prop m key = Normal v -> v = field m key.
Proof. destruct m; cbn; congruence. Qed.

Lemma handleServerMessage_unknown v m w :
  m <> JNull -> known_kind m = false ->
  handleServerMessage v m w = (Normal tt, w).
Proof.
  intros Hm Hk. unfold known_kind in Hk.
  repeat (apply orb_false_elim in Hk as [Hk ?]).
  apply wp_eq. unfold handleServerMessage.
  apply wp_bind, wp_lift. rewrite (prop_field m _ Hm).
  fold (message_type m).
  repeat match goal with
         | H : Json.is_str _ _ = false |- _ => rewrite H; clear H
         end.
  reflexivity.
Qed.

(** C9, as amended. A message that is not JSON, or that is the JSON value
    [null], makes the message handler throw (its promise is rejected)
    before it touches anything; a parsed message of unrecognized kind, and
    a status message of unrecognized status, are dropped without an error.
    In all four cases the session phase and every other part of the session
    state are left as they were. *)
Theorem unusable_message_leaves_state (i : nat) (w : World) :
  ws_onmessage i None w = (Thrown SyntaxError, w)
  /\ ws_onmessage i (Some JNull) w = (Thrown TypeError, w)
  /\ (forall m, m <> JNull -> known_kind m = false ->
                ws_onmessage i (Some m) w = (Normal tt, w))
  /\ (forall s, s <> "connected"%string -> s <> "ended"%string ->
                ws_onmessage i (Some (status_message s)) w = (Normal tt, w)).
Proof.
  split; [reflexivity|]. split; [reflexivity|]. split.
  - intros m Hm Hk. unfold ws_onmessage.
    apply wp_eq, wp_bind, wp_gets. unfold wp.
    now rewrite handleServerMessage_unknown.
  - intros s H1 H2. unfold ws_onmessage.
    apply wp_eq, wp_bind, wp_gets.
    unfold handleServerMessage, status_message.
    apply wp_bind, wp_lift. cbn.
    apply wp_bind, wp_lift. cbn.
    apply String.eqb_neq in H1, H2. rewrite H1, H2. reflexivity.
Qed.

Lemma unusable_message_leaves_state_witness :
  ws_onmessage 0 (Some (JObj [("type", JStr "ping")]%string)) live_world
  = (Normal tt, live_world)
  /\ ws_onmessage 0 (Some (status_message "paused")) live_world
     = (Normal tt, live_world).
Proof.
  split.
  - apply (unusable_message_leaves_state 0 live_world); [discriminate | reflexivity].
  - apply (unusable_message_leaves_state 0 live_world); discriminate.
Defined.

(** C9, as stated, fails. Text that is not JSON is malformed, and the
    handler raises [SyntaxError] on it; an [audio] message without [data]
    is malformed, and the handler sets the phase to [speaking] before it
    raises [TypeError]. *)
Lemma malformed_message_not_dropped :
  ~ (forall parsed, malformed parsed ->
       ws_onmessage 0 parsed live_world = (Normal tt, live_world))
  /\ malformed (Some (JObj [("type", JStr "audio")]%string))
  /\ fst (ws_onmessage 0 (Some (JObj [("type", JStr "audio")]%string))
                       live_world) = Thrown TypeError
  /\ sessionStatus (react live_world) = listening
  /\ sessionStatus
       (react (exec (ws_onmessage 0 (Some (JObj [("type", JStr "audio")]%string)))
                    live_world)) = speaking.
Proof.
  split; [|repeat split; vm_compute; reflexivity].
  intros H. specialize (H None I). discriminate H.
Qed.

(** ** Termination paths and the reaper *)

Ltac log_nf :=
  rewrite ?drop_app_length, ?drop_all;
  cbn [app]; rewrite <- ?app_assoc; cbn [app];
  rewrite ?drop_app_length, ?drop_all.

Ltac emitted_go :=
  unfold emitted; apply wp_exec; wp_go; log_nf; reflexivity.

(** C1 at its failing inputs. A peer [error] message, a transport error, a
    transport close and a refused device each set the phase to [error] or
    [ended] without calling [cleanup], and the refs and browser objects of
    the session stay as they were; the sibling paths, peer [status: ended]
    and the user's End, call it exactly once. *)
Theorem error_paths_skip_cleanup
  (w : World) (i : nat) (reason : string) (v : bool) (s : SessionStatus) :
  (emitted (ws_onmessage i (Some (error_message reason))) w = [SetStatus error]
   /\ refs (exec (ws_onmessage i (Some (error_message reason))) w) = refs w
   /\ browser (exec (ws_onmessage i (Some (error_message reason))) w)
      = browser w)
  /\ (emitted ws_onerror w = [SetStatus error]
      /\ refs (exec ws_onerror w) = refs w)
  /\ (cleanup_calls (emitted (ws_onclose i) w) = 0%nat
      /\ refs (exec (ws_onclose i) w) = refs w)
  /\ (emitted (startLiveSession_resume v s (RejectedWith reason)) w
      = [SetStatus error]
      /\ refs (exec (startLiveSession_resume v s (RejectedWith reason)) w)
         = refs w)
  /\ emitted (ws_onmessage i (Some (status_message "ended"))) w
     = [SetStatus ended; CleanupCall]
  /\ cleanup_calls (emitted endSession w) = 1%nat.
Proof.
  destruct_world w.
  split_and!.
  - unfold error_message. emitted_go.
  - apply wp_exec. unfold error_message. wp_go. reflexivity.
  - apply wp_exec. unfold error_message. wp_go. reflexivity.
  - emitted_go.
  - apply wp_exec. wp_go. reflexivity.
  - emitted_go.
  - apply wp_exec. wp_go; reflexivity.
  - emitted_go.
  - apply wp_exec. wp_go. reflexivity.
  - unfold status_message. emitted_go.
  - emitted_go.
Qed.

(** C8 at its failing input. After a peer [error] message has put the
    session in the [error] phase, the socket is still open and referenced,
    so the next capture tick and the next video tick each transmit their
    frame; after the user's End both callbacks drop their frame. *)
Theorem frames_still_sent_after_peer_error
  (w : World) (i : nat) (reason dataUrl : string) (inputData : list Q) :
  wsRef (refs w) = Some i ->
  socket_state i w = Some OPEN ->
  let failed := exec (ws_onmessage i (Some (error_message reason))) w in
  let closed := exec endSession w in
  sessionStatus (react failed) = error
  /\ emitted (onaudioprocess inputData) failed
     = [Sent i (OutAudio (Encoder.frame inputData) 16000)]
  /\ emitted (captureFrame dataUrl) failed
     = [Sent i (OutVideo (split_comma_1 dataUrl) "image/jpeg")]
  /\ emitted (onaudioprocess inputData) closed = []
  /\ emitted (captureFrame dataUrl) closed = [].
Proof.
  intros Hws Hopen failed closed.
  assert (Hf : failed
               = observe (SetStatus error)
                   (with_react (fun r => set_sessionStatus error
                                  (set_errorState (Some (JStr reason)) r)) w)).
  { subst failed. destruct_world w. apply wp_exec.
    unfold error_message. wp_go. reflexivity. }
  assert (Hc : wsRef (refs closed) = None).
  { subst closed. destruct_world w. apply wp_exec. wp_go; reflexivity. }
  clearbody failed closed. subst failed.
  destruct_world w. world_nf_in Hws. world_nf_in Hopen. subst ws.
  split_and!.
  - reflexivity.
  - unfold emitted. apply wp_exec. wp_go; try congruence; log_nf; reflexivity.
  - unfold emitted. apply wp_exec. wp_go; try congruence; log_nf; reflexivity.
  - destruct_world closed. world_nf_in Hc. subst. emitted_go.
  - destruct_world closed. world_nf_in Hc. subst. emitted_go.
Qed.

Lemma frames_still_sent_after_peer_error_witness :
  emitted (onaudioprocess [1 # 2; -1 # 2]%Q)
          (exec (ws_onmessage 0 (Some (error_message "overloaded"))) live_world)
  = [Sent 0%nat (OutAudio (Encoder.frame [1 # 2; -1 # 2]%Q) 16000)].
Proof.
  apply (frames_still_sent_after_peer_error live_world 0%nat "overloaded"
           "data:image/jpeg;base64,AAAA" [1 # 2; -1 # 2]%Q);
    reflexivity.
Defined.

(** ** Stepping through the event loop *)

Ltac fire_inv H :=
  unfold fire in H; cbn [fst snd] in H;
  lazymatch type of H with
  | (if ?c then _ else _) = _ => destruct c eqn:?; [discriminate H|]
  end;
  lazymatch type of H with
  | render <$> ?s = Some _ =>
      let Hs := fresh "Hstep" in
      destruct s eqn:Hs; [|discriminate H];
      cbn [fmap option_fmap option_map] in H;
      injection H as <-
  end.

(** From [Hstep : step e W = Some w1] to one goal per way the event can be
    delivered, each about [exec handler W]. *)
Ltac step_cases e Hstep :=
  destruct e; unfold step in Hstep; world_nf_in Hstep;
  repeat case_match; simplify_eq.

Ltac to_wp :=
  lazymatch goal with
  | |- context [exec ?m ?W] => pattern (exec m W); apply wp_exec
  | _ => idtac
  end.

Ltac obs_nf :=
  unfold starts, statuses;
  rewrite ?omap_app; cbn [omap list_omap]; rewrite ?app_nil_r.

Lemma run_app tr1 tr2 w :
  run (tr1 ++ tr2) w = run tr1 w ≫= run tr2.
Proof.
  revert w. induction tr1 as [|te tr1 IH]; intros w; cbn; [done|].
  destruct (fire te w); cbn; [apply IH | done].
Qed.

(** *** Once the session is marked inactive *)







(** ** Where the phases are entered *)

Lemma entry_points t e w w' :
  fire (t, e) w = Some w' ->
  (entered speaking w w' ->
   exists i m, e = WsMessage i (Some m)
               /\ Json.is_str (message_type m) "audio" = true)
  /\ (entered connected w w' ->
      exists i m, e = WsMessage i (Some m)
                  /\ Json.is_str (message_type m) "status" = true
                  /\ Json.is_str (field m "status") "connected" = true).
Proof.
  intros H. fire_inv H. destruct_world w.
  step_cases e Hstep.
  all: unfold entered; to_wp; wp_go.
  all: world_nf; log_nf; cbn [statuses omap list_omap].
  all: repeat match goal with
         | H : Json.prop _ _ = Normal _ |- _ => apply prop_normal in H; subst
         end.
  all: split; intros Hin; cbn [In] in Hin;
    repeat match goal with
      | H : _ \/ _ |- _ => destruct H
      | H : False |- _ => destruct H
      end; try discriminate.
  all: eexists _, _; split_and!; [reflexivity | eassumption ..].
Qed.

Lemma shut_lookup sks i (s : WebSocket) :
  Forall shut sks -> sks !! i = Some s ->
  readyState s = CLOSED /\ closeFired s = true.
Proof. intros H Hi. exact (Forall_lookup_1 _ _ _ _ H Hi). Qed.

Lemma shut_closing s : shut s -> shut (closing s).
Proof. intros [H1 H2]. unfold closing. now rewrite H1. Qed.

Ltac shut_facts :=
  repeat match goal with
    | Hs : Forall shut ?sks, H : readyState <$> ?sks !! ?i = Some _ |- _ =>
        let s := fresh "s" in let E := fresh "E" in
        destruct (sks !! i) as [s|] eqn:E; [|discriminate H];
        destruct (shut_lookup sks i s Hs E);
        cbn in H; congruence
    | Hs : Forall shut ?sks, H : ?sks !! ?i = Some ?s |- _ =>
        lazymatch goal with
        | _ : readyState s = CLOSED |- _ => fail
        | _ => destruct (shut_lookup sks i s Hs H)
        end
    end.

Ltac guard_facts :=
  repeat match goal with
    | H : _ && _ = true |- _ => apply andb_true_iff in H as [? ?]
    | H : negb _ = true |- _ => apply negb_true_iff in H
    | H : bool_decide _ = true |- _ => apply bool_decide_eq_true in H
    | H : bool_decide _ = false |- _ => apply bool_decide_eq_false in H
    | H : _ || _ = false |- _ => apply orb_false_iff in H as [? ?]
    | H : negb _ = false |- _ => apply negb_false_iff in H
    | H : (_ <=? _) = true |- _ => apply Z.leb_le in H
    | H : (_ <=? _) = false |- _ => apply Z.leb_gt in H
    end.

Ltac acquisition_facts :=
  repeat match goal with
    | Hk : Forall no_acquisition ?ks,
      H : ?ks !! ?k = Some (Some (AwaitUserMedia _ _)) |- _ =>
        destruct (Forall_lookup_1 _ _ _ _ Hk H)
    end.

Lemma no_acquisition_cleared conts k :
  Forall no_acquisition conts -> Forall no_acquisition (<[k := None]> conts).
Proof. intros H. now apply Forall_insert. Qed.

Lemma no_acquisition_resume conts k c d :
  Forall no_acquisition conts ->
  Forall no_acquisition (<[k := None]> conts ++ [Some (AwaitResume c d)]).
Proof.
  intros H. apply Forall_app. split; [now apply Forall_insert|].
  now repeat constructor.
Qed.

Lemma shut_alter_closing sks i :
  Forall shut sks -> Forall shut (alter closing i sks).
Proof.
  intros H. apply Forall_alter; [done|]. intros s _ Hs. now apply shut_closing.
Qed.

Lemma quiescent_step t e w w' :
  quiescent w -> fire (t, e) w = Some w' ->
  (e = StartNewSession /\ sessionStatus (react w') = idle)
  \/ (e = ConsentAccept /\ showConsentModal (react w) = true
      /\ is_Some (user (browser w))
      /\ sessionStatus (react w') = connecting)
  \/ (quiescent w' /\ statuses (log w') = statuses (log w)).
Proof.
  intros (Hs & Ha & Hsk & Hk) H. fire_inv H. destruct_world w.
  world_nf_in Hs. world_nf_in Ha. world_nf_in Hsk.
  world_nf_in Hk. subst. destruct usr.
  all: step_cases e Hstep; try discriminate; guard_facts; try congruence;
    shut_facts; try congruence; acquisition_facts.
  all: try (left; split; [reflexivity|]; to_wp; wp_go; reflexivity).
  all: try (right; left; split_and!; [reflexivity | world_nf; assumption
                                      | world_nf; eauto |];
            to_wp; wp_go; reflexivity).
  all: right; right; unfold quiescent; to_wp; wp_go.
  all: world_nf; cbn [app]; obs_nf; shut_facts.
  all: repeat case_match; split_and!; try reflexivity; try assumption.
  all: auto using no_acquisition_cleared, no_acquisition_resume,
         shut_alter_closing.
Qed.

(** C2, as amended. In every step of the session, [speaking] is set only
    by the handler of an inbound [audio] message and [connected] only by
    the handler of an inbound [status: connected] message, whatever the
    phase was (neither handler looks at it). [ended] and [error] are not
    terminal while something of the session is alive; once the phase is
    [ended] and the session is quiescent (reaper run, every socket closed
    with its close event delivered, no device acquisition pending), every
    callback leaves the phase and the quiescence as they are, and only two
    actions of the user change the phase: Start New Session, to [idle],
    and, where the consent dialog had been left open, Allow and Connect by
    a signed-in user, to [connecting]. *)
Theorem phases_enter_by_design (t : Z) (e : Event) (w w' : World) :
  fire (t, e) w = Some w' ->
  (entered speaking w w' ->
   exists i m, e = WsMessage i (Some m)
               /\ Json.is_str (message_type m) "audio" = true)
  /\ (entered connected w w' ->
      exists i m, e = WsMessage i (Some m)
                  /\ Json.is_str (message_type m) "status" = true
                  /\ Json.is_str (field m "status") "connected" = true)
  /\ (quiescent w ->
      (e = StartNewSession /\ sessionStatus (react w') = idle)
      \/ (e = ConsentAccept /\ showConsentModal (react w) = true
          /\ is_Some (user (browser w))
          /\ sessionStatus (react w') = connecting)
      \/ (quiescent w' /\ statuses (log w') = statuses (log w))).
Proof.
  intros H. destruct (entry_points t e w w' H) as [Hs Hc].
  split_and!; [exact Hs | exact Hc |].
  intros Hq. exact (quiescent_step t e w w' Hq H).
Qed.

Lemma quiescent_ended_world : quiescent ended_world.
Proof.
  unfold quiescent. vm_compute.
  split_and!; try reflexivity; repeat constructor.
Qed.

Lemma quiescent_dialog_open_world : quiescent dialog_open_world.
Proof.
  unfold quiescent. vm_compute.
  split_and!; try reflexivity; repeat constructor.
Qed.

Lemma phases_enter_by_design_witness :
  (exists w',
     fire (10, AudioProcess [1 # 2]%Q) ended_world = Some w' /\ quiescent w')
  /\ (exists w',
        fire (9, ConsentAccept) dialog_open_world = Some w'
        /\ sessionStatus (react w') = connecting).
Proof.
  split.
  - destruct (fire (10, AudioProcess [1 # 2]%Q) ended_world) as [w'|] eqn:E;
      [|vm_compute in E; discriminate E].
    exists w'. split; [reflexivity|].
    destruct (phases_enter_by_design _ _ _ _ E) as (_ & _ & H).
    destruct (H quiescent_ended_world) as [[He _]|[[He _]|[Hq _]]];
      [discriminate He | discriminate He | exact Hq].
  - destruct (fire (9, ConsentAccept) dialog_open_world) as [w'|] eqn:E;
      [|vm_compute in E; discriminate E].
    exists w'. split; [reflexivity|].
    destruct (phases_enter_by_design _ _ _ _ E) as (_ & _ & H).
    destruct (H quiescent_dialog_open_world)
      as [[He _]|[(_ & _ & _ & Hc)|[Hq _]]];
      [discriminate He | exact Hc |].
    vm_compute in E. injection E as <-.
    destruct Hq as [Hq _]. discriminate Hq.
Defined.

(** C2, as stated, fails. With a peer that sends audio before
    [status: connected], a transport that then fails, and a user who starts
    over, the phases run connecting, speaking, connected, listening, error,
    ended, idle: [speaking] is entered from [connecting], [connected] from
    [speaking], [error] is left for [ended] and [ended] for [idle]. *)
Lemma phases_not_ordered :
  (fun w => statuses (log w))
    <$> run unruly_trace (initial_world (Some "patient-1"%string))
  = Some [connecting; connecting; speaking; connected; listening; error;
          ended; idle]
  /\ ~ (forall tr w,
          run tr (initial_world (Some "patient-1"%string)) = Some w ->
          phases_ordered idle (statuses (log w)) = true).
Proof.
  split; [vm_compute; reflexivity|].
  intros H.
  destruct (run unruly_trace (initial_world (Some "patient-1"%string)))
    as [w|] eqn:E; [|vm_compute in E; discriminate E].
  specialize (H _ _ E). vm_compute in E. injection E as <-.
  vm_compute in H. discriminate H.
Qed.

(** ** Playback units never overlap, within one session *)

Lemma in_flight_snoc l o : in_flight (l ++ [o]) = monitor (in_flight l) o.
Proof. unfold in_flight. now rewrite fold_left_app. Qed.

Ltac flight_nf :=
  rewrite ?in_flight_snoc;
  repeat match goal with
    | H : in_flight _ = Some _ |- _ => rewrite H
    end;
  cbn [monitor].

Lemma not_started_step t e w w' :
  not_started w -> fire (t, e) w = Some w' -> one_session w'.
Proof.
  intros (Hs & Ha & Hsk & Hcx & Hnd & Htm & Hk & Hiv & Hpr & Hfl) H.
  fire_inv H. destruct_world w.
  world_nf_in Hs. world_nf_in Ha. world_nf_in Hsk. world_nf_in Hcx.
  world_nf_in Hnd. world_nf_in Htm. world_nf_in Hk. world_nf_in Hiv.
  world_nf_in Hpr. world_nf_in Hfl. subst.
  step_cases e Hstep; try discriminate; guard_facts; try congruence.
  all: unfold one_session, not_started, started; to_wp; wp_go.
  all: world_nf; cbn [app].
  all: first
    [ left; repeat case_match; split_and!;
      solve [ reflexivity | flight_nf; reflexivity ]
    | right; split_and!; [discriminate | reflexivity] ].
Qed.

Lemma started_step t e w w' :
  started w -> e <> StartNewSession -> fire (t, e) w = Some w' -> started w'.
Proof.
  intros (Hs & Hm) He H. fire_inv H. destruct_world w.
  world_nf_in Hs. world_nf_in Hm. subst.
  step_cases e Hstep; try discriminate; guard_facts; try congruence.
  all: unfold started; to_wp; wp_go.
  all: world_nf; split_and!; first [discriminate | assumption | reflexivity].
Qed.

Lemma not_started_settled w : not_started w -> settled w.
Proof.
  intros (_ & _ & _ & _ & _ & _ & Hk & _ & _ & Hfl).
  split; [exact Hfl | now rewrite Hk].
Qed.

Section FlightFacts.
Implicit Types (nds : list SourceNode) (ks : list (option Continuation)).

Lemma airborne_stop nd : airborne (stop_playing nd) = airborne nd.
Proof.
  unfold stop_playing, airborne.
  destruct (nodeState nd) eqn:E; cbn; rewrite ?E; reflexivity.
Qed.

Lemma only_airborne_stop nds i flying :
  only_airborne nds flying -> only_airborne (alter stop_playing i nds) flying.
Proof.
  intros H m nd Hm Ha.
  destruct (decide (i = m)) as [->|Hne].
  - rewrite list_lookup_alter_eq in Hm.
    destruct (nds !! m) as [nd0|] eqn:E; [|discriminate].
    cbn in Hm. injection Hm as <-. rewrite airborne_stop in Ha. eauto.
  - rewrite list_lookup_alter_ne in Hm by done. eauto.
Qed.

Lemma only_airborne_closed nds r flying :
  only_airborne nds flying ->
  only_airborne (on_ref r (alter stop_playing) nds) flying.
Proof. destruct r; cbn; [apply only_airborne_stop | done]. Qed.

Lemma only_airborne_start nds samples :
  only_airborne nds [] ->
  only_airborne
    (alter (set_nodeState Playing) (length nds)
           (nds ++ [{| buffer := samples; nodeState := Unscheduled |}]))
    [length nds].
Proof.
  intros H m nd Hm Ha.
  destruct (decide (length nds = m)) as [<-|Hne]; [done|].
  rewrite list_lookup_alter_ne in Hm by done.
  apply lookup_app_Some in Hm as [Hm|[Hge Hm]].
  - discriminate (H m nd Hm Ha).
  - apply list_lookup_singleton_Some in Hm as [Hz <-]. discriminate Ha.
Qed.

Lemma only_airborne_flying nds n st flying :
  only_airborne nds flying ->
  nodeState <$> nds !! n = Some st -> airborne_state st = true ->
  flying = [n].
Proof.
  intros H Hn Hst. destruct (nds !! n) as [nd|] eqn:E; [|discriminate].
  cbn in Hn. injection Hn as <-. exact (H n nd E Hst).
Qed.

Lemma only_airborne_finish nds n :
  only_airborne nds [n] ->
  only_airborne (alter (set_nodeState Finished) n nds) [].
Proof.
  intros H m nd Hm Ha.
  destruct (decide (n = m)) as [->|Hne].
  - rewrite list_lookup_alter_eq in Hm.
    destruct (nds !! m); [|discriminate]. cbn in Hm. injection Hm as <-.
    discriminate Ha.
  - rewrite list_lookup_alter_ne in Hm by done.
    pose proof (H m nd Hm Ha) as E. injection E as ->. done.
Qed.

Lemma pending_app ks c :
  pending_playback (ks ++ [c])
  = (pending_playback ks + (if is_paq c then 1 else 0))%nat.
Proof.
  unfold pending_playback. rewrite List.filter_app, length_app. cbn.
  now destruct (is_paq c).
Qed.

Lemma pending_clear ks k c :
  ks !! k = Some c ->
  (pending_playback ks
   = pending_playback (<[k := None]> ks) + (if is_paq c then 1 else 0))%nat.
Proof.
  intros H. unfold pending_playback.
  rewrite <- (take_drop_middle ks k c H) at 1.
  rewrite (insert_take_drop ks k None) by (eapply lookup_lt_Some; eauto).
  rewrite !List.filter_app, !length_app. cbn.
  destruct (is_paq c); cbn; lia.
Qed.
End FlightFacts.

Ltac pending_facts :=
  repeat match goal with
    | H : ?ks !! ?k = Some ?c |- _ =>
        lazymatch type of ks with
        | list (option Continuation) =>
            lazymatch goal with
            | _ : pending_playback ks
                  = (pending_playback (<[k := None]> ks) + _)%nat |- _ => fail
            | _ =>
                let E := fresh "Hpend" in
                pose proof (pending_clear ks k c H) as E; cbn [is_paq] in E
            end
        end
    end.

Ltac flying_facts :=
  repeat match goal with
    | Ha : only_airborne ?nds ?fl, H : nodeState <$> ?nds !! ?n = Some ?st |- _ =>
        lazymatch fl with
        | [n] => fail
        | _ =>
            let E := fresh "Hfly" in
            assert (E : fl = [n])
              by (exact (only_airborne_flying nds n st fl Ha H eq_refl));
            first [ discriminate E | injection E as -> | subst fl ]
        end
    end.

Lemma coherent_step t e w w' :
  coherent w -> (e = ConsentAccept -> settled w) ->
  fire (t, e) w = Some w' -> coherent w'.
Proof.
  intros (flying & Hfl & Hair & Hact) Hset H.
  fire_inv H. destruct_world w. unfold settled in Hset.
  world_nf_in Hfl. world_nf_in Hair. world_nf_in Hact. world_nf_in Hset.
  rewrite Hfl in Hset.
  destruct active;
    [destruct (Hact eq_refl) as (Hp & Hle & Hone); clear Hact;
     destruct flying as [|n0 fl0];
     [|specialize (Hp ltac:(discriminate)); subst playing]
    |clear Hact].
  all: step_cases e Hstep; try discriminate; guard_facts; try congruence.
  all: try (destruct (Hset eq_refl) as [Hset1 Hset2];
            first [discriminate Hset1 | clear Hset]).
  all: pending_facts; flying_facts.
  all: try (destruct Hone as [_ Hone]; [lia | discriminate Hone]).
  all: unfold coherent; to_wp; wp_go.
  all: world_nf; cbn [app]; guard_facts; subst.
  all: try match goal with
         | Hone : pending_playback ?ks = 1%nat -> _ |- _ =>
             assert (pending_playback ks <> 1%nat)
               by (intros E; destruct (Hone E); congruence)
         end.
  all: eexists; split_and!;
    [ flight_nf;
      repeat progress
        (cbn [monitor List.filter negb]; rewrite ?Nat.eqb_refl);
      reflexivity
    | repeat case_match;
      eauto using only_airborne_stop, only_airborne_start,
        only_airborne_finish
    | intros Hactive; try discriminate Hactive;
      rewrite ?pending_app; cbn [is_paq];
      split_and!; intros; try split;
      first [ congruence | lia
            | destruct Hone as [? ?]; [lia | congruence]
            | idtac ] ].
Qed.


Lemma coherent_initial u : coherent (initial_world u).
Proof.
  exists []. split_and!; [reflexivity | intros ? ? Hl; discriminate Hl |].
  intros Ha. discriminate Ha.
Qed.

Lemma orderly_run tr w w' :
  coherent w -> orderly tr w -> run tr w = Some w' -> coherent w'.
Proof.
  revert w. induction tr as [|[t e] tr IH]; intros w Hw Ho H; cbn in H, Ho.
  - now injection H as <-.
  - destruct (fire (t, e) w) as [w1|] eqn:Hf; [|discriminate].
    destruct Ho as [Hset Ho].
    exact (IH w1 (coherent_step t e w w1 Hw Hset Hf) Ho H).
Qed.

Lemma one_session_step t e w w' :
  one_session w -> e <> StartNewSession -> fire (t, e) w = Some w' ->
  one_session w'.
Proof.
  intros [Hw|Hw] He H.
  - exact (not_started_step t e w w' Hw H).
  - right. exact (started_step t e w w' Hw He H).
Qed.

Lemma started_no_consent t w : started w -> fire (t, ConsentAccept) w = None.
Proof.
  intros [_ Hm]. unfold fire. cbn [fst snd].
  destruct (_ <? _); [reflexivity|].
  unfold step. destruct_world w. world_nf_in Hm. subst. world_nf.
  now rewrite andb_false_r.
Qed.

(** A trace in which the user never starts over is orderly. *)
Lemma single_session_orderly tr w :
  one_session w -> single_session tr -> orderly tr w.
Proof.
  revert w. induction tr as [|[t e] tr IH]; intros w Hw Hs; cbn; [done|].
  destruct (fire (t, e) w) as [w1|] eqn:Hf; [|done].
  inversion Hs as [|? ? He Hs']; subst. cbn in He. split.
  - cbn. intros ->. destruct Hw as [Hw|Hw].
    + now apply not_started_settled.
    + rewrite (started_no_consent t w Hw) in Hf. discriminate Hf.
  - exact (IH w1 (one_session_step t e w w1 Hw He Hf) Hs').
Qed.

Lemma one_session_initial u : one_session (initial_world u).
Proof. left. unfold not_started. cbn. split_and!; reflexivity. Qed.

(** Where the sessions follow one another in an orderly way, that is,
    where the user consents to a new session only once the playback of the
    previous one has settled, no playback unit starts before the completion
    callback of every unit started earlier has fired, whatever the order
    in which the browser delivers messages, timers, promise settlements,
    completion callbacks, errors and user actions. A trace with a single
    session is orderly. *)
Lemma orderly_units_never_overlap
  (u : option string) (tr : list (Z * Event)) (w : World) :
  orderly tr (initial_world u) ->
  run tr (initial_world u) = Some w ->
  no_overlap (log w).
Proof.
  intros Ho Hrun.
  destruct (orderly_run tr _ w (coherent_initial u) Ho Hrun)
    as (flying & Hfl & _).
  unfold no_overlap. rewrite Hfl. eauto.
Qed.

Lemma two_sessions_never_overlap :
  exists w,
    run two_sessions_trace (initial_world (Some "patient-1"%string)) = Some w
    /\ length (starts (log w)) = 3%nat
    /\ no_overlap (log w).
Proof.
  destruct (run two_sessions_trace (initial_world (Some "patient-1"%string)))
    as [w|] eqn:E; [|vm_compute in E; discriminate E].
  exists w. split; [reflexivity|]. split.
  - vm_compute in E. injection E as <-. reflexivity.
  - apply (orderly_units_never_overlap (Some "patient-1"%string)
             two_sessions_trace w); [|exact E].
    vm_compute. repeat split; intros; first [reflexivity | discriminate].
Qed.

(** C6, at the failing input. The user ends the session while unit 0
    plays and starts over; the second session starts unit 1; then the
    [ended] event of node 0, which the reaper stopped, is delivered and its
    handler clears the in-flight flag although unit 1 is playing. The next
    chunk therefore starts unit 2 while unit 1 plays: two nodes play at
    once, and the completion callback of unit 1 has not fired. *)
Theorem playback_units_overlap_after_restart :
  exists w1 w,
    run stale_trace (initial_world (Some "patient-1"%string)) = Some w1
    /\ nodeState <$> nodes (browser w1) = [Finished; Playing]
    /\ isPlayingAudioRef (refs w1) = false
    /\ run overlap_trace w1 = Some w
    /\ nodeState <$> nodes (browser w) = [Finished; Playing; Playing]
    /\ fst <$> starts (log w) = [0; 1; 2]%nat
    /\ ~ In (PlaybackEnded 1) (log w)
    /\ ~ no_overlap (log w).
Proof.
  destruct (run stale_trace (initial_world (Some "patient-1"%string)))
    as [w1|] eqn:E1; [|vm_compute in E1; discriminate E1].
  vm_compute in E1. injection E1 as <-.
  match goal with
  | |- exists w1 w, Some ?v = _ /\ _ => set (w1 := v)
  end.
  destruct (run overlap_trace w1) as [w|] eqn:E2;
    [|vm_compute in E2; discriminate E2].
  vm_compute in E2. injection E2 as <-.
  eexists _, _. split; [reflexivity|].
  split; [reflexivity|]. split; [reflexivity|].
  split; [vm_compute; reflexivity|].
  split; [reflexivity|]. split; [reflexivity|]. split.
  - intros H. vm_compute in H. intuition discriminate.
  - intros [x Hx]. vm_compute in Hx. discriminate Hx.
Qed.

(** ** A burst of three chunks coalesces into one unit *)

Lemma fire_now t e w w' : fire (t, e) w = Some w' -> now (browser w') = t.
Proof.
  intros H. fire_inv H. destruct_world w.
  step_cases e Hstep.
  all: to_wp; wp_go; reflexivity.
Qed.

Lemma fire_time t e w w' : fire (t, e) w = Some w' -> now (browser w) <= t.
Proof.
  unfold fire. cbn [fst snd].
  destruct (t <? now (browser w)) eqn:E; [discriminate|].
  intros _. now apply Z.ltb_ge in E.
Qed.

Lemma run_now tr w w' :
  run tr w = Some w' -> now (browser w) <= now (browser w').
Proof.
  revert w. induction tr as [|[t e] tr IH]; intros w H; cbn in H.
  - injection H as <-. lia.
  - destruct (fire (t, e) w) as [w1|] eqn:Hf; [|discriminate].
    pose proof (fire_time _ _ _ _ Hf). pose proof (fire_now _ _ _ _ Hf).
    specialize (IH _ H). lia.
Qed.

Lemma collecting_message S0 T q t i d b w w' :
  collecting S0 T q w -> Base64.atob d = Some b -> T <= t + 150 ->
  fire (t, WsMessage i (Some (audio_message d))) w = Some w' ->
  collecting S0 T (q ++ [b]) w'.
Proof.
  intros (Ha & Hp & Hq & Htm & Hht & Hpd & Hair & Hst) Hd HT H.
  fire_inv H. destruct_world w.
  world_nf_in Ha. world_nf_in Hp. world_nf_in Hq. world_nf_in Htm.
  world_nf_in Hpd. world_nf_in Hair. world_nf_in Hst. subst.
  unfold step in Hstep; world_nf_in Hstep.
  repeat case_match; simplify_eq.
  unfold collecting, has_timer. to_wp. unfold audio_message. wp_go.
  all: world_nf; obs_nf.
  split_and!; try done.
  - apply Forall_app. split; [done|]. repeat constructor. exact HT.
  - intros _. eexists _, _. apply lookup_snoc.
Qed.

Ltac timer_facts :=
  repeat match goal with
    | Ht : Forall (due_after ?T) ?tmo, H : ?tmo !! ?k = Some (Some ?z) |- _ =>
        lazymatch goal with
        | _ : T <= z |- _ => fail
        | _ => assert (T <= z) by exact (Forall_lookup_1 _ _ _ _ Ht H)
        end
    end.

Lemma collecting_early S0 T q t e w w' :
  collecting S0 T q w -> benign e = true -> t < T ->
  fire (t, e) w = Some w' ->
  collecting S0 T q w'.
Proof.
  intros (Ha & Hp & Hq & Htm & Hht & Hpd & Hair & Hst) He HT H.
  fire_inv H. destruct_world w. unfold has_timer in Hht.
  world_nf_in Ha. world_nf_in Hp. world_nf_in Hq. world_nf_in Htm.
  world_nf_in Hpd. world_nf_in Hair. world_nf_in Hst. world_nf_in Hht. subst.
  step_cases e Hstep; try discriminate; guard_facts; try congruence.
  all: pending_facts; flying_facts; timer_facts; try lia.
  all: unfold collecting, has_timer; to_wp; wp_go.
  all: world_nf; obs_nf.
  all: split_and!; first [done | lia].
Qed.

Lemma no_pending_carries pcm ks :
  pending_playback ks = 0%nat -> Forall (carries pcm) ks.
Proof.
  unfold pending_playback. induction ks as [|c ks IH]; cbn; [constructor|].
  destruct (is_paq c) eqn:E; cbn; [discriminate|].
  intros H. constructor; [|auto].
  destruct c as [[]|]; cbn in E; first [discriminate E | exact I].
Qed.

Lemma carries_cleared pcm ks k :
  Forall (carries pcm) ks -> Forall (carries pcm) (<[k := None]> ks).
Proof. intros H. now apply Forall_insert. Qed.

Lemma carries_app pcm ks c :
  Forall (carries pcm) ks -> carries pcm c -> Forall (carries pcm) (ks ++ [c]).
Proof. intros H Hc. apply Forall_app. split; [done|]. now repeat constructor. Qed.

Lemma carries_lookup pcm ks k c :
  Forall (carries pcm) ks -> ks !! k = Some c -> carries pcm c.
Proof. intros H Hk. exact (Forall_lookup_1 _ _ _ _ H Hk). Qed.

Lemma due_after_cleared T tmo k :
  Forall (due_after T) tmo -> Forall (due_after T) (<[k := None]> tmo).
Proof. intros H. now apply Forall_insert. Qed.

Lemma length_zero_nil {A} (l : list A) : (length l =? 0)%nat = true -> l = [].
Proof. destruct l; [done | discriminate]. Qed.

Lemma length_pos_cons {A} (l : list A) : (length l =? 0)%nat = false -> l <> [].
Proof. destruct l; [discriminate | done]. Qed.

Ltac samples_back :=
  repeat match goal with
    | H : List.map Encoder.to_float32 ?p = _ :: _ |- _ =>
        rewrite <- H in *; clear H
    | H : List.map Encoder.to_float32 ?p = [] |- _ => congruence
    end.

Ltac queue_facts :=
  repeat match goal with
    | H : (length ?l =? 0)%nat = true |- _ =>
        apply length_zero_nil in H; subst
    | H : (length ?l =? 0)%nat = false |- _ => apply length_pos_cons in H
    end.

Ltac stage_solve :=
  split_and!;
  first [ done | lia
        | rewrite ?pending_app; cbn [is_paq]; lia
        | solve [eauto using no_pending_carries, carries_cleared,
                   carries_app, due_after_cleared, only_airborne_start,
                   only_airborne_finish]
        | apply carries_app;
          [ solve [eauto using no_pending_carries, carries_cleared]
          | reflexivity ] ].

Lemma collecting_full S0 T q pcm t e w w' :
  collecting S0 T q w -> benign e = true ->
  TypedArray.Int16_view (concat q) = Some pcm -> pcm <> [] ->
  fire (t, e) w = Some w' ->
  collecting S0 T q w'
  \/ waiting S0 pcm w'
  \/ sounding S0 (List.map Encoder.to_float32 pcm) w'.
Proof.
  intros (Ha & Hp & Hq & Htm & Hht & Hpd & Hair & Hst) He Hpcm Hne H.
  assert (Hsamples : List.map Encoder.to_float32 pcm <> [])
    by (destruct pcm; [congruence | discriminate]).
  fire_inv H. destruct_world w. unfold has_timer in Hht.
  world_nf_in Ha. world_nf_in Hp. world_nf_in Hq. world_nf_in Htm.
  world_nf_in Hpd. world_nf_in Hair. world_nf_in Hst. world_nf_in Hht. subst.
  step_cases e Hstep; try discriminate; guard_facts; try congruence.
  all: pending_facts; flying_facts; try lia.
  all: unfold collecting, waiting, sounding, has_timer; to_wp; wp_go.
  all: world_nf; obs_nf; guard_facts; queue_facts; samples_back.
  all: try congruence.
  all: first
    [ left; solve [stage_solve]
    | right; left; solve [stage_solve]
    | right; right; split_and!; try done; try lia;
      eexists; split; [solve [eauto using only_airborne_start] | reflexivity]
    ].
Qed.

Ltac carry_facts :=
  repeat match goal with
    | Hc : Forall (carries ?pcm) ?ks,
      H : ?ks !! ?k = Some (Some (AwaitRouting _ ?d)) |- _ =>
        assert (d = pcm) by exact (carries_lookup pcm ks k _ Hc H); subst d
    | Hc : Forall (carries ?pcm) ?ks,
      H : ?ks !! ?k = Some (Some (AwaitResume _ ?d)) |- _ =>
        assert (d = pcm) by exact (carries_lookup pcm ks k _ Hc H); subst d
    end.

Lemma waiting_step S0 pcm t e w w' :
  waiting S0 pcm w -> benign e = true -> pcm <> [] ->
  fire (t, e) w = Some w' ->
  waiting S0 pcm w' \/ sounding S0 (List.map Encoder.to_float32 pcm) w'.
Proof.
  intros (Ha & Hp & Hq & Hpd & Hc & Hair & Hst) He Hne H.
  assert (Hsamples : List.map Encoder.to_float32 pcm <> [])
    by (destruct pcm; [congruence | discriminate]).
  fire_inv H. destruct_world w.
  world_nf_in Ha. world_nf_in Hp. world_nf_in Hq. world_nf_in Hc.
  world_nf_in Hpd. world_nf_in Hair. world_nf_in Hst. subst.
  step_cases e Hstep; try discriminate; guard_facts; try congruence.
  all: pending_facts; flying_facts; carry_facts; try lia.
  all: unfold waiting, sounding; to_wp; wp_go.
  all: world_nf; obs_nf; guard_facts; queue_facts; samples_back.
  all: try congruence.
  all: first
    [ left; solve [stage_solve]
    | right; split_and!; try done; try lia;
      eexists; split; [solve [eauto using only_airborne_start] | reflexivity]
    ].
Qed.

Lemma sounding_step S0 samples t e w w' :
  sounding S0 samples w -> benign e = true ->
  fire (t, e) w = Some w' ->
  sounding S0 samples w' \/ finished S0 samples w'.
Proof.
  intros (Ha & Hp & Hq & Hpd & n & Hair & Hst) He H.
  fire_inv H. destruct_world w.
  world_nf_in Ha. world_nf_in Hp. world_nf_in Hq.
  world_nf_in Hpd. world_nf_in Hair. world_nf_in Hst. subst.
  step_cases e Hstep; try discriminate; guard_facts; try congruence.
  all: pending_facts; flying_facts; try lia.
  all: unfold sounding, finished; to_wp; wp_go.
  all: world_nf; obs_nf; guard_facts; queue_facts.
  all: try congruence; try (cbn in *; congruence).
  all: first
    [ left; split_and!; try done; try lia;
      eexists; split; [eassumption | eassumption]
    | right; split_and!; try done; try lia;
      [ solve [eauto using only_airborne_finish] | eexists; eassumption ]
    ].
Qed.

Lemma finished_step S0 samples t e w w' :
  finished S0 samples w -> benign e = true ->
  fire (t, e) w = Some w' ->
  finished S0 samples w'.
Proof.
  intros (Ha & Hp & Hq & Hpd & Hair & n & Hst) He H.
  fire_inv H. destruct_world w.
  world_nf_in Ha. world_nf_in Hp. world_nf_in Hq.
  world_nf_in Hpd. world_nf_in Hair. world_nf_in Hst. subst.
  step_cases e Hstep; try discriminate; guard_facts; try congruence.
  all: pending_facts; flying_facts; try lia.
  all: unfold finished; to_wp; wp_go.
  all: world_nf; obs_nf; guard_facts; queue_facts.
  all: try congruence; try (cbn in *; congruence).
  all: split_and!; try done; try lia; eexists; eassumption.
Qed.

(** The stages a burst goes through once its three chunks are queued. *)
Lemma burst_late S0 T q pcm tr w w' :
  TypedArray.Int16_view (concat q) = Some pcm -> pcm <> [] ->
  Forall (fun te => benign (snd te) = true) tr ->
  collecting S0 T q w
  \/ waiting S0 pcm w
  \/ sounding S0 (List.map Encoder.to_float32 pcm) w
  \/ finished S0 (List.map Encoder.to_float32 pcm) w ->
  run tr w = Some w' ->
  collecting S0 T q w'
  \/ waiting S0 pcm w'
  \/ sounding S0 (List.map Encoder.to_float32 pcm) w'
  \/ finished S0 (List.map Encoder.to_float32 pcm) w'.
Proof.
  intros Hpcm Hne. revert w.
  induction tr as [|[t e] tr IH]; intros w Hb Hw H; cbn in H.
  - now injection H as <-.
  - destruct (fire (t, e) w) as [w1|] eqn:Hf; [|discriminate].
    inversion Hb as [|? ? He Hb']; subst. cbn in He.
    apply (IH w1 Hb'); [|exact H].
    destruct Hw as [Hw|[Hw|[Hw|Hw]]].
    + destruct (collecting_full S0 T q pcm t e w w1 Hw He Hpcm Hne Hf)
        as [?|[?|?]]; auto.
    + destruct (waiting_step S0 pcm t e w w1 Hw He Hne Hf) as [?|?]; auto.
    + destruct (sounding_step S0 _ t e w w1 Hw He Hf) as [?|?]; auto.
    + pose proof (finished_step S0 _ t e w w1 Hw He Hf). auto.
Qed.

(** Between the chunks no debounce timer is due yet. *)
Lemma burst_early S0 T q tr w w' :
  Forall (fun te => benign (snd te) = true) tr ->
  collecting S0 T q w ->
  run tr w = Some w' ->
  now (browser w') < T ->
  collecting S0 T q w'.
Proof.
  revert w. induction tr as [|[t e] tr IH]; intros w Hb Hw H HT; cbn in H.
  - now injection H as <-.
  - destruct (fire (t, e) w) as [w1|] eqn:Hf; [|discriminate].
    inversion Hb as [|? ? He Hb']; subst. cbn in He.
    pose proof (fire_now _ _ _ _ Hf). pose proof (run_now _ _ _ H).
    apply (IH w1 Hb'); [|exact H|exact HT].
    apply (collecting_early S0 T q t e w w1 Hw He); [lia | exact Hf].
Qed.

Lemma calm_collecting T w : calm w -> collecting (starts (log w)) T [] w.
Proof.
  intros (Ha & Hp & Hq & Htm & Hpd & Hair).
  split_and!; try done.
  eapply Forall_impl; [exact Htm|]. intros o ->. exact I.
Qed.






Lemma run_cons te tr w w' :
  run (te :: tr) w = Some w' ->
  exists w1, fire te w = Some w1 /\ run tr w1 = Some w'.
Proof. cbn. destruct (fire te w) as [w1|]; [eauto | discriminate]. Qed.

Lemma run_app_inv tr1 tr2 w w' :
  run (tr1 ++ tr2) w = Some w' ->
  exists w1, run tr1 w = Some w1 /\ run tr2 w1 = Some w'.
Proof.
  rewrite run_app. destruct (run tr1 w) as [w1|]; cbn; [eauto | discriminate].
Qed.

(** C5, as amended. On a session marked active with nothing queued,
    scheduled, suspended or playing, let three inbound [audio] messages
    with decodable payloads arrive within 100 ms, with any capture ticks,
    video ticks, timers, fulfilled awaits, completion callbacks and
    context state changes in between and after, and let their decoded
    bytes form well-formed PCM (an even, non-zero number of bytes). Then
    at most one playback unit is started, and once every timer has fired
    and no run of the queue processor is suspended, exactly one unit has
    been started, its samples are the three decoded buffers concatenated
    in arrival order, and the queue is empty. *)
Theorem burst_coalesces_into_one_unit
  (w : World) (i : nat) (t1 t2 t3 : Z) (d1 d2 d3 : string)
  (b1 b2 b3 pcm : list Z) (A B C : list (Z * Event)) (w' : World) :
  calm w ->
  Base64.atob d1 = Some b1 ->
  Base64.atob d2 = Some b2 ->
  Base64.atob d3 = Some b3 ->
  TypedArray.Int16_view (b1 ++ b2 ++ b3) = Some pcm ->
  pcm <> [] ->
  t3 - t1 <= 100 ->
  Forall (fun te => benign (snd te) = true) (A ++ B ++ C) ->
  run (burst i t1 t2 t3 d1 d2 d3 A B C) w = Some w' ->
  (starts (log w') = starts (log w)
   \/ exists n, starts (log w')
                = starts (log w) ++ [(n, List.map Encoder.to_float32 pcm)])
  /\ (drained w' ->
      (exists n, starts (log w')
                 = starts (log w) ++ [(n, List.map Encoder.to_float32 pcm)])
      /\ audioQueueRef2 (refs w') = []).
Proof.
  intros Hcalm Hd1 Hd2 Hd3 Hpcm Hne Hclose Hb Hrun.
  apply Forall_app in Hb as [HbA Hb]. apply Forall_app in Hb as [HbB HbC].
  unfold burst in Hrun.
  apply run_cons in Hrun as (w1 & Hf1 & Hrun).
  apply run_app_inv in Hrun as (wA & HrA & Hrun).
  apply run_cons in Hrun as (w2 & Hf2 & Hrun).
  apply run_app_inv in Hrun as (wB & HrB & Hrun).
  apply run_cons in Hrun as (w3 & Hf3 & HrC).
  pose proof (fire_now _ _ _ _ Hf1). pose proof (fire_now _ _ _ _ Hf2).
  pose proof (fire_time _ _ _ _ Hf2). pose proof (fire_time _ _ _ _ Hf3).
  pose proof (run_now _ _ _ HrA). pose proof (run_now _ _ _ HrB).
  set (S0 := starts (log w)). set (T := t1 + 150).
  pose proof (calm_collecting T w Hcalm) as Hc0. fold S0 in Hc0.
  pose proof (collecting_message S0 T [] t1 i d1 b1 w w1 Hc0 Hd1
                ltac:(subst T; lia) Hf1) as Hc1.
  pose proof (burst_early S0 T _ A w1 wA HbA Hc1 HrA ltac:(subst T; lia)) as HA.
  pose proof (collecting_message S0 T _ t2 i d2 b2 wA w2 HA Hd2
                ltac:(subst T; lia) Hf2) as Hc2.
  pose proof (burst_early S0 T _ B w2 wB HbB Hc2 HrB ltac:(subst T; lia)) as HB.
  pose proof (collecting_message S0 T _ t3 i d3 b3 wB w3 HB Hd3
                ltac:(subst T; lia) Hf3) as Hc3.
  cbn [app] in Hc3.
  assert (Hpcm' : TypedArray.Int16_view (concat [b1; b2; b3]) = Some pcm).
  { cbn [concat]. now rewrite app_nil_r. }
  pose proof (burst_late S0 T _ pcm C w3 w' Hpcm' Hne HbC (or_introl Hc3) HrC)
    as Hend.
  destruct Hend as [Hw|[Hw|[Hw|Hw]]].
  - destruct Hw as (_ & _ & _ & _ & Hht & _ & _ & Hst). split; [now left|].
    intros [Hdr _]. destruct (Hht ltac:(discriminate)) as (k & z & Hk).
    pose proof (Forall_lookup_1 _ _ _ _ Hdr Hk). discriminate.
  - destruct Hw as (_ & _ & _ & Hpd & _ & _ & Hst). split; [now left|].
    intros [_ Hdr]. rewrite Hdr in Hpd. discriminate.
  - destruct Hw as (_ & _ & Hq & _ & n & _ & Hst). split; [right; eauto|].
    intros _. split; [eauto | exact Hq].
  - destruct Hw as (_ & _ & Hq & _ & _ & n & Hst). split; [right; eauto|].
    intros _. split; [eauto | exact Hq].
Qed.

Lemma calm_live_world : calm live_world.
Proof.
  unfold calm. vm_compute. split_and!; try reflexivity; try constructor.
  intros m nd Hl. destruct m; discriminate Hl.
Qed.

Lemma burst_coalesces_into_one_unit_witness :
  exists w',
    run burst_example live_world = Some w'
    /\ (exists n,
          starts (log w')
          = starts (log live_world)
            ++ [(n, List.map Encoder.to_float32
                      [513; -253; 1284; 1798; 2312; 2826])])
    /\ audioQueueRef2 (refs w') = [].
Proof.
  destruct (run burst_example live_world) as [w'|] eqn:E;
    [|vm_compute in E; discriminate E].
  exists w'. split; [reflexivity|].
  assert (Hd : drained w').
  { vm_compute in E. injection E as <-. split; [|reflexivity].
    repeat constructor. }
  destruct (burst_coalesces_into_one_unit live_world 0%nat 10 50 90
              "AQID/w==" "BAUGBw==" "CAkKCw=="
              [1; 2; 3; 255] [4; 5; 6; 7] [8; 9; 10; 11]
              [513; -253; 1284; 1798; 2312; 2826]
              [(20, AudioProcess [1 # 2]%Q)] []
              [(160, TimerFire 0); (161, PromiseSettled 1 Fulfilled);
               (200, TimerFire 1); (240, TimerFire 2);
               (250, PromiseSettled 2 Fulfilled); (900, NodeEnded 0)]
              w' calm_live_world) as [_ H].
  - vm_compute; reflexivity.
  - vm_compute; reflexivity.
  - vm_compute; reflexivity.
  - vm_compute; reflexivity.
  - discriminate.
  - lia.
  - repeat constructor.
  - exact E.
  - exact (H Hd).
Defined.

(** C5, as stated, fails. On the listening session, with no unit in flight
    and nothing queued, three decodable [audio] messages arrive 40 ms
    apart and every timer fires. When the payloads hold nine bytes in all,
    [new Int16Array] throws before the [try]: no unit is ever started and
    the in-flight flag stays set. When the three payloads are empty,
    [createBuffer] rejects the zero length inside the [try]: no unit is
    started either. *)
Lemma burst_may_start_no_unit :
  calm live_world
  /\ starts (log live_world) = []
  /\ (exists w',
        run odd_burst live_world = Some w'
        /\ drained w'
        /\ starts (log w') = []
        /\ isPlayingAudioRef (refs w') = true)
  /\ (exists w',
        run empty_burst live_world = Some w'
        /\ drained w'
        /\ starts (log w') = []).
Proof.
  split; [exact calm_live_world|]. split; [reflexivity|]. split.
  - destruct (run odd_burst live_world) as [w'|] eqn:E;
      [|vm_compute in E; discriminate E].
    exists w'. split; [reflexivity|].
    vm_compute in E. injection E as <-.
    split_and!; try reflexivity. split; [repeat constructor | reflexivity].
  - destruct (run empty_burst live_world) as [w'|] eqn:E;
      [|vm_compute in E; discriminate E].
    exists w'. split; [reflexivity|].
    vm_compute in E. injection E as <-.
    split_and!; try reflexivity. split; [repeat constructor | reflexivity].
Qed.
(** ** Base64 and the typed-array views *)

Section Enumeration.
(** A boolean property checked on every number below [n] holds below [n]. *)
Lemma below_forall (P : Z -> bool) (n : nat) :
  forallb P (List.map Z.of_nat (seq 0 n)) = true ->
  forall z, 0 <= z < Z.of_nat n -> P z = true.
Proof.
  intros H z Hz. rewrite forallb_forall in H. apply H.
  apply in_map_iff. exists (Z.to_nat z). split; [lia|].
  apply in_seq. lia.
Qed.

Lemma below_forall2 (P : Z -> Z -> bool) (n m : nat) :
  forallb (fun a => forallb (P a) (List.map Z.of_nat (seq 0 m)))
          (List.map Z.of_nat (seq 0 n)) = true ->
  forall a b, 0 <= a < Z.of_nat n -> 0 <= b < Z.of_nat m -> P a b = true.
Proof.
  intros H a b Ha Hb.
  pose proof (below_forall _ n H a Ha) as H1. cbv beta in H1.
  exact (below_forall _ m H1 b Hb).
Qed.
End Enumeration.

Section Base64Facts.
Import Base64.

Lemma list_ind3 {A} (P : list A -> Prop) :
  P [] -> (forall a, P [a]) -> (forall a b, P [a; b]) ->
  (forall a b c r, P r -> P (a :: b :: c :: r)) ->
  forall l, P l.
Proof.
  intros H0 H1 H2 H3.
  assert (H : forall l, P l /\ (forall a, P (a :: l))
                        /\ (forall a b, P (a :: b :: l))).
  { induction l as [|x l (IH0 & IH1 & IH2)].
    - split_and!; auto.
    - split_and!; auto. }
  intros l. apply H.
Qed.

Lemma value_digit n : 0 <= n < 64 -> value (digit n) = Some n.
Proof.
  intros H.
  pose proof (below_forall
                (fun n => match value (digit n) with
                          | Some m => m =? n
                          | None => false
                          end) 64 ltac:(vm_compute; reflexivity) n H) as E.
  cbv beta in E. destruct (value (digit n)); [|discriminate].
  apply Z.eqb_eq in E. now subst.
Qed.

Lemma digit_plain n :
  0 <= n < 64 ->
  is_space (digit n) = false /\ digit n <> "="%char /\ digit n <> ","%char.
Proof.
  intros H.
  pose proof (below_forall
                (fun n => negb (is_space (digit n))
                          && negb (Ascii.eqb (digit n) "=")
                          && negb (Ascii.eqb (digit n) ","))
                64 ltac:(vm_compute; reflexivity) n H) as E.
  cbv beta in E. apply andb_true_iff in E as [E E3].
  apply andb_true_iff in E as [E1 E2].
  apply negb_true_iff in E1, E2, E3.
  apply Ascii.eqb_neq in E2, E3. done.
Qed.

(** The bit manipulations of the encoder and of the decoder, byte by
    byte. *)
Lemma sextet_facts a b :
  is_byte a -> is_byte b ->
  let d1 := Z.shiftr a 2 in
  let d2 := Z.lor (Z.shiftl (Z.land a 3) 4) (Z.shiftr b 4) in
  let d3 := Z.shiftl (Z.land a 15) 2 in
  let d3' := Z.lor (Z.shiftl (Z.land a 15) 2) (Z.shiftr b 6) in
  let d4 := Z.land a 63 in
  (0 <= d1 < 64) /\ (0 <= d2 < 64) /\ (0 <= d3 < 64) /\ (0 <= d3' < 64)
  /\ (0 <= d4 < 64)
  /\ (0 <= Z.shiftl (Z.land a 3) 4 < 64)
  /\ Z.lor (Z.shiftl d1 2) (Z.shiftr d2 4) = a
  /\ Z.lor (Z.shiftl d1 2) (Z.shiftr (Z.shiftl (Z.land a 3) 4) 4) = a
  /\ Z.land d2 15 = Z.shiftr b 4
  /\ Z.shiftr d3' 2 = Z.land a 15
  /\ Z.shiftr d3 2 = Z.land a 15
  /\ Z.land d3' 3 = Z.shiftr b 6
  /\ Z.lor (Z.shiftl (Z.shiftr a 4) 4) (Z.land a 15) = a
  /\ Z.lor (Z.shiftl (Z.shiftr a 6) 6) (Z.land a 63) = a.
Proof.
  intros Ha Hb.
  set (chk := fun a b : Z =>
    let d1 := Z.shiftr a 2 in
    let d2 := Z.lor (Z.shiftl (Z.land a 3) 4) (Z.shiftr b 4) in
    let d3 := Z.shiftl (Z.land a 15) 2 in
    let d3' := Z.lor (Z.shiftl (Z.land a 15) 2) (Z.shiftr b 6) in
    let d4 := Z.land a 63 in
    let small := fun d => (0 <=? d) && (d <? 64) in
    small d1 && small d2 && small d3 && small d3' && small d4
    && small (Z.shiftl (Z.land a 3) 4)
    && (Z.lor (Z.shiftl d1 2) (Z.shiftr d2 4) =? a)
    && (Z.lor (Z.shiftl d1 2) (Z.shiftr (Z.shiftl (Z.land a 3) 4) 4) =? a)
    && (Z.land d2 15 =? Z.shiftr b 4)
    && (Z.shiftr d3' 2 =? Z.land a 15)
    && (Z.shiftr d3 2 =? Z.land a 15)
    && (Z.land d3' 3 =? Z.shiftr b 6)
    && (Z.lor (Z.shiftl (Z.shiftr a 4) 4) (Z.land a 15) =? a)
    && (Z.lor (Z.shiftl (Z.shiftr a 6) 6) (Z.land a 63) =? a)).
  pose proof (below_forall2 chk 256 256 ltac:(vm_compute; reflexivity)
                a b Ha Hb) as E.
  subst chk. cbv beta zeta in E.
  repeat match goal with
         | H : (_ && _) = true |- _ => apply andb_true_iff in H as [? ?]
         end.
  repeat match goal with
         | H : (_ =? _) = true |- _ => apply Z.eqb_eq in H
         | H : (_ <=? _) = true |- _ => apply Z.leb_le in H
         | H : (_ <? _) = true |- _ => apply Z.ltb_lt in H
         end.
  cbv zeta. split_and!; assumption.
Qed.

Lemma encode_sextets bytes :
  Forall is_byte bytes ->
  encode bytes
  = List.map digit (sextets bytes) ++ repeat "="%char (padding (length bytes)).
Proof.
  induction bytes as [| a | a b | a b c r IH] using list_ind3; intros H.
  - reflexivity.
  - reflexivity.
  - reflexivity.
  - cbn [encode sextets List.map app]. rewrite IH.
    + do 4 f_equal. f_equal. unfold padding. cbn [length].
      replace (S (S (S (length r)))) with (length r + 1 * 3)%nat by lia.
      now rewrite Nat.Div0.mod_add.
    + now inversion H as [|? ? _ [|? ? _ [|? ? _ H']]].
Qed.

Lemma sextets_small bytes :
  Forall is_byte bytes -> Forall (fun d => 0 <= d < 64) (sextets bytes).
Proof.
  induction bytes as [| a | a b | a b c r IH] using list_ind3; intros H.
  - constructor.
  - inversion H as [|? ? Ha _]; subst.
    destruct (sextet_facts a a Ha Ha) as (? & ? & ? & ? & ? & ? & _).
    cbn. repeat constructor; lia.
  - inversion H as [|? ? Ha [|? ? Hb _]]; subst.
    destruct (sextet_facts a b Ha Hb) as (? & ? & ? & ? & ? & ? & _).
    destruct (sextet_facts b b Hb Hb) as (? & ? & ? & ? & ? & ? & _).
    cbn. repeat constructor; lia.
  - inversion H as [|? ? Ha [|? ? Hb [|? ? Hc H']]]; subst.
    destruct (sextet_facts a b Ha Hb) as (? & ? & ? & ? & ? & ? & _).
    destruct (sextet_facts b c Hb Hc) as (? & ? & ? & ? & ? & ? & _).
    destruct (sextet_facts c c Hc Hc) as (? & ? & ? & ? & ? & ? & _).
    cbn [sextets]. repeat (constructor; [lia|]). now apply IH.
Qed.

Lemma decode_sextets bytes :
  Forall is_byte bytes -> decode (sextets bytes) = bytes.
Proof.
  induction bytes as [| a | a b | a b c r IH] using list_ind3; intros H.
  - reflexivity.
  - inversion H as [|? ? Ha _]; subst.
    destruct (sextet_facts a a Ha Ha)
      as (_ & _ & _ & _ & _ & _ & _ & E & _).
    cbn [sextets decode]. now rewrite E.
  - inversion H as [|? ? Ha [|? ? Hb _]]; subst.
    destruct (sextet_facts a b Ha Hb)
      as (_ & _ & _ & _ & _ & _ & E1 & _ & E2 & _).
    destruct (sextet_facts b b Hb Hb)
      as (_ & _ & _ & _ & _ & _ & _ & _ & _ & _ & E3 & _ & E4 & _).
    cbn [sextets decode]. now rewrite E1, E2, E3, E4.
  - inversion H as [|? ? Ha [|? ? Hb [|? ? Hc H']]]; subst.
    destruct (sextet_facts a b Ha Hb)
      as (_ & _ & _ & _ & _ & _ & E1 & _ & E2 & _).
    destruct (sextet_facts b c Hb Hc)
      as (_ & _ & _ & _ & _ & _ & _ & _ & _ & E3 & _ & E5 & E4 & _).
    destruct (sextet_facts c c Hc Hc)
      as (_ & _ & _ & _ & _ & _ & _ & _ & _ & _ & _ & _ & _ & E6).
    cbn [sextets]. cbn [decode].
    rewrite E1, E2, E3, E4, E5, E6, (IH H'). reflexivity.
Qed.

Lemma values_digits ds :
  Forall (fun d => 0 <= d < 64) ds -> values (List.map digit ds) = Some ds.
Proof.
  induction 1 as [|d ds Hd _ IH]; [reflexivity|].
  cbn [List.map values]. now rewrite (value_digit d Hd), IH.
Qed.

Lemma filter_digits ds k :
  Forall (fun d => 0 <= d < 64) ds ->
  List.filter (fun c => negb (is_space c))
              (List.map digit ds ++ repeat "="%char k)
  = List.map digit ds ++ repeat "="%char k.
Proof.
  intros H. rewrite List.filter_app. f_equal.
  - induction H as [|d ds Hd _ IH]; [reflexivity|].
    cbn [List.map List.filter].
    destruct (digit_plain d Hd) as [-> _]. cbn [negb]. now rewrite IH.
  - induction k; [reflexivity|]. cbn. now f_equal.
Qed.

Lemma strip_padding_digits ds k :
  Forall (fun d => 0 <= d < 64) ds -> (k <= 2)%nat ->
  Z.of_nat (length (List.map digit ds ++ repeat "="%char k)) mod 4 = 0 ->
  strip_padding (List.map digit ds ++ repeat "="%char k) = List.map digit ds.
Proof.
  intros H Hk Hlen. unfold strip_padding.
  apply Z.eqb_eq in Hlen. rewrite Hlen.
  rewrite rev_app_distr.
  assert (Hrev : rev (repeat "="%char k) = repeat "="%char k).
  { destruct k as [|[|[|k]]]; [reflexivity .. | lia]. }
  rewrite Hrev.
  assert (Hhd : match rev (List.map digit ds) with
                | [] => True
                | c :: _ => c <> "="%char
                end).
  { destruct (rev (List.map digit ds)) as [|c r] eqn:E; [exact I|].
    assert (Hin : In c (List.map digit ds)).
    { apply in_rev. rewrite E. now left. }
    apply in_map_iff in Hin as (d & <- & Hd).
    rewrite Forall_forall in H. now apply digit_plain, H, list_elem_of_In. }
  destruct k as [|[|[|k]]]; [| | | lia]; cbn [repeat app].
  - rewrite app_nil_r.
    destruct (rev (List.map digit ds)) as [|c r] eqn:E; [reflexivity|].
    destruct (Ascii.eqb_spec c "="%char) as [->|Hne]; [done|].
    destruct c as [[] [] [] [] [] [] [] []]; try reflexivity.
    now contradiction Hne.
  - destruct (rev (List.map digit ds)) as [|c r] eqn:E.
    + apply (f_equal (@rev ascii)) in E. rewrite rev_involutive in E.
      now rewrite E.
    + rewrite <- E.
      destruct c as [[] [] [] [] [] [] [] []];
        try (rewrite E at 1; rewrite <- E; now rewrite rev_involutive).
      now contradiction Hhd.
  - now rewrite rev_involutive.
Qed.

Lemma sextets_length bytes :
  (length (sextets bytes) + padding (length bytes)
   = 4 * ((length bytes + 2) / 3))%nat
  /\ (length (sextets bytes) mod 4 <> 1)%nat.
Proof.
  induction bytes as [| a | a b | a b c r [IH1 IH2]] using list_ind3.
  - split; [reflexivity | cbn; lia].
  - split; [reflexivity | cbn; lia].
  - split; [reflexivity | cbn; lia].
  - cbn [sextets length]. unfold padding in *.
    replace (S (S (S (length r)))) with (length r + 1 * 3)%nat by lia.
    rewrite Nat.Div0.mod_add.
    replace (length r + 1 * 3 + 2)%nat with (length r + 2 + 1 * 3)%nat by lia.
    rewrite Nat.div_add by lia.
    split; [lia|].
    replace (S (S (S (S (length (sextets r))))))
      with (length (sextets r) + 1 * 4)%nat by lia.
    now rewrite Nat.Div0.mod_add.
Qed.

Lemma padding_le n : (padding n <= 2)%nat.
Proof.
  unfold padding. destruct (n mod 3)%nat as [|[|[|]]]; lia.
Qed.

Lemma atob_btoa_bytes bytes :
  Forall is_byte bytes -> atob (btoa bytes) = Some bytes.
Proof.
  intros H. unfold atob, btoa.
  rewrite list_ascii_of_string_of_list_ascii.
  pose proof (sextets_small bytes H) as Hs.
  destruct (sextets_length bytes) as [Hl Hm].
  rewrite (encode_sextets bytes H), (filter_digits _ _ Hs).
  rewrite strip_padding_digits; [| exact Hs | apply padding_le |].
  - rewrite length_map.
    replace (Z.of_nat (length (sextets bytes)) mod 4 =? 1) with false.
    + now rewrite (values_digits _ Hs), (decode_sextets _ H).
    + symmetry. apply Z.eqb_neq. intros E. apply Hm.
      apply Nat2Z.inj. rewrite Nat2Z.inj_mod. exact E.
  - rewrite length_app, length_map, repeat_length, Hl.
    rewrite Nat2Z.inj_mul, Z.mul_comm. apply Z.mod_mul. lia.
Qed.

Lemma btoa_length bytes :
  Forall is_byte bytes ->
  String.length (btoa bytes) = (4 * ((length bytes + 2) / 3))%nat.
Proof.
  intros H. unfold btoa.
  assert (E : forall l, String.length (string_of_list_ascii l) = length l).
  { induction l; cbn; congruence. }
  rewrite E, (encode_sextets bytes H), length_app, length_map, repeat_length.
  apply sextets_length.
Qed.

End Base64Facts.

Section ViewFacts.
Import TypedArray.

Lemma bytes_of_int16_bytes v : Forall is_byte (bytes_of_int16 v).
Proof.
  rewrite bytes_little_endian. unfold EncoderSpec.little_endian.
  repeat constructor; apply Z.mod_pos_bound; lia.
Qed.

Lemma Uint8_view_bytes pcm : Forall is_byte (Uint8_view pcm).
Proof.
  unfold Uint8_view. induction pcm as [|v pcm IH]; [constructor|].
  cbn [List.map List.concat]. apply Forall_app. split; [|exact IH].
  apply bytes_of_int16_bytes.
Qed.

Lemma Uint8_view_length pcm : length (Uint8_view pcm) = (2 * length pcm)%nat.
Proof.
  unfold Uint8_view. induction pcm as [|v pcm IH]; [reflexivity|].
  cbn [List.map List.concat]. rewrite length_app, IH. cbn. lia.
Qed.

Lemma lor_bytes lo hi :
  is_byte lo -> is_byte hi -> Z.lor lo (Z.shiftl hi 8) = lo + 256 * hi.
Proof.
  intros Hl Hh.
  pose proof (below_forall2
                (fun lo hi => Z.lor lo (Z.shiftl hi 8) =? lo + 256 * hi)
                256 256 ltac:(vm_compute; reflexivity) lo hi Hl Hh) as E.
  now apply Z.eqb_eq in E.
Qed.

Lemma int16_of_bytes v :
  is_int16 v ->
  let u := Z.lor (v mod 256) (Z.shiftl ((v / 256) mod 256) 8) in
  (if 32768 <=? u then u - 65536 else u) = v.
Proof.
  intros Hv. cbv zeta.
  rewrite lor_bytes by (apply Z.mod_pos_bound; lia).
  assert (E : v mod 256 + 256 * ((v / 256) mod 256) = v mod 65536).
  { change 65536 with (256 * 256). rewrite Z.rem_mul_r by lia. reflexivity. }
  rewrite E. unfold is_int16 in Hv.
  destruct (Z.le_gt_cases 0 v).
  - rewrite Z.mod_small by lia.
    destruct (32768 <=? v) eqn:L; [apply Z.leb_le in L; lia | done].
  - replace (v mod 65536) with (v + 65536)
      by (apply Z.mod_unique with (q := -1); lia).
    destruct (32768 <=? v + 65536) eqn:L; [lia | apply Z.leb_gt in L; lia].
Qed.

Lemma Int16_view_Uint8_view pcm :
  Forall is_int16 pcm -> Int16_view (Uint8_view pcm) = Some pcm.
Proof.
  unfold Uint8_view. induction 1 as [|v pcm Hv _ IH]; [reflexivity|].
  cbn [List.map List.concat]. rewrite bytes_little_endian.
  cbn [EncoderSpec.little_endian app Int16_view].
  rewrite IH. now rewrite (int16_of_bytes v Hv).
Qed.

Lemma Int16_view_length bytes pcm :
  Int16_view bytes = Some pcm -> length bytes = (2 * length pcm)%nat.
Proof.
  revert pcm.
  assert (H : forall bytes,
             (forall pcm, Int16_view bytes = Some pcm ->
                          length bytes = (2 * length pcm)%nat)
             /\ (forall b pcm, Int16_view (b :: bytes) = Some pcm ->
                               length (b :: bytes) = (2 * length pcm)%nat)).
  { clear bytes. induction bytes as [|x bytes [IH0 IH1]].
    - split; [now intros pcm [= <-] | discriminate].
    - split; [exact (IH1 x)|].
      intros b pcm. cbn [Int16_view].
      destruct (Int16_view bytes) as [l|] eqn:E; [|discriminate].
      intros [= <-]. cbn [length]. rewrite (IH0 l eq_refl). lia. }
  apply H.
Qed.

Lemma Int16_view_odd bytes :
  Int16_view bytes = None <-> Nat.odd (length bytes) = true.
Proof.
  assert (H : forall bytes,
             (Int16_view bytes = None <-> Nat.odd (length bytes) = true)
             /\ (forall b, Int16_view (b :: bytes) = None
                           <-> Nat.odd (length (b :: bytes)) = true)).
  { clear bytes. induction bytes as [|x bytes [IH0 IH1]].
    - split; [split; discriminate | intros b; split; reflexivity].
    - split; [exact (IH1 x)|].
      intros b. cbn [Int16_view length].
      rewrite Nat.odd_succ, <- Nat.negb_odd, Nat.odd_succ, <- Nat.negb_odd.
      rewrite negb_involutive, <- IH0.
      destruct (Int16_view bytes); split; congruence. }
  apply H.
Qed.

Lemma Int16_view_range bytes pcm :
  Forall is_byte bytes -> Int16_view bytes = Some pcm -> Forall is_int16 pcm.
Proof.
  intros Hb. revert pcm.
  assert (H : forall bytes, Forall is_byte bytes ->
             (forall pcm, Int16_view bytes = Some pcm -> Forall is_int16 pcm)
             /\ (forall b pcm, is_byte b ->
                               Int16_view (b :: bytes) = Some pcm ->
                               Forall is_int16 pcm)).
  { clear. induction bytes as [|x bytes IH]; intros Hb.
    - split; [intros pcm [= <-]; constructor | discriminate].
    - inversion Hb as [|? ? Hx Hb']; subst.
      destruct (IH Hb') as [IH0 IH1].
      split; [intros pcm; now apply IH1|].
      intros b pcm Hbb. cbn [Int16_view].
      destruct (Int16_view bytes) as [l|] eqn:E; [|discriminate].
      intros [= <-]. constructor; [|now apply IH0].
      rewrite (lor_bytes b x Hbb Hx). unfold is_int16, is_byte in *.
      destruct (32768 <=? _) eqn:L;
        [apply Z.leb_le in L | apply Z.leb_gt in L]; lia. }
  apply (H bytes Hb).
Qed.
End ViewFacts.

(** ** The encoder, sample by sample *)

Section EncoderOrder.
Import TypedArray Encoder.

Lemma trunc_mono x y : (x <= y)%Q -> trunc x <= trunc y.
Proof.
  unfold Qle, trunc. intros H.
  rewrite <- (Z.quot_mul_cancel_r (Qnum x) (Z.pos (Qden x)) (Z.pos (Qden y)))
    by lia.
  rewrite <- (Z.quot_mul_cancel_r (Qnum y) (Z.pos (Qden y)) (Z.pos (Qden x)))
    by lia.
  rewrite (Z.mul_comm (Z.pos (Qden y)) (Z.pos (Qden x))).
  apply Z.quot_le_mono; lia.
Qed.

Lemma clamp_mono x y :
  (x <= y)%Q -> (EncoderSpec.clamp x <= EncoderSpec.clamp y)%Q.
Proof.
  intros H. unfold EncoderSpec.clamp.
  destruct (Qltb x (-1)) eqn:E1, (Qltb y (-1)) eqn:E2,
           (Qltb 1 x) eqn:E3, (Qltb 1 y) eqn:E4;
    rewrite ?Qltb_lt, ?Qltb_ge in *; lra.
Qed.

Lemma scale_mono s s' :
  (s <= s')%Q -> (EncoderSpec.scale s <= EncoderSpec.scale s')%Q.
Proof.
  intros H. unfold EncoderSpec.scale.
  destruct (Qltb s 0) eqn:E1, (Qltb s' 0) eqn:E2;
    rewrite ?Qltb_lt, ?Qltb_ge in *; lra.
Qed.

Lemma convert_mono x y : (x <= y)%Q -> convert x <= convert y.
Proof.
  intros H. rewrite !convert_sample. unfold EncoderSpec.sample.
  now apply trunc_mono, scale_mono, clamp_mono.
Qed.

Lemma sample_int16 x : is_int16 (EncoderSpec.sample x).
Proof. apply scaled_range, clamp_range. Qed.

Lemma pcmData_int16 inputData : Forall is_int16 (pcmData inputData).
Proof.
  rewrite pcmData_frame_of. unfold EncoderSpec.frame_of.
  destruct (gated _).
  - apply Forall_forall. intros v Hv. apply list_elem_of_In in Hv.
    apply repeat_spec in Hv. subst. unfold is_int16. lia.
  - apply Forall_map, Forall_forall. intros. apply sample_int16.
Qed.

End EncoderOrder.

(** ** The WAV container *)

Section WavFacts.
Import Wav.

Lemma charCode_byte c : charCode c mod 256 = charCode c.
Proof.
  unfold charCode. pose proof (nat_ascii_bounded c).
  apply Z.mod_small. lia.
Qed.

Lemma copy_from_cons k source x buffer :
  copy_from (S k) source (x :: buffer) = x :: copy_from k source buffer.
Proof.
  revert k x buffer. induction source as [|y r IH]; intros k x buffer;
    [reflexivity|].
  cbn [copy_from insert list_insert]. now rewrite IH.
Qed.

Lemma copy_from_over source old rest :
  length old = length source ->
  copy_from 0 source (old ++ rest) = source ++ rest.
Proof.
  revert old. induction source as [|y r IH]; intros old H.
  - destruct old; [reflexivity | discriminate].
  - destruct old as [|o old]; [discriminate|].
    cbn [copy_from app insert list_insert].
    rewrite copy_from_cons. f_equal. apply IH. now injection H.
Qed.

(** The 44 bytes of the header for [n] samples at the rate [rate]. *)
Lemma createWavFromPcm_bytes pcmData sampleRate :
  createWavFromPcm pcmData sampleRate
  = Some (codes "RIFF"
          ++ le32 (44 + Z.of_nat (length pcmData) * 2 - 8)
          ++ codes "WAVE" ++ codes "fmt "
          ++ le32 16 ++ le16 1 ++ le16 1
          ++ le32 sampleRate ++ le32 (sampleRate * 1 * 2)
          ++ le16 2 ++ le16 16
          ++ codes "data" ++ le32 (Z.of_nat (length pcmData) * 2)
          ++ TypedArray.Uint8_view pcmData).
Proof.
  unfold createWavFromPcm. cbv zeta.
  change (16 / 8) with 2. change (1 * 2) with 2.
  replace (Z.to_nat (44 + Z.of_nat (length pcmData) * 2))
    with (44 + (length pcmData + length pcmData))%nat by lia.
  unfold writeString, setUint8, setUint16, setUint32, set_from.
  cbn [repeat Nat.add list_ascii_of_string writeString_from length Nat.leb
       mbind option_bind insert list_insert copy_from le16 le32].
  unfold setUint8.
  cbn [length Nat.add Nat.leb mbind option_bind insert list_insert].
  rewrite !charCode_byte.
  rewrite repeat_length, Uint8_view_length.
  replace (2 * length pcmData)%nat with (length pcmData + length pcmData)%nat
    by lia.
  rewrite Nat.leb_refl.
  rewrite !copy_from_cons.
  rewrite <- (app_nil_r (repeat 0 _)).
  rewrite copy_from_over
    by (rewrite repeat_length, Uint8_view_length; lia).
  rewrite app_nil_r. reflexivity.
Qed.

Lemma le32_value v :
  0 <= v < 4294967296 ->
  match le32 v with
  | [b0; b1; b2; b3] => b0 + 256 * b1 + 65536 * b2 + 16777216 * b3 = v
  | _ => False
  end.
Proof.
  intros H. unfold le32. cbv zeta. rewrite (Z.mod_small v) by lia.
  Z.div_mod_to_equations. lia.
Qed.

End WavFacts.

(** ** Strings *)

Section StringFacts.
Import Str.

Lemma replace_absent pattern replacement s :
  includes pattern s = false -> replace pattern replacement s = s.
Proof.
  induction s as [|c s IH]; intros H.
  - destruct pattern; [discriminate H | reflexivity].
  - cbn [includes replace] in *.
    destruct (after_prefix pattern (String c s)); [discriminate H|].
    now rewrite (IH H).
Qed.

Lemma no_comma_chars s :
  includes "," s = false ->
  Forall (fun c => c <> ","%char) (list_ascii_of_string s).
Proof.
  induction s as [|c s IH]; intros H; [constructor|].
  cbn [includes after_prefix] in H.
  destruct (Ascii.eqb_spec ","%char c) as [->|Hne]; [discriminate H|].
  cbn [list_ascii_of_string]. constructor; [congruence | now apply IH].
Qed.

Lemma until_comma_none l :
  Forall (fun c => c <> ","%char) l -> until_comma l = (l, None).
Proof.
  induction 1 as [|c l Hc _ IH]; [reflexivity|].
  cbn [until_comma]. apply Ascii.eqb_neq in Hc. rewrite Hc, IH. reflexivity.
Qed.

Lemma until_comma_some l r :
  Forall (fun c => c <> ","%char) l ->
  until_comma (l ++ ","%char :: r) = (l, Some r).
Proof.
  induction 1 as [|c l Hc _ IH]; [reflexivity|].
  cbn [until_comma app]. apply Ascii.eqb_neq in Hc. rewrite Hc, IH.
  reflexivity.
Qed.

Lemma list_ascii_app s1 s2 :
  list_ascii_of_string (s1 ++ s2)
  = list_ascii_of_string s1 ++ list_ascii_of_string s2.
Proof. induction s1 as [|c s1 IH]; cbn; congruence. Qed.

Lemma split_comma_payload header payload :
  includes "," header = false -> includes "," payload = false ->
  split_comma_1 (header ++ "," ++ payload) = Some payload.
Proof.
  intros Hh Hp. unfold split_comma_1.
  rewrite list_ascii_app. cbn [append list_ascii_of_string].
  rewrite (until_comma_some _ _ (no_comma_chars _ Hh)). cbn [snd].
  rewrite (until_comma_none _ (no_comma_chars _ Hp)). cbn [fst].
  now rewrite string_of_list_ascii_of_string.
Qed.

Lemma split_comma_absent dataUrl :
  includes "," dataUrl = false -> split_comma_1 dataUrl = None.
Proof.
  intros H. unfold split_comma_1.
  now rewrite (until_comma_none _ (no_comma_chars _ H)).
Qed.
End StringFacts.

(** ** Codecs *)

(** X1. [atob] undoes [btoa] on every byte sequence, and the encoding of
    [n] bytes has four characters for every three bytes begun. *)
Theorem base64_round_trip (bytes : list Z) :
  Forall is_byte bytes ->
  Base64.atob (Base64.btoa bytes) = Some bytes
  /\ String.length (Base64.btoa bytes)
     = (4 * ((length bytes + 2) / 3))%nat.
Proof.
  intros H. split; [now apply atob_btoa_bytes | now apply btoa_length].
Qed.

Lemma base64_round_trip_witness :
  Base64.atob (Base64.btoa [1; 2; 3; 255]) = Some [1; 2; 3; 255].
Proof.
  apply (base64_round_trip [1; 2; 3; 255]).
  repeat constructor; unfold is_byte; lia.
Defined.

(** X2. The frame the capture callback sends decodes, by the decoding the
    page applies to inbound audio ([atob], then the [Int16Array] view), to
    the PCM samples it encoded: one 16-bit sample per input sample; and
    the size of the frame depends on the length of the window only, so a
    silenced window is sent at the size of a voiced one. *)
Theorem frame_decodes_to_pcm (inputData : list Q) :
  Base64.atob (Encoder.frame inputData) ≫= TypedArray.Int16_view
  = Some (Encoder.pcmData inputData)
  /\ length (Encoder.pcmData inputData) = length inputData
  /\ Forall is_int16 (Encoder.pcmData inputData)
  /\ String.length (Encoder.frame inputData)
     = (4 * ((2 * length inputData + 2) / 3))%nat.
Proof.
  assert (Hlen : length (Encoder.pcmData inputData) = length inputData)
    by apply pcmData_length.
  split_and!; [| | | unfold Encoder.frame;
                     rewrite btoa_length by apply Uint8_view_bytes;
                     now rewrite Uint8_view_length, Hlen].
  - unfold Encoder.frame.
    rewrite atob_btoa_bytes by apply Uint8_view_bytes.
    cbn [mbind option_bind].
    apply Int16_view_Uint8_view, pcmData_int16.
  - exact Hlen.
  - apply pcmData_int16.
Qed.

(** X3. The sample conversion is monotone and stays within the 16-bit
    range: a louder sample never encodes below a quieter one, and no
    sample wraps around. *)
Theorem convert_monotone (x y : Q) :
  (x <= y)%Q ->
  Encoder.convert x <= Encoder.convert y
  /\ is_int16 (Encoder.convert x) /\ is_int16 (Encoder.convert y).
Proof.
  intros H. split_and!.
  - now apply convert_mono.
  - rewrite convert_sample. apply sample_int16.
  - rewrite convert_sample. apply sample_int16.
Qed.

Lemma convert_monotone_witness :
  Encoder.convert (1 # 2) <= Encoder.convert (3 # 4).
Proof.
  apply (convert_monotone (1 # 2) (3 # 4)). unfold Qle. simpl. lia.
Defined.

(** X5. The video tick sends what follows the first comma of the data URL:
    for a URL made of a header, a comma and a payload without commas, the
    payload; for a URL without a comma, a frame message without data. *)
Theorem video_frame_payload
  (w : World) (i : nat) (header payload dataUrl : string) :
  wsRef (refs w) = Some i ->
  socket_state i w = Some OPEN ->
  Str.includes "," header = false ->
  Str.includes "," payload = false ->
  Str.includes "," dataUrl = false ->
  emitted (captureFrame (header ++ "," ++ payload)) w
  = [Sent i (OutVideo (Some payload) "image/jpeg")]
  /\ emitted (captureFrame dataUrl) w
     = [Sent i (OutVideo None "image/jpeg")].
Proof.
  intros Hws Hopen Hh Hp Hd.
  assert (E : forall url,
             emitted (captureFrame url) w
             = [Sent i (OutVideo (split_comma_1 url) "image/jpeg")]).
  { intros url. destruct_world w. world_nf_in Hws. world_nf_in Hopen.
    subst ws. unfold emitted. apply wp_exec.
    wp_go; try congruence; log_nf; reflexivity. }
  rewrite !E, (split_comma_payload _ _ Hh Hp), (split_comma_absent _ Hd).
  split; reflexivity.
Qed.

Lemma video_frame_payload_witness :
  emitted (captureFrame "data:image/jpeg;base64,AAAA") live_world
  = [Sent 0%nat (OutVideo (Some "AAAA"%string) "image/jpeg")].
Proof.
  apply (video_frame_payload live_world 0%nat "data:image/jpeg;base64"
           "AAAA" "data:"); reflexivity.
Defined.


(** X7. For a sample count and a sample rate that fit the 32-bit fields,
    the header reads back consistently: the RIFF size is the file length
    less 8, the data size the file length less 44, the format is PCM, one
    channel, 16 bits, block alignment 2, byte rate twice the sample rate;
    and the samples read back from the data chunk. *)
Theorem wav_header_fields (pcmData : list Z) (sampleRate : Z) (wav : list Z) :
  Forall is_int16 pcmData ->
  Z.of_nat (length pcmData) * 2 + 44 < 4294967296 ->
  0 <= sampleRate -> sampleRate * 2 < 4294967296 ->
  Wav.createWavFromPcm pcmData sampleRate = Some wav ->
  Wav.getUint32 4 wav = Some (Z.of_nat (length wav) - 8)
  /\ Wav.getUint32 40 wav = Some (Z.of_nat (length wav) - 44)
  /\ Wav.getUint32 16 wav = Some 16
  /\ Wav.getUint16 20 wav = Some 1
  /\ Wav.getUint16 22 wav = Some 1
  /\ Wav.getUint32 24 wav = Some sampleRate
  /\ Wav.getUint32 28 wav = Some (2 * sampleRate)
  /\ Wav.getUint16 32 wav = Some 2
  /\ Wav.getUint16 34 wav = Some 16
  /\ TypedArray.Int16_view (drop 44 wav) = Some pcmData.
Proof.
  intros Hpcm Hn Hr0 Hr1. rewrite createWavFromPcm_bytes. intros [= <-].
  match goal with
  | |- context [Wav.getUint32 4 ?l] => set (wav := l)
  end.
  assert (Hlen : Z.of_nat (length wav) = Z.of_nat (length pcmData) * 2 + 44).
  { subst wav.
    cbn [app length Wav.codes Wav.le32 Wav.le16 List.map list_ascii_of_string].
    rewrite Uint8_view_length. lia. }
  rewrite Hlen. subst wav. clear Hlen.
  pose proof (le32_value (44 + Z.of_nat (length pcmData) * 2 - 8) ltac:(lia)).
  pose proof (le32_value (Z.of_nat (length pcmData) * 2) ltac:(lia)).
  pose proof (le32_value sampleRate ltac:(lia)).
  pose proof (le32_value (sampleRate * 1 * 2) ltac:(lia)).
  unfold Wav.getUint32, Wav.getUint16.
  cbn [app Wav.codes Wav.le32 Wav.le16 List.map list_ascii_of_string
       lookup list_lookup drop] in *.
  split_and!; try (f_equal; lia); try reflexivity.
  now apply Int16_view_Uint8_view.
Qed.

Lemma wav_header_fields_witness :
  exists wav,
    Wav.createWavFromPcm [1; -2; 300] 24000 = Some wav
    /\ Wav.getUint32 4 wav = Some (Z.of_nat (length wav) - 8)
    /\ Wav.getUint32 24 wav = Some 24000
    /\ TypedArray.Int16_view (drop 44 wav) = Some [1; -2; 300].
Proof.
  destruct (Wav.createWavFromPcm [1; -2; 300] 24000) as [wav|] eqn:E;
    [|vm_compute in E; discriminate E].
  exists wav. split; [reflexivity|].
  destruct (wav_header_fields [1; -2; 300] 24000 wav)
    as (H1 & _ & _ & _ & _ & H2 & _ & _ & _ & H3).
  - repeat constructor; unfold is_int16; lia.
  - vm_compute; reflexivity.
  - lia.
  - lia.
  - exact E.
  - split_and!; assumption.
Defined.

(** X8. The address of the summary request: a [ws://] socket address
    becomes [http://], a [wss://] one becomes [https://], the rest of the
    address is kept when it holds no further socket scheme, and the path of
    the patient's latest session follows; without a configured address the
    request goes to [http://localhost:8000]. *)
Theorem summary_endpoint_scheme (rest user_id : string) :
  (Str.includes "wss://" rest = false ->
   summary_endpoint ("ws://" ++ rest) user_id
   = ("http://" ++ rest ++ "/api/patients/" ++ user_id
      ++ "/sessions/latest")%string)
  /\ (Str.includes "ws://" rest = false ->
      summary_endpoint ("wss://" ++ rest) user_id
      = ("https://" ++ rest ++ "/api/patients/" ++ user_id
         ++ "/sessions/latest")%string)
  /\ summary_endpoint (WS_URL None) user_id
     = ("http://localhost:8000/api/patients/" ++ user_id
        ++ "/sessions/latest")%string
  /\ WS_URL (Some EmptyString) = WS_URL None.
Proof.
  unfold summary_endpoint. split_and!.
  - intros H. cbn [Str.replace Str.after_prefix Ascii.eqb Bool.eqb append].
    rewrite (replace_absent _ _ _ H). reflexivity.
  - intros H. cbn [Str.replace Str.after_prefix Ascii.eqb Bool.eqb append].
    rewrite (replace_absent _ _ _ H).
    cbn [Str.replace Str.after_prefix Ascii.eqb Bool.eqb append].
    reflexivity.
  - reflexivity.
  - reflexivity.
Qed.

Lemma summary_endpoint_scheme_witness :
  summary_endpoint "wss://aegis.example:8443" "42"
  = "https://aegis.example:8443/api/patients/42/sessions/latest"%string.
Proof.
  apply (summary_endpoint_scheme "aegis.example:8443" "42"). reflexivity.
Defined.

(** ** Ending a session *)

Lemma media_sent_snoc l o :
  media_sent (l ++ [o]) = media_sent l ++ (if is_media o then [o] else []).
Proof. unfold media_sent. now rewrite List.filter_app. Qed.

(** X9. The user's End completes without an error, tells the peer with
    one [end] message exactly when the socket is open, calls the reaper
    once before it sets the phase to [ended], and leaves every device,
    playback, queue and transport reference absent. *)
Theorem endSession_releases (w : World) :
  fst (endSession w) = Normal tt
  /\ released (exec endSession w)
  /\ sessionStatus (react (exec endSession w)) = ended
  /\ statusMessage (react (exec endSession w)) = "Session ended"%string
  /\ (forall i, wsRef (refs w) = Some i -> socket_state i w = Some OPEN ->
                emitted endSession w
                = [Sent i OutEnd; CleanupCall; SetStatus ended]
                /\ socket_state i (exec endSession w) = Some CLOSING)
  /\ ((forall i, wsRef (refs w) = Some i -> socket_state i w <> Some OPEN) ->
      emitted endSession w = [CleanupCall; SetStatus ended]).
Proof.
  split_and!; [apply (wp_run endSession w (fun c _ => c = Normal tt))|..];
    destruct_world w.
  - wp_go; reflexivity.
  - unfold released. apply wp_exec. wp_go; world_nf; split_and!; reflexivity.
  - apply wp_exec. wp_go; reflexivity.
  - apply wp_exec. wp_go; reflexivity.
  - intros i Hws Hopen. world_nf_in Hws. world_nf_in Hopen. subst ws.
    split.
    + unfold emitted. apply wp_exec.
      wp_go; try congruence; log_nf; reflexivity.
    + apply wp_exec. wp_go; try congruence.
      world_nf. destruct (sks !! i) as [s|] eqn:E; [|discriminate].
      rewrite list_lookup_alter, E. cbn in *. injection Hopen as Ho.
      rewrite decide_True by done. unfold closing. rewrite Ho. reflexivity.
  - intros H. unfold emitted. apply wp_exec.
    wp_go; log_nf; try reflexivity.
    all: exfalso; eapply H; [reflexivity | world_nf; eassumption].
Qed.

Lemma endSession_releases_witness :
  emitted endSession live_world
  = [Sent 0%nat OutEnd; CleanupCall; SetStatus ended].
Proof.
  destruct (endSession_releases live_world) as (_ & _ & _ & _ & H & _).
  apply (H 0%nat); reflexivity.
Defined.

(** ** What the reaper does to the browser objects *)

(** X10. The reaper releases the devices themselves, not only the
    references to them: the tracks of the referenced stream are stopped,
    the capture context and the playback context are closed, the
    referenced socket is neither connecting nor open any more, and the
    active source node is no longer playing. *)
Theorem cleanup_stops_devices (w : World) :
  let w' := exec cleanup w in
  (forall m, mediaStreamRef (refs w) = Some m ->
             is_Some (streams (browser w) !! m) ->
             streams (browser w') !! m = Some false)
  /\ (forall c, audioContextRef (refs w) = Some c
                \/ activeAudioContextRef (refs w) = Some c ->
                is_Some (contexts (browser w) !! c) ->
                context_state c w' = Some closed)
  /\ (forall i, wsRef (refs w) = Some i ->
                socket_state i w' <> Some OPEN
                /\ socket_state i w' <> Some CONNECTING)
  /\ (forall n, activeSourceNodeRef (refs w) = Some n ->
                nodeState <$> nodes (browser w') !! n <> Some Playing).
Proof.
  intros w'. subst w'. unfold exec. rewrite cleanup_reaped. cbn [snd].
  destruct_world w. world_nf. split_and!.
  - intros m -> Hm. apply list_lookup_insert_eq.
    now apply lookup_lt_is_Some.
  - intros c [-> | ->] Hc.
    + apply list_lookup_insert_eq. destruct playback; cbn;
        rewrite ?length_insert; now apply lookup_lt_is_Some.
    + destruct capture as [a|]; cbn.
      * destruct (decide (a = c)) as [->|Hne].
        -- apply list_lookup_insert_eq. rewrite length_insert.
           now apply lookup_lt_is_Some.
        -- rewrite list_lookup_insert_ne by done.
           apply list_lookup_insert_eq. now apply lookup_lt_is_Some.
      * apply list_lookup_insert_eq. now apply lookup_lt_is_Some.
  - intros i ->. rewrite list_lookup_alter_eq.
    destruct (sks !! i) as [s|]; cbn; [|split; discriminate].
    unfold closing. destruct (readyState s) eqn:E; cbn; rewrite ?E;
      split; discriminate.
  - intros n ->. rewrite list_lookup_alter_eq.
    destruct (nds !! n) as [nd|]; cbn; [|discriminate].
    unfold stop_playing. destruct (nodeState nd) eqn:E; cbn; rewrite ?E;
      discriminate.
Qed.

Lemma cleanup_stops_devices_witness :
  streams (browser (exec cleanup live_world)) !! 0%nat = Some false
  /\ context_state 0 (exec cleanup live_world) = Some closed.
Proof.
  destruct (cleanup_stops_devices live_world) as (H1 & H2 & _).
  split.
  - apply H1; [reflexivity | vm_compute; eauto].
  - apply H2; [left; reflexivity | vm_compute; eauto].
Defined.

(** ** Invariants of the event loop *)

Lemma fire_enabled t e w :
  now (browser w) <= t ->
  fire (t, e) w = render <$> step e (with_browser (set_now t) w).
Proof.
  intros H. unfold fire. cbn [fst snd].
  destruct (t <? now (browser w)) eqn:E; [apply Z.ltb_lt in E; lia | done].
Qed.

Lemma signed_out_step t e w w' :
  signed_out w -> fire (t, e) w = Some w' ->
  signed_out w'
  /\ (e = ConsentAccept ->
      errorState (react w')
      = Some (JStr "Please log in to use this feature.")).
Proof.
  intros (Hu & Hs & Hr & Hsk & Hcx & Hst & Hnd & Htm & Hk & Hiv & Hpr
          & Hl & Hm) H.
  fire_inv H. destruct_world w.
  world_nf_in Hu. world_nf_in Hs. world_nf_in Hr. world_nf_in Hsk.
  world_nf_in Hcx. world_nf_in Hst. world_nf_in Hnd. world_nf_in Htm.
  world_nf_in Hk. world_nf_in Hiv. world_nf_in Hpr. world_nf_in Hl.
  world_nf_in Hm. injection Hr as -> -> -> -> -> -> -> ->. subst.
  step_cases e Hstep; try discriminate; guard_facts; try congruence.
  all: unfold signed_out; to_wp; wp_go.
  all: world_nf; rewrite ?media_sent_snoc; obs_nf; cbn [app is_media].
  all: split; [split_and!; first [reflexivity | assumption]
              | intros; first [reflexivity | discriminate]].
Qed.

Lemma signed_out_initial : signed_out (initial_world None).
Proof. unfold signed_out. cbn. split_and!; reflexivity. Qed.

Lemma signed_out_run tr w w' :
  signed_out w -> run tr w = Some w' -> signed_out w'.
Proof.
  revert w. induction tr as [|[t e] tr IH]; intros w Hw H; cbn in H.
  - now injection H as <-.
  - destruct (fire (t, e) w) as [w1|] eqn:Hf; [|discriminate].
    apply (IH w1); [|exact H]. now destruct (signed_out_step t e w w1 Hw Hf).
Qed.

(** X11. Without a signed-in user no session ever starts: whatever the
    user and the browser do, the page stays on the start view, no device
    is requested, no socket, audio context or timer is created, no phase
    is set and nothing is sent; accepting the consent dialog only records
    the request to log in. *)
Theorem no_session_without_user
  (tr : list (Z * Event)) (w : World) :
  run tr (initial_world None) = Some w ->
  view_of (sessionStatus (react w)) = StartView
  /\ continuations (browser w) = []
  /\ sockets (browser w) = []
  /\ contexts (browser w) = []
  /\ timeouts (browser w) = []
  /\ statuses (log w) = []
  /\ media_sent (log w) = []
  /\ forall t w',
       fire (t, ConsentAccept) w = Some w' ->
       errorState (react w')
       = Some (JStr "Please log in to use this feature.")
       /\ sessionStatus (react w') = idle.
Proof.
  intros H.
  pose proof (signed_out_run tr _ w signed_out_initial H) as Hw.
  pose proof Hw as (_ & Hs & _ & Hsk & Hcx & _ & _ & Htm & Hk & _ & _
                    & Hl & Hm).
  split_and!; try assumption; [now rewrite Hs|].
  intros t w' Hf.
  destruct (signed_out_step t ConsentAccept w w' Hw Hf)
    as [(_ & Hs' & _) He].
  split; [now apply He | exact Hs'].
Qed.

Lemma no_session_without_user_witness :
  exists w,
    run [(0, RequestPermissions); (1, ConsentAccept)] (initial_world None)
    = Some w
    /\ view_of (sessionStatus (react w)) = StartView
    /\ continuations (browser w) = [].
Proof.
  destruct (run [(0, RequestPermissions); (1, ConsentAccept)]
                (initial_world None)) as [w|] eqn:E;
    [|vm_compute in E; discriminate E].
  exists w. split; [reflexivity|].
  destruct (no_session_without_user _ w E) as (H1 & H2 & _).
  split; assumption.
Defined.

(** *** The video interval *)

Lemma intervals_step t e w w' :
  fire (t, e) w = Some w' ->
  (intervals (browser w) <= intervals (browser w'))%nat.
Proof.
  intros H. fire_inv H. destruct_world w.
  step_cases e Hstep.
  all: to_wp; wp_go; world_nf; lia.
Qed.

Lemma intervals_run tr w w' :
  run tr w = Some w' ->
  (intervals (browser w) <= intervals (browser w'))%nat.
Proof.
  revert w. induction tr as [|[t e] tr IH]; intros w H; cbn in H.
  - injection H as <-. lia.
  - destruct (fire (t, e) w) as [w1|] eqn:Hf; [|discriminate].
    pose proof (intervals_step t e w w1 Hf). pose proof (IH w1 H). lia.
Qed.

(** X15. The one-second video interval is never cleared: no callback of
    the page, the reaper, the user's End and the unmount included, lowers
    the number of running intervals, so once video capture has started its
    tick stays deliverable after every later event. *)
Theorem video_interval_never_cleared
  (tr : list (Z * Event)) (w w' : World) :
  run tr w = Some w' ->
  (intervals (browser w) <= intervals (browser w'))%nat
  /\ ((0 < intervals (browser w))%nat ->
      forall t dataUrl,
        now (browser w') <= t ->
        is_Some (fire (t, VideoTick dataUrl) w')).
Proof.
  intros H. pose proof (intervals_run tr w w' H) as Hle.
  split; [exact Hle|]. intros Hpos t dataUrl Ht.
  rewrite (fire_enabled _ _ _ Ht). unfold step.
  replace (intervals (browser (with_browser (set_now t) w')))
    with (intervals (browser w')) by now destruct w' as [? ? [] ?].
  destruct (0 <? intervals (browser w'))%nat eqn:E.
  - eexists. reflexivity.
  - apply Nat.ltb_ge in E. lia.
Qed.

Lemma video_interval_never_cleared_witness :
  exists w w',
    run [(0, SetEnableVideo true); (1, RequestPermissions);
         (2, ConsentAccept); (3, PromiseSettled 0 Fulfilled); (4, WsOpen 0);
         (5, WsMessage 0 (Some (status_message "connected")))]
        (initial_world (Some "patient-1"%string)) = Some w
    /\ run [(6, EndSession); (7, Unmount)] w = Some w'
    /\ is_Some (fire (8, VideoTick "data:,") w').
Proof.
  destruct (run [(0, SetEnableVideo true); (1, RequestPermissions);
                 (2, ConsentAccept); (3, PromiseSettled 0 Fulfilled);
                 (4, WsOpen 0);
                 (5, WsMessage 0 (Some (status_message "connected")))]
                (initial_world (Some "patient-1"%string))) as [w|] eqn:E;
    [|vm_compute in E; discriminate E].
  destruct (run [(6, EndSession); (7, Unmount)] w) as [w'|] eqn:E';
    [|vm_compute in E; injection E as <-; vm_compute in E'; discriminate E'].
  exists w, w'. split; [reflexivity|]. split; [exact E'|].
  destruct (video_interval_never_cleared _ w w' E') as [_ H].
  apply H.
  - vm_compute in E. injection E as <-. vm_compute. lia.
  - vm_compute in E. injection E as <-. vm_compute in E'.
    injection E' as <-. vm_compute. discriminate.
Defined.

(** *** Outbound media once the transport is released *)

Lemma silent_step t e w w' :
  wsRef (refs w) = None ->
  Forall no_acquisition (continuations (browser w)) ->
  e <> ConsentAccept -> fire (t, e) w = Some w' ->
  wsRef (refs w') = None
  /\ Forall no_acquisition (continuations (browser w'))
  /\ media_sent (log w') = media_sent (log w).
Proof.
  intros Hws Hk He H. fire_inv H. destruct_world w.
  world_nf_in Hws. world_nf_in Hk. subst.
  step_cases e Hstep; try congruence; acquisition_facts.
  all: to_wp; wp_go.
  all: world_nf; rewrite ?media_sent_snoc; cbn [is_media];
    rewrite ?app_nil_r.
  all: split_and!; try reflexivity.
  all: repeat apply Forall_app_2; repeat apply Forall_insert;
    auto; repeat constructor.
Qed.

Lemma silent_run tr w w' :
  wsRef (refs w) = None ->
  Forall no_acquisition (continuations (browser w)) ->
  no_session_start tr -> run tr w = Some w' ->
  wsRef (refs w') = None /\ media_sent (log w') = media_sent (log w).
Proof.
  revert w. induction tr as [|[t e] tr IH]; intros w Hws Hk Hn H; cbn in H.
  - now injection H as <-.
  - destruct (fire (t, e) w) as [w1|] eqn:Hf; [|discriminate].
    inversion Hn as [|? ? He Hn']; subst. cbn in He.
    destruct (silent_step t e w w1 Hws Hk He Hf) as (Hws1 & Hk1 & Hm1).
    destruct (IH w1 Hws1 Hk1 Hn' H) as [Hws' Hm']. split; [done | congruence].
Qed.

(** X17. Once the reaper has run, and as long as no device request is
    pending and the user does not consent to a new session, no callback
    sends an audio or a video frame, whatever capture ticks, timers and
    socket events still arrive. *)
Theorem no_media_once_released
  (w0 : World) (tr : list (Z * Event)) (w : World) :
  Forall no_acquisition (continuations (browser w0)) ->
  no_session_start tr ->
  run tr (exec cleanup w0) = Some w ->
  media_sent (log w) = media_sent (log w0) /\ wsRef (refs w) = None.
Proof.
  intros Hk Hn H.
  assert (E : exec cleanup w0 = reaped w0)
    by (unfold exec; now rewrite cleanup_reaped).
  rewrite E in H.
  destruct (silent_run tr (reaped w0) w) as [Hws Hm]; try done.
  split; [|exact Hws]. rewrite Hm. cbn [reaped log].
  rewrite media_sent_snoc. cbn [is_media]. apply app_nil_r.
Qed.

Lemma no_media_once_released_witness :
  exists w,
    run [(10, AudioProcess [1 # 2]%Q); (11, WsClose 0)]
        (exec cleanup live_world) = Some w
    /\ media_sent (log w) = media_sent (log live_world).
Proof.
  destruct (run [(10, AudioProcess [1 # 2]%Q); (11, WsClose 0)]
                (exec cleanup live_world)) as [w|] eqn:E;
    [|vm_compute in E; discriminate E].
  exists w. split; [reflexivity|].
  destruct (no_media_once_released live_world
              [(10, AudioProcess [1 # 2]%Q); (11, WsClose 0)] w) as [H _].
  - vm_compute. repeat constructor.
  - repeat constructor; cbn; discriminate.
  - exact E.
  - exact H.
Defined.

(** *** Playback blocked by an odd byte count *)

Lemma cleanup_calls_snoc l o :
  cleanup_calls (l ++ [o])
  = (cleanup_calls l
     + match o with CleanupCall => 1 | _ => 0 end)%nat.
Proof.
  unfold cleanup_calls. rewrite List.filter_app, length_app.
  now destruct o.
Qed.

Lemma still_lookup nds n st :
  Forall (fun nd => airborne nd = false) nds ->
  nodeState <$> nds !! n = Some st -> airborne_state st = false.
Proof.
  intros H Hn. destruct (nds !! n) as [nd|] eqn:E; [|discriminate].
  injection Hn as <-. exact (Forall_lookup_1 _ _ _ _ H E).
Qed.

Ltac still_facts :=
  repeat match goal with
    | Hs : Forall (fun nd => airborne nd = false) ?nds,
      H : nodeState <$> ?nds !! ?n = Some ?st |- _ =>
        let E := fresh "Hstill" in
        pose proof (still_lookup nds n st Hs H) as E;
        first [discriminate E | clear H]
    end.

Lemma wedged_step t e w w' :
  wedged w -> fire (t, e) w = Some w' ->
  (cleanup_calls (log w) <= cleanup_calls (log w'))%nat
  /\ (cleanup_calls (log w') = cleanup_calls (log w) ->
      wedged w' /\ starts (log w') = starts (log w)).
Proof.
  intros (Hp & Hn & Hk) H. fire_inv H. destruct_world w.
  world_nf_in Hp. world_nf_in Hn. world_nf_in Hk. subst.
  step_cases e Hstep; try discriminate; guard_facts; try congruence.
  all: pending_facts; still_facts; try lia.
  all: unfold wedged; to_wp; wp_go.
  all: world_nf; rewrite ?cleanup_calls_snoc; obs_nf; cbn [app].
  all: split; [lia|]; intros Hc; try lia.
  all: rewrite ?pending_app; cbn [is_paq].
  all: split_and!; first [reflexivity | assumption | lia | idtac].
Qed.

Lemma calls_run tr w w' :
  wedged w -> run tr w = Some w' ->
  cleanup_calls (log w') = cleanup_calls (log w) ->
  wedged w' /\ starts (log w') = starts (log w).
Proof.
  revert w. induction tr as [|[t e] tr IH]; intros w Hw H Hc; cbn in H.
  - now injection H as <-.
  - destruct (fire (t, e) w) as [w1|] eqn:Hf; [|discriminate].
    destruct (wedged_step t e w w1 Hw Hf) as [Hle Hkeep].
    assert (Hmono : forall tr w w', run tr w = Some w' ->
                      (cleanup_calls (log w) <= cleanup_calls (log w'))%nat).
    { clear. induction tr as [|[t e] tr IH]; intros w w' H; cbn in H.
      - injection H as <-. lia.
      - destruct (fire (t, e) w) as [w1|] eqn:Hf; [|discriminate].
        specialize (IH w1 w' H).
        enough (cleanup_calls (log w) <= cleanup_calls (log w1))%nat by lia.
        clear IH H. fire_inv Hf. destruct_world w.
        step_cases e Hstep.
        all: to_wp; wp_go; world_nf; rewrite ?cleanup_calls_snoc; lia. }
    pose proof (Hmono tr w1 w' H).
    destruct (Hkeep ltac:(lia)) as [Hw1 Hs1].
    destruct (IH w1 Hw1 H ltac:(lia)) as [Hw' Hs']. split; [done | congruence].
Qed.

(** X20. A burst whose chunks add up to an odd number of bytes blocks the
    playback: the queue processor takes the queue, sets the in-flight flag
    and raises [RangeError] outside its [try], so the flag stays set with
    nothing in flight; from then on, until the reaper runs, no playback
    unit starts, whatever audio, timers and other callbacks arrive. *)
Theorem odd_burst_blocks_playback
  (w : World) (tr : list (Z * Event)) (w' : World) :
  isSessionActiveRef (refs w) = true ->
  isPlayingAudioRef (refs w) = false ->
  Nat.odd (length (List.concat (audioQueueRef2 (refs w)))) = true ->
  Forall (fun nd => airborne nd = false) (nodes (browser w)) ->
  pending_playback (continuations (browser w)) = 0%nat ->
  fst (processAudioQueue w) = Thrown RangeError
  /\ isPlayingAudioRef (refs (exec processAudioQueue w)) = true
  /\ audioQueueRef2 (refs (exec processAudioQueue w)) = []
  /\ (run tr (exec processAudioQueue w) = Some w' ->
      cleanup_calls (log w')
      = cleanup_calls (log (exec processAudioQueue w)) ->
      isPlayingAudioRef (refs w') = true
      /\ starts (log w') = starts (log (exec processAudioQueue w))).
Proof.
  intros Ha Hp Hodd Hn Hk.
  assert (Hq : (length (audioQueueRef2 (refs w)) =? 0)%nat = false).
  { destruct (audioQueueRef2 (refs w)); [discriminate Hodd | reflexivity]. }
  apply Int16_view_odd in Hodd.
  assert (E : processAudioQueue w
              = (Thrown RangeError,
                 with_refs (fun r => set_audioQueueRef2 []
                                       (set_isPlayingAudioRef true r)) w)).
  { apply wp_eq. destruct_world w.
    world_nf_in Ha. world_nf_in Hp. world_nf_in Hodd. world_nf_in Hq. subst.
    wp_go. reflexivity. }
  unfold exec. rewrite E. cbn [fst snd].
  split_and!; try reflexivity.
  intros Hrun Hc.
  assert (Hw : wedged (with_refs (fun r => set_audioQueueRef2 []
                                            (set_isPlayingAudioRef true r)) w)).
  { destruct w as [? [] [] ?]. split_and!; [reflexivity | exact Hn | exact Hk]. }
  destruct (calls_run tr _ w' Hw Hrun Hc) as [(Hp' & _) Hs].
  split; assumption.
Qed.

Lemma odd_burst_blocks_playback_witness :
  exists w',
    run [(200, TimerFire 0); (210, WsMessage 0 (Some (audio_message "AAAA")))]
        (exec processAudioQueue odd_chunk_world) = Some w'
    /\ isPlayingAudioRef (refs w') = true
    /\ starts (log w') = [].
Proof.
  destruct (run [(200, TimerFire 0);
                 (210, WsMessage 0 (Some (audio_message "AAAA")))]
                (exec processAudioQueue odd_chunk_world)) as [w'|] eqn:E;
    [|vm_compute in E; discriminate E].
  exists w'. split; [reflexivity|].
  destruct (odd_burst_blocks_playback odd_chunk_world
              [(200, TimerFire 0);
               (210, WsMessage 0 (Some (audio_message "AAAA")))] w')
    as (_ & _ & _ & H).
  - reflexivity.
  - reflexivity.
  - reflexivity.
  - vm_compute. constructor.
  - reflexivity.
  - destruct (H E) as [H1 H2].
    + vm_compute in E. injection E as <-. reflexivity.
    + split; [exact H1 | exact H2].
Defined.

(** ** Acquisition and the user's End *)

(** X13. The user's End does not cancel a pending device request: when the
    request is granted afterwards, the page still takes the stream and
    opens an audio context and a socket, although the phase is [ended] and
    the session is marked inactive; nothing releases them until the
    reaper runs again. *)
Theorem end_does_not_cancel_acquisition
  (w : World) (k : nat) (v : bool) (s : SessionStatus) (t1 t2 : Z) :
  mounted (browser w) = true ->
  sessionStatus (react w) <> idle ->
  sessionStatus (react w) <> ended ->
  continuations (browser w) !! k = Some (Some (AwaitUserMedia v s)) ->
  now (browser w) <= t1 <= t2 ->
  exists w',
    run [(t1, EndSession); (t2, PromiseSettled k Fulfilled)] w = Some w'
    /\ sessionStatus (react w') = ended
    /\ isSessionActiveRef (refs w') = false
    /\ mediaStreamRef (refs w') = Some (length (streams (browser w)))
    /\ streams (browser w') !! length (streams (browser w)) = Some true
    /\ audioContextRef (refs w') = Some (length (contexts (browser w)))
    /\ wsRef (refs w') = Some (length (sockets (browser w)))
    /\ socket_state (length (sockets (browser w))) w' = Some CONNECTING.
Proof.
  intros Hm Hi He Hk [Ht1 Ht2].
  destruct_world w. world_nf_in Hm. world_nf_in Hi. world_nf_in He.
  world_nf_in Hk. world_nf_in Ht1. subst.
  destruct ws, capture, stream, playback.
  all: unfold run; rewrite fire_enabled by (world_nf; lia).
  all: unfold step; world_nf.
  all: rewrite (bool_decide_eq_false_2 _ Hi), (bool_decide_eq_false_2 _ He).
  all: cbn [andb negb fmap option_fmap option_map].
  all: to_wp; wp_go.
  all: world_nf; rewrite fire_enabled by (world_nf; lia).
  all: unfold step; world_nf; rewrite Hk.
  all: cbn [fmap option_fmap option_map]; to_wp; wp_go.
  all: world_nf; eexists; split_and!; try reflexivity.
  all: world_nf; rewrite ?length_alter, ?length_insert, ?lookup_snoc;
    try reflexivity.
  all: first
    [ apply list_lookup_middle; now rewrite ?length_alter, ?length_insert
    | match goal with
      | |- _ <$> (?l ++ [?x]) !! ?n = _ =>
          replace ((l ++ [x]) !! n) with (Some x);
          [ reflexivity
          | symmetry; apply list_lookup_middle;
            now rewrite ?length_alter, ?length_insert ]
      end ].
Qed.

Lemma end_does_not_cancel_acquisition_witness :
  exists w',
    run [(2, EndSession); (3, PromiseSettled 0 Fulfilled)] acquiring_world
    = Some w'
    /\ sessionStatus (react w') = ended
    /\ wsRef (refs w') = Some 0%nat.
Proof.
  destruct (end_does_not_cancel_acquisition acquiring_world 0 false idle 2 3)
    as (w' & H & H1 & _ & _ & _ & _ & H2 & _);
    [reflexivity | discriminate | discriminate | reflexivity
    | vm_compute; split; discriminate |].
  exists w'. split_and!; assumption.
Defined.

(** ** Inbound audio *)

Lemma fire_some t e w (P : World -> Prop) :
  match fire (t, e) w with
  | Some w' => P w'
  | None => False
  end ->
  exists w', fire (t, e) w = Some w' /\ P w'.
Proof. destruct (fire (t, e) w) as [w'|]; [eauto | done]. Qed.

(** X19. Audio that arrives while a unit is playing is queued without a
    timer, and the completion callback of the playing unit starts the next
    unit at once, with everything that was queued, in arrival order. *)
Theorem queued_audio_chains
  (w : World) (i n c : nat) (d : string) (bytes pcm : list Z) (t1 t2 : Z) :
  isSessionActiveRef (refs w) = true ->
  isPlayingAudioRef (refs w) = true ->
  socket_state i w = Some OPEN ->
  nodeState <$> nodes (browser w) !! n = Some Playing ->
  activeAudioContextRef (refs w) = Some c ->
  context_state c w = Some running ->
  Base64.atob d = Some bytes ->
  TypedArray.Int16_view (List.concat (audioQueueRef2 (refs w) ++ [bytes]))
  = Some pcm ->
  pcm <> [] ->
  now (browser w) <= t1 <= t2 ->
  exists w1,
    fire (t1, WsMessage i (Some (audio_message d))) w = Some w1
    /\ timeouts (browser w1) = timeouts (browser w)
    /\ audioQueueRef2 (refs w1) = audioQueueRef2 (refs w) ++ [bytes]
    /\ exists w2,
         fire (t2, NodeEnded n) w1 = Some w2
         /\ starts (log w2)
            = starts (log w)
              ++ [(length (nodes (browser w)),
                   List.map Encoder.to_float32 pcm)]
         /\ audioQueueRef2 (refs w2) = []
         /\ isPlayingAudioRef (refs w2) = true.
Proof.
  intros Ha Hp Hopen Hn Hc Hrun Hd Hpcm Hne [Ht1 Ht2].
  destruct_world w.
  world_nf_in Ha. world_nf_in Hp. world_nf_in Hopen. world_nf_in Hn.
  world_nf_in Hc. world_nf_in Hrun. world_nf_in Hpcm. world_nf_in Ht1.
  subst.
  assert (Hq : forall q : list (list Z),
             (0 <? length (q ++ [bytes]))%nat = true).
  { intros q. now destruct q. }
  assert (Hq' : forall q : list (list Z),
             (length (q ++ [bytes]) =? 0)%nat = false).
  { intros q. now destruct q. }
  apply fire_some.
  rewrite fire_enabled by (world_nf; lia).
  unfold step. world_nf. rewrite Hopen.
  cbn [fmap option_fmap option_map].
  unfold audio_message. to_wp. wp_go; try congruence.
  world_nf. split; [reflexivity|]. split; [reflexivity|].
  apply fire_some.
  rewrite fire_enabled by (world_nf; lia).
  unfold step. world_nf. rewrite Hn.
  cbn [fmap option_fmap option_map].
  to_wp. wp_go; try congruence.
  all: rewrite ?Hq, ?Hq' in *; try discriminate.
  all: world_nf; cbn [negb orb] in *; try discriminate.
  all: try (destruct pcm; [congruence | discriminate]).
  all: rewrite ?list_lookup_alter_ne, ?length_alter in * by lia.
  all: split_and!; try reflexivity.
  all: obs_nf; try reflexivity.
Qed.

Lemma queued_audio_chains_witness :
  exists w1 w2,
    fire (250, WsMessage 0 (Some (audio_message "BAUGBw=="))) playing_world
    = Some w1
    /\ fire (300, NodeEnded 0) w1 = Some w2
    /\ starts (log w2)
       = starts (log playing_world)
         ++ [(1%nat, List.map Encoder.to_float32 [1284; 1798])].
Proof.
  destruct (queued_audio_chains playing_world 0 0 1 "BAUGBw==" [4; 5; 6; 7]
              [1284; 1798] 250 300)
    as (w1 & H1 & _ & _ & w2 & H2 & H3 & _);
    try reflexivity; [discriminate | vm_compute; split; discriminate |].
  exists w1, w2. split_and!; assumption.
Defined.

(** X21. An audio message whose data is a string that is not base64 is
    swallowed: the handler completes without an error, the phase is set
    to [speaking], and nothing is queued, scheduled or played. *)
Theorem invalid_audio_swallowed (w : World) (i : nat) (d : string) :
  Base64.atob d = None ->
  ws_onmessage i (Some (audio_message d)) w
  = (Normal tt,
     observe (SetStatus speaking) (with_react (set_sessionStatus speaking) w)).
Proof.
  intros Hd. apply wp_eq. destruct_world w.
  unfold audio_message. wp_go; try congruence; reflexivity.
Qed.

Lemma invalid_audio_swallowed_witness :
  ws_onmessage 0 (Some (audio_message "A")) live_world
  = (Normal tt,
     observe (SetStatus speaking)
             (with_react (set_sessionStatus speaking) live_world)).
Proof.
  apply (invalid_audio_swallowed live_world 0 "A"). reflexivity.
Defined.

(** X22. A playback unit without samples is never started: whether the
    queue processor resumes after the routing or after the context
    resume, it creates no source node and starts nothing, and either it
    clears the in-flight flag or it suspends once more for the context to
    resume. *)
Theorem empty_unit_never_starts
  (w : World) (c : nat) (k : Continuation) (r : Settlement) :
  k = AwaitRouting c [] \/ k = AwaitResume c [] ->
  let w' := exec (processAudioQueue_resume k r) w in
  nodes (browser w') = nodes (browser w)
  /\ log w' = log w
  /\ (isPlayingAudioRef (refs w') = false
      \/ continuations (browser w')
         = continuations (browser w) ++ [Some (AwaitResume c [])]).
Proof.
  intros Hk w'. subst w'. destruct_world w.
  destruct Hk as [-> | ->]; apply wp_exec; wp_go.
  all: try match goal with
         | H : List.map _ [] = _ :: _ |- _ => discriminate H
         end.
  all: world_nf; split_and!; try reflexivity; auto.
Qed.

Lemma empty_unit_never_starts_witness :
  log (exec (processAudioQueue_resume (AwaitRouting 1 []) Fulfilled)
            playing_world)
  = log playing_world.
Proof.
  destruct (empty_unit_never_starts playing_world 1 (AwaitRouting 1 [])
              Fulfilled) as (_ & H & _); [now left | exact H].
Defined.

(** ** Starting and restarting *)

Lemma alter_snoc {A} (f : A -> A) (l : list A) (x : A) :
  alter f (length l) (l ++ [x]) = l ++ [f x].
Proof.
  rewrite <- (Nat.add_0_r (length l)) at 1. now rewrite alter_app_r.
Qed.

Ltac socket_nf :=
  rewrite ?alter_snoc, ?lookup_snoc;
  cbv beta iota delta [set_readyState set_videoIntervalId set_closeFired];
  cbn [fmap option_fmap option_map readyState closeFired seenEnableVideo
       seenSessionStatus videoIntervalId].

Ltac wp_run_sockets :=
  repeat (first [wp_prim | wp_case | wp_unfold];
          world_nf; json_nf; socket_nf).

(** X12. From the consent to the first capture: when the user accepts
    the consent dialog, the devices are granted, the socket opens and the
    peer reports [connected], the page sets the phase to [connecting],
    sends one configuration message carrying the video choice made before
    the consent, sets [connected] and then [listening], connects one
    script processor and, in a video session, starts one video
    interval. *)
Theorem session_handshake
  (w : World) (u : string) (t1 t2 t3 t4 : Z) :
  mounted (browser w) = true ->
  showConsentModal (react w) = true ->
  user (browser w) = Some u ->
  now (browser w) <= t1 -> t1 <= t2 -> t2 <= t3 -> t3 <= t4 ->
  let k := length (continuations (browser w)) in
  let i := length (sockets (browser w)) in
  let v := enableVideo (react w) in
  exists w',
    run (handshake t1 t2 t3 t4 k i) w = Some w'
    /\ drop (length (log w)) (log w')
       = [SetStatus connecting; SetStatus connecting; Sent i (OutConfig v);
          SetStatus connected; SetStatus listening]
    /\ sessionStatus (react w') = listening
    /\ isSessionActiveRef (refs w') = true
    /\ wsRef (refs w') = Some i
    /\ socket_state i w' = Some OPEN
    /\ processors (browser w') = S (processors (browser w))
    /\ intervals (browser w')
       = (if v then S (intervals (browser w)) else intervals (browser w)).
Proof.
  intros Hm Hc Hu H1 H2 H3 H4 k i v. subst k i v.
  destruct_world w. world_nf_in Hm. world_nf_in Hc. world_nf_in Hu.
  world_nf_in H1. subst.
  unfold handshake, run.
  rewrite fire_enabled by (world_nf; lia).
  unfold step. world_nf. cbn [andb fmap option_fmap option_map].
  to_wp; wp_go.
  world_nf. rewrite fire_enabled by (world_nf; lia).
  unfold step. world_nf. rewrite lookup_snoc.
  cbn [fmap option_fmap option_map].
  to_wp; wp_go.
  world_nf. rewrite fire_enabled by (world_nf; lia).
  unfold step. world_nf. rewrite lookup_snoc.
  cbn [fmap option_fmap option_map readyState].
  socket_nf.
  to_wp. wp_run_sockets.
  world_nf.
  rewrite fire_enabled by (world_nf; lia).
  unfold step. world_nf. socket_nf.
  rewrite !bool_decide_eq_false_2 by discriminate.
  cbn [andb negb]. rewrite ?andb_true_r.
  unfold status_message. to_wp. wp_run_sockets.
  all: world_nf; socket_nf.
  all: eexists; split; [reflexivity|]; world_nf; socket_nf; log_nf.
  all: split_and!; reflexivity.
Qed.

Lemma session_handshake_witness :
  exists w',
    run (handshake 2 3 4 5 0 0)
        (default (initial_world (Some "patient-1"%string))
                 (run [(0, RequestPermissions)]
                      (initial_world (Some "patient-1"%string))))
    = Some w'
    /\ sessionStatus (react w') = listening
    /\ processors (browser w') = 1%nat.
Proof.
  destruct (session_handshake
              (default (initial_world (Some "patient-1"%string))
                       (run [(0, RequestPermissions)]
                            (initial_world (Some "patient-1"%string))))
              "patient-1" 2 3 4 5)
    as (w' & H & _ & H1 & _ & _ & _ & H2 & _);
    try reflexivity; try (vm_compute; discriminate).
  exists w'. split_and!; assumption.
Defined.

(** X14. From any phase of a session, the error phase included, the
    user's End followed by Start New Session brings the page back to the
    start view with every device, playback, queue and transport reference
    absent and the summary cleared; the error text is kept until the next
    session starts. *)
Theorem restart_from_any_phase (w : World) (t1 t2 : Z) :
  mounted (browser w) = true ->
  sessionStatus (react w) <> idle ->
  sessionStatus (react w) <> ended ->
  now (browser w) <= t1 <= t2 ->
  exists w',
    run [(t1, EndSession); (t2, StartNewSession)] w = Some w'
    /\ view_of (sessionStatus (react w')) = StartView
    /\ released w'
    /\ sessionSummary (react w') = Some JNull
    /\ errorState (react w') = errorState (react w)
    /\ statuses (drop (length (log w)) (log w')) = [ended; idle].
Proof.
  intros Hm Hi He [Ht1 Ht2].
  destruct_world w. world_nf_in Hm. world_nf_in Hi. world_nf_in He.
  world_nf_in Ht1. subst.
  unfold run. rewrite fire_enabled by (world_nf; lia).
  unfold step. world_nf.
  rewrite (bool_decide_eq_false_2 _ Hi), (bool_decide_eq_false_2 _ He).
  cbn [andb negb fmap option_fmap option_map].
  to_wp; wp_go.
  all: world_nf; rewrite fire_enabled by (world_nf; lia).
  all: unfold step; world_nf.
  all: cbn [andb negb fmap option_fmap option_map]; to_wp; wp_go.
  all: world_nf; eexists; split; [reflexivity|].
  all: unfold released; world_nf; log_nf; obs_nf.
  all: split_and!; reflexivity.
Qed.

Lemma restart_from_any_phase_witness :
  exists w',
    run [(10, EndSession); (11, StartNewSession)] live_world = Some w'
    /\ view_of (sessionStatus (react w')) = StartView.
Proof.
  destruct (restart_from_any_phase live_world 10 11)
    as (w' & H & H1 & _);
    [reflexivity | discriminate | discriminate
    | vm_compute; split; discriminate |].
  exists w'. split; assumption.
Defined.

(** ** The outbound protocol *)

Lemma before_connected_step t e w w' :
  before_connected w \/ In connected (statuses (log w)) ->
  fire (t, e) w = Some w' ->
  before_connected w' \/ In connected (statuses (log w')).
Proof.
  intros [(Hp & Hi & Hm)|Hc] H; fire_inv H; destruct_world w.
  - world_nf_in Hp. world_nf_in Hi. world_nf_in Hm. subst.
    step_cases e Hstep; try discriminate.
    all: unfold before_connected; to_wp; wp_go.
    all: world_nf; rewrite ?media_sent_snoc; cbn [is_media];
      rewrite ?app_nil_r; obs_nf.
    all: first [ left; split_and!; solve [reflexivity | assumption]
               | right; rewrite ?in_app_iff; cbn [In]; tauto ].
  - world_nf_in Hc. right.
    step_cases e Hstep.
    all: to_wp; wp_go; world_nf; obs_nf.
    all: rewrite ?in_app_iff; tauto.
Qed.

(** X16. No audio or video frame leaves the page before the peer has
    reported [connected]: until a [status: connected] message has been
    handled, no script processor is connected, no video interval runs and
    nothing of the microphone or the camera is sent. *)
Theorem no_media_before_connected
  (u : option string) (tr : list (Z * Event)) (w : World) :
  run tr (initial_world u) = Some w ->
  In connected (statuses (log w))
  \/ (media_sent (log w) = []
      /\ processors (browser w) = 0%nat
      /\ intervals (browser w) = 0%nat).
Proof.
  intros H.
  assert (Hinv : forall tr w0 w,
             before_connected w0 \/ In connected (statuses (log w0)) ->
             run tr w0 = Some w ->
             before_connected w \/ In connected (statuses (log w))).
  { clear. induction tr as [|[t e] tr IH]; intros w0 w H0 H; cbn in H.
    - now injection H as <-.
    - destruct (fire (t, e) w0) as [w1|] eqn:Hf; [|discriminate].
      eapply IH; [|exact H]. eapply before_connected_step; eauto. }
  destruct (Hinv tr (initial_world u) w) as [(Hp & Hi & Hm)|Hc]; auto.
  left. split_and!; reflexivity.
Qed.

Lemma no_media_before_connected_witness :
  exists w,
    run [(0, RequestPermissions); (1, ConsentAccept);
         (2, PromiseSettled 0 Fulfilled); (3, WsOpen 0)]
        (initial_world (Some "patient-1"%string)) = Some w
    /\ media_sent (log w) = [].
Proof.
  destruct (run [(0, RequestPermissions); (1, ConsentAccept);
                 (2, PromiseSettled 0 Fulfilled); (3, WsOpen 0)]
                (initial_world (Some "patient-1"%string))) as [w|] eqn:E;
    [|vm_compute in E; discriminate E].
  exists w. split; [reflexivity|].
  destruct (no_media_before_connected _ _ w E) as [Hc|[Hm _]];
    [|exact Hm].
  vm_compute in E. injection E as <-. vm_compute in Hc.
  repeat destruct Hc as [Hc|Hc]; try discriminate Hc. destruct Hc.
Defined.

Section WireFacts.
Implicit Types (sks : list WebSocket) (l : list OutMsg).

Lemma sent_on_snoc i obs o :
  sent_on i (obs ++ [o])
  = sent_on i obs
    ++ match o with
       | Sent j m => if Nat.eqb j i then [m] else []
       | _ => []
       end.
Proof.
  unfold sent_on. rewrite omap_app. f_equal.
  destruct o as [| j m | | |]; try reflexivity.
  cbn. now destruct (Nat.eqb j i).
Qed.

Lemma frames_then_end_frames l :
  forallb is_frame l = true -> frames_then_end l = true.
Proof.
  induction l as [|m l IH]; [reflexivity|]. cbn [forallb].
  intros [Hm Hl]%andb_true_iff. cbn [frames_then_end].
  rewrite Hm, (IH Hl). now destruct m, l.
Qed.

Lemma frames_then_end_end l :
  forallb is_frame l = true -> frames_then_end (l ++ [OutEnd]) = true.
Proof.
  induction l as [|m l IH]; [reflexivity|]. cbn [forallb].
  intros [Hm Hl]%andb_true_iff. cbn [app frames_then_end].
  rewrite Hm, (IH Hl). destruct m; try discriminate Hm; now destruct l.
Qed.

Lemma opened_conversation l : opened l = true -> conversation l = true.
Proof.
  destruct l as [|[] l]; try discriminate. apply frames_then_end_frames.
Qed.

Lemma opened_frame l m :
  opened l = true -> is_frame m = true -> opened (l ++ [m]) = true.
Proof.
  destruct l as [|[] l]; try discriminate. cbn [opened app].
  intros Hl Hm. rewrite forallb_app, Hl. cbn. now rewrite Hm.
Qed.

Lemma opened_end l :
  opened l = true -> conversation (l ++ [OutEnd]) = true.
Proof.
  destruct l as [|[] l]; try discriminate. apply frames_then_end_end.
Qed.

(** The reaper's [close()], on any socket. *)
Lemma carried_closing sks i j l :
  carried (readyState <$> sks !! i) l ->
  carried (readyState <$> alter closing j sks !! i) l.
Proof.
  destruct (decide (j = i)) as [<-|Hne];
    [|now rewrite list_lookup_alter_ne].
  rewrite list_lookup_alter_eq.
  destruct (sks !! j) as [s|]; [|done]. cbn. unfold closing.
  destruct (readyState s) eqn:E; cbn; rewrite ?E; cbn; try done.
  - now intros ->.
  - apply opened_conversation.
Qed.

(** The transport closing a socket. *)
Lemma carried_closed sks i j l (f : WebSocket -> WebSocket) :
  (forall s, readyState (f s) = CLOSED) ->
  carried (readyState <$> sks !! i) l ->
  carried (readyState <$> alter f j sks !! i) l.
Proof.
  intros Hf. destruct (decide (j = i)) as [<-|Hne];
    [|now rewrite list_lookup_alter_ne].
  rewrite list_lookup_alter_eq.
  destruct (sks !! j) as [s|]; [|done]. cbn. rewrite Hf.
  destruct (readyState s); cbn; try done.
  - now intros ->.
  - apply opened_conversation.
Qed.

(** A change that leaves the state of the socket as it is. *)
Lemma carried_same sks i j l (f : WebSocket -> WebSocket) :
  (forall s, readyState (f s) = readyState s) ->
  carried (readyState <$> sks !! i) l ->
  carried (readyState <$> alter f j sks !! i) l.
Proof.
  intros Hf. destruct (decide (j = i)) as [<-|Hne];
    [|now rewrite list_lookup_alter_ne].
  rewrite list_lookup_alter_eq.
  destruct (sks !! j) as [s|]; [|done]. cbn. now rewrite Hf.
Qed.

(** A new socket. *)
Lemma carried_new sks i l s :
  readyState s = CONNECTING ->
  carried (readyState <$> sks !! i) l ->
  carried (readyState <$> (sks ++ [s]) !! i) l.
Proof.
  intros Hs. destruct (lt_eq_lt_dec i (length sks)) as [[Hlt| ->]|Hgt].
  - now rewrite lookup_app_l.
  - rewrite lookup_snoc, (lookup_ge_None_2 sks) by lia. cbn. now rewrite Hs.
  - rewrite !lookup_ge_None_2; [done | | lia].
    rewrite length_app. cbn. lia.
Qed.

(** The socket [j] opens and sends its configuration. *)
Lemma carried_open sks i j l v :
  readyState <$> sks !! j = Some CONNECTING ->
  carried (readyState <$> sks !! i) l ->
  carried (readyState <$> alter (set_readyState OPEN) j sks !! i)
          (l ++ (if Nat.eqb j i then [OutConfig v] else [])).
Proof.
  intros Hj. destruct (decide (j = i)) as [<-|Hne].
  - rewrite Nat.eqb_refl, list_lookup_alter_eq, Hj.
    destruct (sks !! j) as [s|]; [|done]. cbn. now intros ->.
  - rewrite list_lookup_alter_ne by done.
    replace (Nat.eqb j i) with false
      by (symmetry; apply Nat.eqb_neq; congruence).
    now rewrite app_nil_r.
Qed.

(** A frame sent on the open socket [j]. *)
Lemma carried_frame sks i j l m :
  readyState <$> sks !! j = Some OPEN -> is_frame m = true ->
  carried (readyState <$> sks !! i) l ->
  carried (readyState <$> sks !! i) (l ++ (if Nat.eqb j i then [m] else [])).
Proof.
  intros Hj Hm. destruct (Nat.eqb_spec j i) as [->|Hne];
    [|now rewrite app_nil_r].
  rewrite Hj. cbn. intros Hl. now apply opened_frame.
Qed.

(** The [end] message sent on the open socket [j], which is then closed. *)
Lemma carried_end sks i j l :
  readyState <$> sks !! j = Some OPEN ->
  carried (readyState <$> sks !! i) l ->
  carried (readyState <$> alter closing j sks !! i)
          (l ++ (if Nat.eqb j i then [OutEnd] else [])).
Proof.
  intros Hj. destruct (decide (j = i)) as [<-|Hne].
  - rewrite Nat.eqb_refl, list_lookup_alter_eq.
    destruct (sks !! j) as [s|]; [|done]. cbn in *. injection Hj as Hj.
    unfold closing. rewrite Hj. cbn. apply opened_end.
  - replace (Nat.eqb j i) with false
      by (symmetry; apply Nat.eqb_neq; congruence).
    rewrite app_nil_r. apply carried_closing.
Qed.
End WireFacts.

Ltac wire_solve :=
  cbn beta iota; cbn [app]; rewrite ?app_nil_r;
  repeat first
    [ assumption
    | apply carried_end; [assumption|]
    | apply carried_frame; [assumption | reflexivity |]
    | apply carried_open; [assumption|]
    | apply carried_closing
    | apply carried_new; [reflexivity|]
    | apply carried_closed; [intros ?; reflexivity|]
    | apply carried_same; [intros ?; reflexivity|] ].

(** The socket that opens sends its configuration. *)
Lemma ws_onopen_sends i w :
  socket_state i w = Some CONNECTING ->
  exists v,
    exec (ws_onopen i) (alter_socket (set_readyState OPEN) i w)
    = observe (Sent i (OutConfig v)) (alter_socket (set_readyState OPEN) i w).
Proof.
  intros H. destruct_world w. world_nf_in H.
  destruct (sks !! i) as [s|] eqn:E; [|discriminate H].
  exists (seenEnableVideo s).
  apply wp_exec. unfold ws_onopen. repeat (wp_prim; world_nf).
  rewrite list_lookup_alter_eq, E. cbn [fmap option_fmap option_map].
  repeat (wp_prim; world_nf).
  rewrite list_lookup_alter_eq, E. cbn [fmap option_fmap option_map].
  reflexivity.
Qed.

Lemma wire_ok_step t e w w' :
  wire_ok w -> fire (t, e) w = Some w' -> wire_ok w'.
Proof.
  intros Hw H. fire_inv H.
  assert (Hd : (exists i, e = WsOpen i) \/ (forall i, e <> WsOpen i))
    by (destruct e; eauto; right; discriminate).
  destruct Hd as [[i ->]|Hne].
  { unfold step in Hstep.
    destruct (socket_state i _) as [[]|] eqn:Hs; try discriminate Hstep.
    injection Hstep as <-.
    destruct (ws_onopen_sends i _ Hs) as [v ->].
    destruct_world w. unfold wire_ok in *. world_nf_in Hw. world_nf_in Hs.
    world_nf. intros sk. specialize (Hw sk).
    rewrite sent_on_snoc. wire_solve. }
  destruct_world w.
  unfold wire_ok in *. world_nf_in Hw.
  step_cases e Hstep; try (now exfalso; eapply Hne).
  all: to_wp; wp_go.
  all: world_nf; intros sk; specialize (Hw sk).
  all: rewrite ?sent_on_snoc.
  all: repeat match goal with
         | |- context [match ?x with Some _ => _ | None => _ end] =>
             destruct x eqn:?
         end.
  all: wire_solve.
Qed.

Lemma carried_conversation st l : carried st l -> conversation l = true.
Proof.
  destruct st as [[]|]; cbn; try done.
  - now intros ->.
  - apply opened_conversation.
  - now intros ->.
Qed.

Lemma wire_ok_run tr w w' : wire_ok w -> run tr w = Some w' -> wire_ok w'.
Proof.
  revert w. induction tr as [|[t e] tr IH]; intros w Hw H; cbn in H.
  - now injection H as <-.
  - destruct (fire (t, e) w) as [w1|] eqn:Hf; [|discriminate].
    eapply IH; [|exact H]. eapply wire_ok_step; eauto.
Qed.

(** X18. What the page sends on a socket is one conversation: nothing
    before the socket is open, then one configuration message, then audio
    and video frames only, then at most one [end] message, after which
    nothing more is sent on that socket. *)
Theorem outbound_conversation
  (u : option string) (tr : list (Z * Event)) (w : World) (i : nat) :
  run tr (initial_world u) = Some w ->
  conversation (sent_on i (log w)) = true
  /\ (socket_state i w = None \/ socket_state i w = Some CONNECTING ->
      sent_on i (log w) = [])
  /\ (socket_state i w = Some OPEN -> opened (sent_on i (log w)) = true).
Proof.
  intros H.
  assert (Hw : wire_ok w).
  { eapply wire_ok_run; [|exact H]. intros j. reflexivity. }
  specialize (Hw i). split_and!.
  - eapply carried_conversation, Hw.
  - intros [E|E]; now rewrite E in Hw.
  - intros E. now rewrite E in Hw.
Qed.

Lemma outbound_conversation_witness :
  exists w,
    run (live_trace ++ [(5, AudioProcess [1 # 2]%Q); (6, EndSession)])
        (initial_world (Some "patient-1"%string)) = Some w
    /\ sent_on 0 (log w)
       = [OutConfig false; OutAudio (Encoder.frame [1 # 2]%Q) 16000; OutEnd]
    /\ conversation (sent_on 0 (log w)) = true.
Proof.
  destruct (run (live_trace ++ [(5, AudioProcess [1 # 2]%Q); (6, EndSession)])
                (initial_world (Some "patient-1"%string))) as [w|] eqn:E;
    [|vm_compute in E; discriminate E].
  exists w. split; [reflexivity|].
  destruct (outbound_conversation _ _ w 0%nat E) as (H & _).
  split; [|exact H].
  vm_compute in E. injection E as <-. vm_compute. reflexivity.
Defined.

(** ** Bounds of the two sample conversions *)

Section SampleBounds.
Import Base64 TypedArray Encoder.

Lemma index_of_range c l i n :
  index_of c l i = Some n -> i <= n < i + Z.of_nat (length l).
Proof.
  revert i. induction l as [|x l IH]; intros i; [discriminate|].
  cbn [index_of length]. destruct (Ascii.eqb c x).
  - intros [= <-]. lia.
  - intros H. apply IH in H. lia.
Qed.

Lemma values_small l vs :
  values l = Some vs -> Forall (fun d => 0 <= d < 64) vs.
Proof.
  revert vs. induction l as [|c l IH]; intros vs.
  - intros [= <-]. constructor.
  - cbn [values]. destruct (value c) as [v|] eqn:Ev; [|discriminate].
    destruct (values l) as [r|]; [|discriminate]. intros [= <-].
    constructor; [|now apply IH].
    apply index_of_range in Ev. cbn in Ev. lia.
Qed.

Lemma decode_step a b :
  0 <= a < 64 -> 0 <= b < 64 ->
  is_byte (Z.lor (Z.shiftl a 2) (Z.shiftr b 4))
  /\ is_byte (Z.lor (Z.shiftl (Z.land a 15) 4) (Z.shiftr b 2))
  /\ is_byte (Z.lor (Z.shiftl (Z.land a 3) 6) b).
Proof.
  intros Ha Hb.
  pose proof (below_forall2
                (fun a b =>
                   let byte := fun v => (0 <=? v) && (v <? 256) in
                   byte (Z.lor (Z.shiftl a 2) (Z.shiftr b 4))
                   && byte (Z.lor (Z.shiftl (Z.land a 15) 4) (Z.shiftr b 2))
                   && byte (Z.lor (Z.shiftl (Z.land a 3) 6) b))
                64 64 ltac:(vm_compute; reflexivity) a b Ha Hb) as E.
  cbv beta zeta in E.
  repeat match goal with
         | H : (_ && _) = true |- _ => apply andb_true_iff in H as [? ?]
         end.
  repeat match goal with
         | H : (_ <=? _) = true |- _ => apply Z.leb_le in H
         | H : (_ <? _) = true |- _ => apply Z.ltb_lt in H
         end.
  unfold is_byte. lia.
Qed.

Lemma decode_bytes vs :
  Forall (fun d => 0 <= d < 64) vs -> Forall is_byte (decode vs).
Proof.
  assert (H : forall n vs, (length vs <= n)%nat ->
                Forall (fun d => 0 <= d < 64) vs -> Forall is_byte (decode vs)).
  { clear vs. induction n as [|n IH]; intros vs Hn Hvs.
    - destruct vs; [constructor | cbn in Hn; lia].
    - destruct vs as [|a [|b [|c [|d r]]]]; cbn [decode]; try constructor.
      + inversion Hvs as [|? ? Ha [|? ? Hb _]]; subst.
        apply (decode_step a b Ha Hb).
      + constructor.
      + inversion Hvs as [|? ? Ha [|? ? Hb [|? ? Hc _]]]; subst.
        apply (decode_step a b Ha Hb).
      + constructor; [|constructor].
        inversion Hvs as [|? ? Ha [|? ? Hb [|? ? Hc _]]]; subst.
        apply (decode_step b c Hb Hc).
      + inversion Hvs as [|? ? Ha [|? ? Hb [|? ? Hc [|? ? Hd Hr]]]]; subst.
        apply (decode_step a b Ha Hb).
      + inversion Hvs as [|? ? Ha [|? ? Hb [|? ? Hc [|? ? Hd Hr]]]]; subst.
        constructor; [apply (decode_step b c Hb Hc)|].
        constructor; [apply (decode_step c d Hc Hd)|].
        apply IH; [cbn in Hn; lia | exact Hr]. }
  apply (H (length vs)). lia.
Qed.

Lemma atob_bytes s bytes : atob s = Some bytes -> Forall is_byte bytes.
Proof.
  unfold atob. destruct (_ =? 1); [discriminate|].
  destruct (values _) as [vs|] eqn:E; [|discriminate].
  intros [= <-]. apply decode_bytes. eapply values_small, E.
Qed.

Lemma to_float32_range v : is_int16 v -> in_unit_range (to_float32 v).
Proof.
  intros [Hlo Hhi]. unfold in_unit_range, to_float32. split.
  - apply Qle_shift_div_l; [reflexivity|].
    unfold Qle. cbn. lia.
  - apply Qlt_shift_div_r; [reflexivity|].
    unfold Qlt. cbn. lia.
Qed.
End SampleBounds.

(** X23. The sample conversion saturates and keeps the sign: every sample
    at or above 1 encodes to 32767, every sample at or below -1 to -32768,
    and no non-negative sample encodes to a negative integer nor a
    non-positive one to a positive integer. *)
Theorem convert_saturates (x : Q) :
  ((1 <= x)%Q -> Encoder.convert x = 32767)
  /\ ((x <= -1)%Q -> Encoder.convert x = -32768)
  /\ ((0 <= x)%Q -> 0 <= Encoder.convert x)
  /\ ((x <= 0)%Q -> Encoder.convert x <= 0).
Proof.
  assert (Hr : is_int16 (Encoder.convert x))
    by (rewrite convert_sample; apply sample_int16).
  destruct Hr as [Hlo Hhi]. split_and!; intros H.
  - pose proof (convert_mono 1 x H) as Hm.
    change (Encoder.convert 1) with 32767 in Hm. lia.
  - pose proof (convert_mono x (-1) H) as Hm.
    change (Encoder.convert (-1)) with (-32768) in Hm. lia.
  - pose proof (convert_mono 0 x H) as Hm.
    change (Encoder.convert 0) with 0 in Hm. lia.
  - pose proof (convert_mono x 0 H) as Hm.
    change (Encoder.convert 0) with 0 in Hm. lia.
Qed.

Lemma convert_saturates_witness :
  Encoder.convert (3 # 2) = 32767 /\ Encoder.convert (-2) = -32768.
Proof.
  destruct (convert_saturates (3 # 2)) as (H1 & _).
  destruct (convert_saturates (-2)) as (_ & H2 & _).
  split; [apply H1 | apply H2]; unfold Qle; simpl; lia.
Defined.

(** X24. Whatever base64 text the peer sends as audio, every sample the
    page hands to the audio buffer lies in [-1, 1): the decoded bytes read
    as 16-bit integers, and a 16-bit integer divided by 32768 cannot leave
    that range. *)
Theorem playback_samples_in_range (d : string) (bytes pcm : list Z) :
  Base64.atob d = Some bytes ->
  TypedArray.Int16_view bytes = Some pcm ->
  Forall is_int16 pcm
  /\ Forall in_unit_range (List.map Encoder.to_float32 pcm)
  /\ length bytes = (2 * length pcm)%nat.
Proof.
  intros Hd Hp.
  assert (Hr : Forall is_int16 pcm).
  { eapply Int16_view_range; [|exact Hp]. eapply atob_bytes, Hd. }
  split_and!; [exact Hr | | now apply Int16_view_length].
  apply Forall_map. eapply Forall_impl; [exact Hr|].
  intros v Hv. now apply to_float32_range.
Qed.

Lemma playback_samples_in_range_witness :
  Forall in_unit_range (List.map Encoder.to_float32 [-32768; 32767]).
Proof.
  apply (playback_samples_in_range "AID/fw==" [0; 128; 255; 127]
           [-32768; 32767]); reflexivity.
Defined.

(** ** The rhythm of the playback *)

(** X25. The debounce: on a live session with nothing queued, scheduled,
    suspended or playing, an audio chunk that arrives at the time [t] is
    queued, and no playback unit starts before [t + 150] ms, whatever
    timers, capture ticks, fulfilled awaits and completion callbacks run
    in between. *)
Theorem debounce_delay
  (w : World) (i : nat) (t : Z) (d : string) (b : list Z)
  (tr : list (Z * Event)) (w' : World) :
  calm w ->
  Base64.atob d = Some b ->
  Forall (fun te => benign (snd te) = true) tr ->
  run ((t, WsMessage i (Some (audio_message d))) :: tr) w = Some w' ->
  now (browser w') < t + 150 ->
  starts (log w') = starts (log w)
  /\ audioQueueRef2 (refs w') = [b]
  /\ isPlayingAudioRef (refs w') = false.
Proof.
  intros Hcalm Hd Hb Hrun Hnow.
  apply run_cons in Hrun as (w1 & Hf & Hrun).
  pose proof (calm_collecting (t + 150) w Hcalm) as Hc0.
  pose proof (collecting_message _ _ _ t i d b w w1 Hc0 Hd ltac:(lia) Hf)
    as Hc1.
  pose proof (burst_early _ _ _ tr w1 w' Hb Hc1 Hrun Hnow)
    as (_ & Hp & Hq & _ & _ & _ & _ & Hs).
  split_and!; assumption.
Qed.

Lemma debounce_delay_witness :
  exists w',
    run [(10, WsMessage 0 (Some (audio_message "AQID/w==")));
         (100, AudioProcess [1 # 2]%Q)] live_world = Some w'
    /\ starts (log w') = starts (log live_world).
Proof.
  destruct (run [(10, WsMessage 0 (Some (audio_message "AQID/w==")));
                 (100, AudioProcess [1 # 2]%Q)] live_world) as [w'|] eqn:E;
    [|vm_compute in E; discriminate E].
  exists w'. split; [reflexivity|].
  destruct (debounce_delay live_world 0 10 "AQID/w==" [1; 2; 3; 255]
              [(100, AudioProcess [1 # 2]%Q)] w') as (H & _).
  - apply calm_live_world.
  - reflexivity.
  - repeat constructor.
  - exact E.
  - vm_compute in E. injection E as <-. vm_compute. reflexivity.
  - exact H.
Defined.

(** X26. When a playback unit completes on a live session with nothing
    queued and a socket referenced, the completion callback clears the
    in-flight flag and sets the phase back to [listening]; it clears the
    active-source reference only if it still refers to the node that
    ended. *)
Theorem completion_returns_to_listening
  (w : World) (n i : nat) (st : NodeState) (t : Z) :
  isSessionActiveRef (refs w) = true ->
  audioQueueRef2 (refs w) = [] ->
  wsRef (refs w) = Some i ->
  nodeState <$> nodes (browser w) !! n = Some st ->
  airborne_state st = true ->
  now (browser w) <= t ->
  exists w',
    fire (t, NodeEnded n) w = Some w'
    /\ sessionStatus (react w') = listening
    /\ statusMessage (react w') = "Listening..."%string
    /\ isPlayingAudioRef (refs w') = false
    /\ drop (length (log w)) (log w') = [PlaybackEnded n; SetStatus listening]
    /\ activeSourceNodeRef (refs w')
       = (if bool_decide (activeSourceNodeRef (refs w) = Some n)
          then None else activeSourceNodeRef (refs w)).
Proof.
  intros Ha Hq Hws Hn Hst Ht.
  destruct_world w. world_nf_in Ha. world_nf_in Hq. world_nf_in Hws.
  world_nf_in Hn. world_nf_in Ht. subst.
  apply fire_some. rewrite fire_enabled by (world_nf; lia).
  unfold step. world_nf. rewrite Hn.
  destruct st; try discriminate Hst.
  all: cbn [fmap option_fmap option_map]; to_wp; wp_go.
  all: try discriminate.
  all: world_nf; log_nf; split_and!; reflexivity.
Qed.

Lemma completion_returns_to_listening_witness :
  exists w',
    fire (300, NodeEnded 0) playing_world = Some w'
    /\ sessionStatus (react w') = listening.
Proof.
  destruct (completion_returns_to_listening playing_world 0 0 Playing 300)
    as (w' & H & H1 & _); try reflexivity; [vm_compute; discriminate|].
  exists w'. split; assumption.
Defined.

